(** * Verification of [torch_mlu/profiler/_utils.py] (class [BasicEvaluation])

    A shallow embedding of the profiler analysis passes
    [compute_self_time], [compute_queue_depth], [compute_idle_time] and
    [rank_events], followed by the properties proved about them.

    Python integers are unbounded and are modelled by [Z].  The metrics
    dictionary keeps insertion order, which the later passes observe, and is
    modelled by an association list keyed by the event identity. *)

From stdpp Require Import base list strings gmap sorting.
From Stdlib Require Import ZArith Lia.
From Stdlib Require SpecFloat.

Local Open Scope Z_scope.
Set Warnings "-register-all".

(** ** Data model *)

(** Modelled from the spec: a node of the CPU event tree ([_ProfilerEvent],
    built by the profiler) has start, end and duration in nanoseconds, a
    name, a stable identity and an ordered list of children.  These are the
    fields the module reads. *)
Inductive Event : Type := mkEvent {
  id : Z;
  name : string;
  start_time_ns : Z;
  end_time_ns : Z;
  duration_time_ns : Z;
  children : list Event
}.

(** Modelled from the spec: the device-type tag ([DeviceType] of
    [torch.profiler]); only the comparison with [MLU] is used. *)
Inductive DeviceType : Type := CPU | CUDA | MLU | PrivateUse1.

Module Kineto.
(** Modelled from the spec: a device-timeline record ([_KinetoEvent]) has
    start and duration in microseconds, a device-type tag, a name and a
    correlation id. *)
Record t : Type := mk {
  name : string;
  device_type : DeviceType;
  start_us : Z;
  duration_us : Z;
  linked_correlation_id : Z
}.
End Kineto.

(** Modelled from the spec: [EventMetrics] is imported from
    [torch.profiler._utils]; one mutable record per key, with the fields
    [duration_time_ns], [self_time_ns], [idle_time_ns] and [queue_depth].
    The first and the last carry the suffix [_m] here, their names being
    taken by [Event] and [Interval]. *)
Record EventMetrics : Type := mkEventMetrics {
  duration_time_ns_m : Z;
  self_time_ns : Z;
  idle_time_ns : Z;
  queue_depth_m : Z
}.

(** Modelled from the spec: [Interval] is imported from
    [torch.profiler._utils]; a span [start, end) in nanoseconds with a queue
    depth as payload. *)
Record Interval : Type := mkInterval {
  start : Z;
  end_ : Z;
  queue_depth : Z
}.

(** [profile.kineto_results]: the event tree and the flat device list. *)
Record KinetoResults : Type := mkKinetoResults {
  experimental_event_tree : list Event;
  events : list Kineto.t
}.

Record profile : Type := mkProfile {
  kineto_results : option KinetoResults
}.

(** The ways a pass can abort. *)
Inductive Error : Type :=
| AssertKinetoResults
| DuplicateId (event_id : Z) (event_name : string)
| KeyError (event_id : Z)
| LoopBudget.

Inductive result (A : Type) : Type :=
| Ok (a : A)
| Raise (e : Error).
Arguments Ok {A} a.
Arguments Raise {A} e.

#[global] Instance result_ret : MRet result := fun _ a => Ok a.

#[global] Instance result_bind : MBind result := fun _ _ k r =>
  match r with
  | Ok a => k a
  | Raise e => Raise e
  end.

(** ** The metrics dictionary *)

(** Modelled from the spec: [EventKey] is imported from
    [torch.profiler._utils]; it wraps a CPU event and gives it equality and
    hashing by the identity of the event.  [Dict[EventKey, EventMetrics]]
    remembers the first key object stored and the order of insertion. *)
Definition Metrics : Type := list (Event * EventMetrics).

Definition same_key (e : Event) (p : Event * EventMetrics) : bool :=
  id (fst p) =? id e.

(** [EventKey(e) in metrics] *)
Definition metrics_mem (e : Event) (m : Metrics) : bool :=
  existsb (same_key e) m.

(** [metrics[EventKey(e)]] *)
Definition metrics_get (e : Event) (m : Metrics) : option EventMetrics :=
  snd <$> find (same_key e) m.

(** In-place change of the record stored under [EventKey(e)]. *)
Fixpoint metrics_alter (f : EventMetrics -> EventMetrics) (e : Event)
    (m : Metrics) : Metrics :=
  match m with
  | [] => []
  | p :: m' =>
      if same_key e p then (fst p, f (snd p)) :: m'
      else p :: metrics_alter f e m'
  end.

(** [metrics[EventKey(e)] = r] *)
Definition metrics_set (e : Event) (r : EventMetrics) (m : Metrics) : Metrics :=
  if metrics_mem e m then metrics_alter (fun _ => r) e m else m ++ [(e, r)].

Definition metrics_keys (m : Metrics) : list Event := map fst m.

(** ** compute_self_time *)

Fixpoint event_size (e : Event) : nat :=
  S (list_sum (map event_size (children e))).

Definition forest_size (l : list Event) : nat :=
  list_sum (map event_size l).

(** What the dataclasses imported from [torch.profiler._utils] leave to
    their declarations: the field defaults of [EventMetrics] and the default
    [queue_depth] of an [Interval] built from two arguments. *)
Class Defaults : Type := mkDefaults {
  EventMetrics_default : EventMetrics;
  Interval_default_queue_depth : Z
}.

Section SelfTime.

Context {defaults : Defaults}.

(** [EventMetrics(self_time_ns=self_time)] *)
Definition EventMetrics_of_self_time (self_time : Z) : EventMetrics :=
  {| duration_time_ns_m := duration_time_ns_m EventMetrics_default;
     self_time_ns := self_time;
     idle_time_ns := idle_time_ns EventMetrics_default;
     queue_depth_m := queue_depth_m EventMetrics_default |}.

Definition set_duration_time_ns (d : Z) (r : EventMetrics) : EventMetrics :=
  {| duration_time_ns_m := d;
     self_time_ns := self_time_ns r;
     idle_time_ns := idle_time_ns r;
     queue_depth_m := queue_depth_m r |}.

(** The inner [for child_event in curr_event.children] loop: the running
    self time and the stack.  The deque is kept with its right end first, so
    [stack.append] is a cons and [stack.pop()] takes the head. *)
Definition scan_children (cs : list Event) (self_time : Z) (stack : list Event)
    : Z * list Event :=
  fold_left (fun acc child => (fst acc - duration_time_ns child, child :: snd acc))
            cs (self_time, stack).

(** The [while stack] loop; [budget] bounds the number of iterations. *)
Fixpoint self_time_loop (budget : nat) (stack : list Event) (metrics : Metrics)
    : result Metrics :=
  match stack with
  | [] => Ok metrics
  | curr_event :: rest =>
      match budget with
      | O => Raise LoopBudget
      | S budget' =>
          let '(self_time, stack') :=
            scan_children (children curr_event) (duration_time_ns curr_event) rest in
          if metrics_mem curr_event metrics
          then Raise (DuplicateId (id curr_event) (name curr_event))
          else
            let metrics1 :=
              metrics_set curr_event (EventMetrics_of_self_time self_time) metrics in
            let metrics2 :=
              metrics_alter (set_duration_time_ns (duration_time_ns curr_event))
                            curr_event metrics1 in
            self_time_loop budget' stack' metrics2
      end
  end.

Definition compute_self_time (prof : profile) (metrics : Metrics) : result Metrics :=
  match kineto_results prof with
  | None => Raise AssertKinetoResults
  | Some kr =>
      let stack := rev (experimental_event_tree kr) in
      self_time_loop (forest_size stack) stack metrics
  end.

End SelfTime.

(** ** Builtins used by the later passes *)

(** [sorted(l, key=key)]: stable, ascending.  An element is placed before
    the elements that followed it in [l] and whose key is not smaller. *)
Fixpoint insert_by {A : Type} (key : A -> Z) (x : A) (l : list A) : list A :=
  match l with
  | [] => [x]
  | y :: l' => if key x <=? key y then x :: y :: l' else y :: insert_by key x l'
  end.

Definition sorted {A : Type} (key : A -> Z) (l : list A) : list A :=
  foldr (insert_by key) [] l.

(** [str.lower()] on ASCII names. *)
Definition ascii_lower (c : Ascii.ascii) : Ascii.ascii :=
  let n := Ascii.nat_of_ascii c in
  if ((65 <=? n)%nat && (n <=? 90)%nat)%bool then Ascii.ascii_of_nat (n + 32) else c.

Fixpoint lower (s : string) : string :=
  match s with
  | EmptyString => EmptyString
  | String c s' => String (ascii_lower c) (lower s')
  end.

(** [needle in hay] for strings. *)
Fixpoint str_in (needle hay : string) : bool :=
  if String.prefix needle hay then true
  else match hay with
       | EmptyString => false
       | String _ hay' => str_in needle hay'
       end.

(** Modelled from the spec: [index_of_first_match] is imported from
    [torch.profiler._utils]; it returns the first index at or after [start]
    whose element satisfies the predicate, and "no index" otherwise. *)
Fixpoint index_from {A : Type} (predicate : A -> bool) (l : list A) (i : nat)
    : option nat :=
  match l with
  | [] => None
  | x :: l' => if predicate x then Some i else index_from predicate l' (S i)
  end.

Definition index_of_first_match {A : Type} (seq : list A) (predicate : A -> bool)
    (start : nat) : option nat :=
  index_from predicate (drop start seq) start.

(** ** compute_queue_depth *)

(** A device event together with its object identity: [_KinetoEvent] objects
    hash and compare by identity, which is their position in the list
    returned by [kineto_results.events()]. *)
Abbreviation DevEvent := (nat * Kineto.t)%type.

Definition dev_start_us (e : DevEvent) : Z := Kineto.start_us (snd e).
Definition dev_duration_us (e : DevEvent) : Z := Kineto.duration_us (snd e).
Definition dev_correlation (e : DevEvent) : Z := Kineto.linked_correlation_id (snd e).

Definition is_mlu_launch_kernel (e : DevEvent) : bool :=
  bool_decide (Kineto.name (snd e) = "cnInvokeKernel"%string).

Definition is_MLU (d : DeviceType) : bool :=
  match d with MLU => true | _ => false end.

Definition is_mlu_kernel (e : DevEvent) : bool :=
  is_MLU (Kineto.device_type (snd e))
  && negb (str_in "mem" (lower (Kineto.name (snd e)))).

(** The two shapes held by [all_events]; [hasattr(event, "start_us")]
    tells them apart. *)
Inductive AnyEvent : Type :=
| Dev (e : DevEvent)
| Cpu (e : Event).

Definition new_old_event_comparator (event : AnyEvent) : Z :=
  match event with
  | Dev e => dev_start_us e * 1000
  | Cpu e => start_time_ns e
  end.

(** One round of the [for mlu_launch_event in mlu_launch_events] loop. *)
Definition correlate_step (mlu_kernel_events : list DevEvent)
    (st : gmap nat (option nat) * nat) (mlu_launch_event : DevEvent)
    : gmap nat (option nat) * nat :=
  let '(kernel_mapping, last_mapped_kernel) := st in
  let index :=
    index_of_first_match mlu_kernel_events
      (fun x => dev_correlation x =? dev_correlation mlu_launch_event)
      last_mapped_kernel in
  (<[fst mlu_launch_event := index]> kernel_mapping,
   match index with Some i => i | None => last_mapped_kernel end).

Definition correlate (mlu_kernel_events mlu_launch_events : list DevEvent)
    : gmap nat (option nat) * nat :=
  fold_left (correlate_step mlu_kernel_events) mlu_launch_events (∅, 0%nat).

(** The [while current_kernel_index < len(mlu_kernel_events) and ...] loop,
    run over the kernels from [current_kernel_index] on. *)
Fixpoint advance_kernels (rest : list DevEvent) (current_kernel_index : nat)
    (start_time : Z) : nat :=
  match rest with
  | [] => current_kernel_index
  | k :: rest' =>
      if dev_start_us k * 1000 <=? start_time
      then advance_kernels rest' (S current_kernel_index) start_time
      else current_kernel_index
  end.

Definition set_queue_depth (d : Z) (r : EventMetrics) : EventMetrics :=
  {| duration_time_ns_m := duration_time_ns_m r;
     self_time_ns := self_time_ns r;
     idle_time_ns := idle_time_ns r;
     queue_depth_m := d |}.

(** What the sweep over [all_events] carries from one event to the next. *)
Record Sweep : Type := mkSweep {
  current_kernel_index : nat;
  spawned_kernel_index : Z;
  sweep_queue_depth_list : list Interval;
  sweep_metrics : Metrics
}.

(** [spawned_kernel_index] after looking at [event]. *)
Definition spawn (kernel_mapping : gmap nat (option nat)) (event : AnyEvent)
    (spawned : Z) : Z :=
  match event with
  | Dev e =>
      match kernel_mapping !! fst e with
      | Some (Some index) => Z.of_nat index
      | _ => spawned
      end
  | Cpu _ => spawned
  end.

(** The body of [for event in all_events]. *)
Definition sweep_step (mlu_kernel_events : list DevEvent)
    (kernel_mapping : gmap nat (option nat)) (s : Sweep) (event : AnyEvent)
    : result Sweep :=
  let start_time := new_old_event_comparator event in
  let spawned := spawn kernel_mapping event (spawned_kernel_index s) in
  let current :=
    advance_kernels (drop (current_kernel_index s) mlu_kernel_events)
                    (current_kernel_index s) start_time in
  let current_queue_depth := Z.max (spawned - Z.of_nat current + 1) 0 in
  match event with
  | Dev e =>
      let end_time := (dev_start_us e + dev_duration_us e) * 1000 in
      Ok {| current_kernel_index := current;
            spawned_kernel_index := spawned;
            sweep_queue_depth_list :=
              sweep_queue_depth_list s
                ++ [mkInterval start_time end_time current_queue_depth];
            sweep_metrics := sweep_metrics s |}
  | Cpu e =>
      if metrics_mem e (sweep_metrics s)
      then Ok {| current_kernel_index := current;
                 spawned_kernel_index := spawned;
                 sweep_queue_depth_list := sweep_queue_depth_list s;
                 sweep_metrics :=
                   metrics_alter (set_queue_depth current_queue_depth) e
                                 (sweep_metrics s) |}
      else Raise (KeyError (id e))
  end.

Fixpoint sweep (mlu_kernel_events : list DevEvent)
    (kernel_mapping : gmap nat (option nat)) (all_events : list AnyEvent)
    (s : Sweep) : result Sweep :=
  match all_events with
  | [] => Ok s
  | event :: rest =>
      s' ← sweep_step mlu_kernel_events kernel_mapping s event;
      sweep mlu_kernel_events kernel_mapping rest s'
  end.

(** The analysis object. *)
Record BasicEvaluation : Type := mkBasicEvaluation {
  self_profile : profile;
  self_metrics : Metrics;
  self_event_keys : list Event;
  self_events : list Event;
  self_mlu_events : list DevEvent;
  self_queue_depth_list : list Interval
}.

Definition mlu_event_list_of (kr : KinetoResults) : list DevEvent :=
  imap (fun i e => (i, e)) (events kr).

Definition mlu_launch_events_of (kr : KinetoResults) : list DevEvent :=
  sorted dev_start_us (filter (fun e => is_mlu_launch_kernel e = true) (mlu_event_list_of kr)).

Definition mlu_kernel_events_of (kr : KinetoResults) : list DevEvent :=
  sorted dev_start_us (filter (fun e => is_mlu_kernel e = true) (mlu_event_list_of kr)).

Definition all_events_of (kr : KinetoResults) (cpu_events : list Event)
    : list AnyEvent :=
  sorted new_old_event_comparator
    (map Dev (mlu_launch_events_of kr) ++ map Dev (mlu_kernel_events_of kr)
       ++ map Cpu cpu_events).

(** Returns the object after the pass (its [mlu_events] and [metrics] are
    written) and the list the method returns. *)
Definition compute_queue_depth (self : BasicEvaluation)
    : result (BasicEvaluation * list Interval) :=
  match kineto_results (self_profile self) with
  | None => Raise AssertKinetoResults
  | Some kr =>
      let mlu_launch_events := mlu_launch_events_of kr in
      let mlu_kernel_events := mlu_kernel_events_of kr in
      let mlu_events := sorted dev_start_us (mlu_launch_events ++ mlu_kernel_events) in
      let kernel_mapping := fst (correlate mlu_kernel_events mlu_launch_events) in
      let all_events := all_events_of kr (self_events self) in
      s ← sweep mlu_kernel_events kernel_mapping all_events
            {| current_kernel_index := 0%nat;
               spawned_kernel_index := -1;
               sweep_queue_depth_list := [];
               sweep_metrics := self_metrics self |};
      Ok ({| self_profile := self_profile self;
             self_metrics := sweep_metrics s;
             self_event_keys := self_event_keys self;
             self_events := self_events self;
             self_mlu_events := mlu_events;
             self_queue_depth_list := self_queue_depth_list self |},
          sweep_queue_depth_list s)
  end.

(** ** compute_idle_time *)

(** Modelled from the spec: [EventKey.intervals_overlap] is imported from
    [torch.profiler._utils]; it returns the total nanoseconds of overlap
    between the event's [start, end) span and the union of the supplied
    intervals.  The intervals are taken in order of start; [covered] is the
    right end of what has been counted. *)
Fixpoint overlap_from (lo hi covered : Z) (intervals : list Interval) : Z :=
  match intervals with
  | [] => 0
  | i :: rest =>
      let a := Z.max (Z.max lo (start i)) covered in
      let b := Z.min hi (end_ i) in
      (if a <? b then b - a else 0)
      + overlap_from lo hi (Z.max covered (end_ i)) rest
  end.

Definition intervals_overlap (e : Event) (intervals : list Interval) : Z :=
  overlap_from (start_time_ns e) (end_time_ns e) (start_time_ns e)
               (sorted start intervals).

Definition set_idle_time_ns (t : Z) (r : EventMetrics) : EventMetrics :=
  {| duration_time_ns_m := duration_time_ns_m r;
     self_time_ns := self_time_ns r;
     idle_time_ns := t;
     queue_depth_m := queue_depth_m r |}.

(** The loop variables of [for data_point in self.queue_depth_list]. *)
Record IdleScan : Type := mkIdleScan {
  idle : bool;
  idle_start : Z;
  idle_intervals : list Interval
}.

Section IdleTime.

Context {defaults : Defaults}.

(** [Interval(a, b)] *)
Definition Interval2 (a b : Z) : Interval :=
  mkInterval a b Interval_default_queue_depth.

Definition idle_step (s : IdleScan) (data_point : Interval) : IdleScan :=
  let s1 :=
    if (queue_depth data_point =? 0) && negb (idle s)
    then {| idle := true; idle_start := end_ data_point;
            idle_intervals := idle_intervals s |}
    else s in
  if (0 <? queue_depth data_point) && idle s1
  then {| idle := false; idle_start := idle_start s1;
          idle_intervals :=
            idle_intervals s1 ++ [Interval2 (idle_start s1) (start data_point)] |}
  else s1.

(** The two boundary intervals added when both lists are non-empty. *)
Definition boundary_intervals (queue_depth_list : list Interval)
    (cpu_events : list Event) : list Interval :=
  match queue_depth_list, cpu_events with
  | q0 :: _, e0 :: _ =>
      [Interval2 (start_time_ns e0) (start q0);
       Interval2 (end_ (default q0 (last queue_depth_list)))
                 (end_time_ns (default e0 (last cpu_events)))]
  | _, _ => []
  end.

Definition idle_scan (queue_depth_list : list Interval) (s : IdleScan) : IdleScan :=
  fold_left idle_step queue_depth_list s.

(** The value of the local [idle_intervals] when the scan is over. *)
Definition idle_intervals_of (self : BasicEvaluation) : list Interval :=
  idle_intervals
    (idle_scan (self_queue_depth_list self)
       {| idle := false; idle_start := 0;
          idle_intervals :=
            boundary_intervals (self_queue_depth_list self) (self_events self) |}).

Definition compute_idle_time (self : BasicEvaluation) : BasicEvaluation :=
  let idle_intervals := idle_intervals_of self in
  let event_list := metrics_keys (self_metrics self) in
  {| self_profile := self_profile self;
     self_metrics :=
       fold_left
         (fun m event =>
            metrics_alter (set_idle_time_ns (intervals_overlap event idle_intervals))
                          event m)
         event_list (self_metrics self);
     self_event_keys := self_event_keys self;
     self_events := self_events self;
     self_mlu_events := self_mlu_events self;
     self_queue_depth_list := self_queue_depth_list self |}.

(** [BasicEvaluation.__init__] *)
Definition BasicEvaluation_init (prof : profile) : result BasicEvaluation :=
  metrics ← compute_self_time prof [];
  let event_keys := sorted start_time_ns (metrics_keys metrics) in
  let self0 :=
    {| self_profile := prof;
       self_metrics := metrics;
       self_event_keys := event_keys;
       self_events := event_keys;
       self_mlu_events := [];
       self_queue_depth_list := [] |} in
  '(self1, queue_depth_list) ← compute_queue_depth self0;
  let self2 :=
    {| self_profile := self_profile self1;
       self_metrics := self_metrics self1;
       self_event_keys := self_event_keys self1;
       self_events := self_events self1;
       self_mlu_events := self_mlu_events self1;
       self_queue_depth_list := queue_depth_list |} in
  Ok (compute_idle_time self2).

End IdleTime.

(** ** rank_events *)

(** The [float32] tensor arithmetic of [torch] that the scoring uses.  A
    one-dimensional tensor is the list of its elements; the reductions and
    the element operations are left to the library. *)
Class Float32 : Type := mkFloat32 {
  float32 : Type;
  (** an element of [torch.tensor([... ints ...], dtype=torch.float32)] *)
  tensor_int : Z -> float32;
  (** [EventMetrics.fraction_idle_time] as an element of a [float32] tensor *)
  tensor_fraction_idle_time : EventMetrics -> float32;
  torch_mean : list float32 -> float32;
  torch_std : list float32 -> float32;
  fsub : float32 -> float32 -> float32;
  fdiv : float32 -> float32 -> float32;
  fadd : float32 -> float32 -> float32;
  (** [0.6 * x] *)
  fmul_0_6 : float32 -> float32;
  (** [x < y] as the sort tests it *)
  flt : float32 -> float32 -> bool
}.

#[global] Instance Interval_inhabited : Inhabited Interval :=
  populate (mkInterval 0 0 0).

Definition bottom_threashold : Z := 0.
Definition top_threashold : Z := 4.

(** Index of the first greatest element of [l], counted from [i]; [best]
    and [best_i] are the greatest element so far and its index. *)
Fixpoint argmax_from (l : list Z) (i : nat) (best : Z) (best_i : nat) : nat :=
  match l with
  | [] => best_i
  | x :: l' =>
      if best <? x then argmax_from l' (S i) x i
      else argmax_from l' (S i) best best_i
  end.

(** Modelled from the spec: [argmax] is imported from
    [torch.profiler._utils]; it returns the index of the maximum of
    [seq[start:end]] (the peak), and "no index" when that slice is empty.
    [end = None] stands for the end of the sequence. *)
Definition argmax (seq : list Z) (start : nat) (end_idx : option nat) : option nat :=
  let stop := default (length seq) end_idx in
  match take (stop - start) (drop start seq) with
  | [] => None
  | x :: l => Some (argmax_from l (S start) x start)
  end.

(** The [for j in range(i + 1, len(qd_values))] loop: the first [j] with a
    valid peak gives [(peak_idx, next_minimum_idx)]; the loop ends without a
    [break] otherwise.  [peak_idx] is an index of [qd_values]. *)
Fixpoint find_peak (qd_values : list Z) (js : list nat)
    : option (nat * option nat) :=
  match js with
  | [] => None
  | j :: js' =>
      let next_minimum_idx :=
        index_of_first_match qd_values (fun x => x <=? bottom_threashold) j in
      match argmax qd_values j next_minimum_idx with
      | Some peak_idx =>
          if top_threashold <=? qd_values !!! peak_idx
          then Some (peak_idx, next_minimum_idx)
          else find_peak qd_values js'
      | None => find_peak qd_values js'
      end
  end.

(** [event_list[:length]] *)
Definition slice_to {A : Type} (l : list A) (length_ : Z) : list A :=
  if 0 <=? length_ then take (Z.to_nat length_) l
  else take (length l - Z.to_nat (- length_)) l.

Section RankEvents.

Context {defaults : Defaults} {torch : Float32}.

(** The [while (i < len(qd_values))] loop; every round moves [i] forward,
    and [budget] bounds the number of rounds. *)
Fixpoint decrease_loop (budget : nat) (queue_depth_list : list Interval)
    (qd_values : list Z) (i : nat) (decrease_interval : list Interval)
    : list Interval :=
  match budget with
  | O => decrease_interval
  | S budget' =>
      if (i <? length qd_values)%nat then
        if bottom_threashold <? qd_values !!! i
        then decrease_loop budget' queue_depth_list qd_values (S i) decrease_interval
        else
          match find_peak qd_values (seq (S i) (length qd_values - S i)) with
          | Some (peak_idx, next_minimum_idx) =>
              decrease_loop budget' queue_depth_list qd_values
                (S (default i next_minimum_idx))
                (decrease_interval
                   ++ [Interval2 (start (queue_depth_list !!! peak_idx))
                                 (start (queue_depth_list !!! i))])
          | None =>
              decrease_loop budget' queue_depth_list qd_values (S i) decrease_interval
          end
      else decrease_interval
  end.

Definition decrease_interval_of (self : BasicEvaluation) : list Interval :=
  let queue_depth_list := rev (self_queue_depth_list self) in
  let qd_values := map queue_depth queue_depth_list in
  decrease_loop (length qd_values) queue_depth_list qd_values 0 [].

(** The filtered [event_list], each key with the record [self.metrics]
    holds for it. *)
Definition survivors (self : BasicEvaluation) : list (Event * EventMetrics) :=
  let decrease_interval := decrease_interval_of self in
  filter (fun p => intervals_overlap (fst p) decrease_interval ≠ 0)
         (self_metrics self).

Definition standardize (t : list float32) : list float32 :=
  let m := torch_mean t in
  let s := torch_std t in
  map (fun x => fdiv (fsub x m) s) t.

Definition heuristic_score_list (event_list : list (Event * EventMetrics))
    : list float32 :=
  let self_time := map (fun p => tensor_int (self_time_ns (snd p))) event_list in
  let idle_time := map (fun p => tensor_fraction_idle_time (snd p)) event_list in
  let normalized_gain := standardize idle_time in
  let normalized_self := standardize self_time in
  zip_with (fun g s => fadd g (fmul_0_6 s)) normalized_gain normalized_self.

(** [sorted(zip(scores, events), key=lambda x: x[0], reverse=True)]: stable,
    descending. *)
Fixpoint insert_desc {A : Type} (x : float32 * A) (l : list (float32 * A))
    : list (float32 * A) :=
  match l with
  | [] => [x]
  | y :: l' => if flt (fst x) (fst y) then y :: insert_desc x l' else x :: y :: l'
  end.

Definition sorted_reverse {A : Type} (l : list (float32 * A))
    : list (float32 * A) :=
  foldr insert_desc [] l.

Definition rank_events (self : BasicEvaluation) (length_ : Z) : list Event :=
  let event_list := survivors self in
  match event_list with
  | [] => []
  | _ :: _ =>
      let scored := zip (heuristic_score_list event_list) (map fst event_list) in
      slice_to (map snd (sorted_reverse scored)) length_
  end.

End RankEvents.

(** ** get_optimizable_events *)

(** What the report takes from outside this module: [str(event)] of an
    [EventKey], [source_code_location] of [torch.profiler._utils], and the
    text of [fraction_idle_time * 100] under the format [.2f]. *)
Class Report : Type := mkReport {
  event_str : Event -> string;
  source_code_location : Event -> string;
  idle_percentage_2f : EventMetrics -> string
}.

Definition newline : string := String (Ascii.ascii_of_nat 10) EmptyString.

(** [s * n] *)
Fixpoint string_times (s : string) (n : nat) : string :=
  match n with
  | O => EmptyString
  | S n' => s +:+ string_times s n'
  end.

(** [sep.join(l)] *)
Fixpoint join (sep : string) (l : list string) : string :=
  match l with
  | [] => EmptyString
  | [x] => x
  | x :: l' => x +:+ sep +:+ join sep l'
  end.

Section GetOptimizableEvents.

Context {defaults : Defaults} {torch : Float32} {report : Report}.

(** The f-string of one event. *)
Definition event_block (event : Event) (r : EventMetrics) : string :=
  string_times "-" 80 +:+ newline
  +:+ "Event:                " +:+ event_str event +:+ newline
  +:+ "Source code location: " +:+ source_code_location event +:+ newline
  +:+ "Percentage idle time: " +:+ idle_percentage_2f r +:+ "%" +:+ newline
  +:+ string_times "-" 80.

(** The list comprehension: one block per event, each with a lookup in
    [self.metrics]. *)
Fixpoint event_blocks (metrics : Metrics) (event_list : list Event)
    : result (list string) :=
  match event_list with
  | [] => Ok []
  | event :: rest =>
      match metrics_get event metrics with
      | None => Raise (KeyError (id event))
      | Some r =>
          blocks ← event_blocks metrics rest;
          Ok (event_block event r :: blocks)
      end
  end.

(** Returns the list the method returns and the text it prints, if any. *)
Definition get_optimizable_events (self : BasicEvaluation) (length_ : Z)
    (print_enable : bool) : result (list Event * option string) :=
  let event_list := rank_events self length_ in
  if negb print_enable then Ok (event_list, None)
  else
    let header :=
      match event_list with
      | _ :: _ => "Optimizable events:" +:+ newline
      | [] => "No events to optimize" +:+ newline
      end in
    blocks ← event_blocks (self_metrics self) event_list;
    Ok (event_list, Some (header +:+ join newline blocks)).

End GetOptimizableEvents.

(** ** The event-tree walker *)

(** The two ways [next_fn] takes an element off the deque. *)
Inductive NextFn : Type :=
| pop
| popleft.

(** [next_fn(remaining)]: the element taken and the deque left, the deque
    being written with its left end first. *)
Definition take_next (next_fn : NextFn) (remaining : list Event)
    : option (Event * list Event) :=
  match next_fn with
  | popleft =>
      match remaining with
      | [] => None
      | x :: rest => Some (x, rest)
      end
  | pop =>
      match rev remaining with
      | [] => None
      | x :: rest => Some (x, rev rest)
      end
  end.

(** [order = reversed if reverse else lambda x: x] *)
Definition order (reverse : bool) (l : list Event) : list Event :=
  if reverse then rev l else l.

(** The [while remaining] loop of the generator, as the list of the events
    it yields; [budget] bounds the number of rounds. *)
Fixpoint traverse_loop (budget : nat) (next_fn : NextFn)
    (children_fn : Event -> list Event) (reverse : bool)
    (remaining : list Event) : list Event :=
  match budget with
  | O => []
  | S budget' =>
      match take_next next_fn remaining with
      | None => []
      | Some (curr_event, rest) =>
          curr_event
          :: traverse_loop budget' next_fn children_fn reverse
               (rest ++ order reverse (children_fn curr_event))
      end
  end.

Definition _traverse (budget : nat) (tree : list Event) (next_fn : NextFn)
    (children_fn : Event -> list Event) (reverse : bool) : list Event :=
  traverse_loop budget next_fn children_fn reverse (order reverse tree).

(** [functools.partial(_traverse, next_fn=lambda x: x.pop(), reverse=True)]
    and its breadth-first twin, with the default [children_fn]; a tree of
    [forest_size tree] nodes needs that many rounds. *)
Definition traverse_dfs (tree : list Event) : list Event :=
  _traverse (forest_size tree) tree pop children true.

Definition traverse_bfs (tree : list Event) : list Event :=
  _traverse (forest_size tree) tree popleft children false.

(** ** Notions used to state the properties *)

Definition Zsum (l : list Z) : Z := foldr Z.add 0 l.

(** A node and all of its descendants. *)
Fixpoint subtree (e : Event) : list Event :=
  e :: concat (map subtree (children e)).

Definition forest_nodes (roots : list Event) : list Event :=
  concat (map subtree roots).

(** The order in which the stack loop pops the nodes below [e]: the last
    child first. *)
Fixpoint visit (e : Event) : list Event :=
  e :: concat (rev (map visit (children e))).

Definition visit_stack (stack : list Event) : list Event :=
  concat (map visit stack).

(** A forest is well formed when no identity is counted twice. *)
Definition well_formed_forest (roots : list Event) : Prop :=
  NoDup (map id (forest_nodes roots)).

Definition children_duration (e : Event) : Z :=
  Zsum (map duration_time_ns (children e)).

Section SelfTimeNotions.

Context {defaults : Defaults}.

(** The record that one round of the loop leaves under [EventKey(e)]. *)
Definition entry_of (e : Event) : EventMetrics :=
  set_duration_time_ns (duration_time_ns e)
    (EventMetrics_of_self_time (duration_time_ns e - children_duration e)).

(** The loop seen as one pass over the visiting order. *)
Fixpoint record_all (order : list Event) (m : Metrics) : result Metrics :=
  match order with
  | [] => Ok m
  | e :: rest =>
      if metrics_mem e m then Raise (DuplicateId (id e) (name e))
      else record_all rest (m ++ [(e, entry_of e)])
  end.

End SelfTimeNotions.

Definition recorded_self_time (m : Metrics) (e : Event) : Z :=
  from_option self_time_ns 0 (metrics_get e m).

(** A device record that is a launch and not a kernel, and one that is a
    kernel and not a launch; the two tests do not look at the identity. *)
Definition launch_record (e : Kineto.t) : Prop :=
  is_mlu_launch_kernel (0%nat, e) = true /\ is_mlu_kernel (0%nat, e) = false.

Definition kernel_record (e : Kineto.t) : Prop :=
  is_mlu_kernel (0%nat, e) = true /\ is_mlu_launch_kernel (0%nat, e) = false.

(** The record of [e] exists and holds a depth that is not negative. *)
Definition depth_recorded (m : Metrics) (e : Event) : Prop :=
  exists r, metrics_get e m = Some r /\ 0 <= queue_depth_m r.

(** The metrics after the sweep stored the depth [d] for every event of
    [seg], one after the other. *)
Definition write_depth (d : Z) (seg : list Event) (m : Metrics) : Metrics :=
  fold_left (fun m e => metrics_alter (set_queue_depth d) e m) seg m.

(** [t] lies in the half-open span of [i]. *)
Definition in_interval (i : Interval) (t : Z) : Prop :=
  start i <= t < end_ i.

(** One of the two spans ends before the other starts. *)
Definition separated (a b : Interval) : Prop :=
  end_ a <= start b \/ end_ b <= start a.

(** No instant lies in two intervals that stand at different places of the
    list. *)
Definition pairwise_disjoint (l : list Interval) : Prop :=
  forall (i j : nat) (a b : Interval) (t : Z),
    i <> j -> l !! i = Some a -> l !! j = Some b ->
    ~ (in_interval a t /\ in_interval b t).

(** The observed device-timeline range: from the start of the first
    queue-depth interval to the end of the last one. *)
Definition in_device_range (queue_depth_list : list Interval) (t : Z) : Prop :=
  match queue_depth_list with
  | [] => False
  | q0 :: _ => start q0 <= t < end_ (default q0 (last queue_depth_list))
  end.

(** [t] lies in a span where the queue depth is greater than 0: at or after
    the start of an interval of positive depth, and before the end of that
    interval or before the start of the interval that follows it. *)
Definition in_busy_span (queue_depth_list : list Interval) (t : Z) : Prop :=
  exists (k : nat) (a : Interval),
    queue_depth_list !! k = Some a
    /\ 0 < queue_depth a
    /\ start a <= t
    /\ (t < end_ a
        \/ exists b, queue_depth_list !! S k = Some b /\ t < start b).

Definition in_idle (idle_intervals : list Interval) (t : Z) : Prop :=
  exists i, i ∈ idle_intervals /\ in_interval i t.

Section IdleNotions.

Context {defaults : Defaults}.

(** The intervals that the scan adds to the two boundary intervals. *)
Definition scan_intervals (queue_depth_list : list Interval) : list Interval :=
  idle_intervals
    (idle_scan queue_depth_list
       {| idle := false; idle_start := 0; idle_intervals := [] |}).

(** The scan as the specification words it: a run of depth 0 opens at the
    start of its first interval and gives one interval up to the start of
    the next interval of positive depth.  [run_start] is the start of the
    run being read, if any. *)
Fixpoint idle_runs_from_start (queue_depth_list : list Interval)
    (run_start : option Z) : list Interval :=
  match queue_depth_list with
  | [] => []
  | data_point :: rest =>
      if queue_depth data_point =? 0
      then idle_runs_from_start rest
             (Some (default (start data_point) run_start))
      else if 0 <? queue_depth data_point
      then match run_start with
           | Some a => Interval2 a (start data_point)
                       :: idle_runs_from_start rest None
           | None => idle_runs_from_start rest None
           end
      else idle_runs_from_start rest run_start
  end.

End IdleNotions.

(** What the scan keeps true of the intervals found so far: each ends
    before the next one starts, all lie between [base] and [lo], and an open
    idle stretch starts after all of them. *)
Definition scan_invariant (base lo : Z) (s : IdleScan) : Prop :=
  ForallOrdPairs (fun a b => end_ a <= start b) (idle_intervals s)
  /\ Forall (fun i => base <= start i /\ end_ i <= lo) (idle_intervals s)
  /\ (idle s = true ->
      base <= idle_start s
      /\ Forall (fun i => end_ i <= idle_start s) (idle_intervals s)).

(** The result of [rank_events] before the cut: the survivors paired with
    their scores. *)
Definition scored_survivors {defaults : Defaults} {torch : Float32} (self : BasicEvaluation)
    : list (float32 * Event) :=
  zip (heuristic_score_list (survivors self)) (map fst (survivors self)).

(** The device events of a merged sequence, in the order they stand. *)
Definition device_part (all_events : list AnyEvent) : list DevEvent :=
  omap (fun a => match a with Dev d => Some d | Cpu _ => None end) all_events.

(** The span an interval covers, and the span of a device event in
    nanoseconds. *)
Definition span_of (i : Interval) : Z * Z := (start i, end_ i).

Definition dev_span (d : DevEvent) : Z * Z :=
  (dev_start_us d * 1000, (dev_start_us d + dev_duration_us d) * 1000).

(** A record with its queue depth, or its idle time, left out. *)
Definition without_queue_depth (p : Event * EventMetrics) : Event * EventMetrics :=
  (fst p, set_queue_depth 0 (snd p)).

Definition without_idle_time (p : Event * EventMetrics) : Event * EventMetrics :=
  (fst p, set_idle_time_ns 0 (snd p)).

(** A falling interval of the reversed timeline: from the start of a peak of
    depth at least the top threshold to the start of an interval of depth at
    most the bottom threshold that stands before it. *)
Definition falling (queue_depth_list : list Interval) (qd_values : list Z)
    (d : Interval) : Prop :=
  exists i p : nat,
    (i < p < length qd_values)%nat
    /\ qd_values !!! i <= bottom_threashold
    /\ top_threashold <= qd_values !!! p
    /\ start d = start (queue_depth_list !!! p)
    /\ end_ d = start (queue_depth_list !!! i).

(** ** Concrete inputs used to run the definitions *)

(** The defaults that the dataclasses of [torch.profiler._utils] declare:
    every numeric field starts at [0]. *)
Definition torch_defaults : Defaults :=
  {| EventMetrics_default := mkEventMetrics 0 0 0 0;
     Interval_default_queue_depth := 0 |}.

(** A root of 100ns with one child of 30ns. *)
Definition child_event : Event := mkEvent 2 "aten::mm" 10 40 30 [].
Definition root_event : Event := mkEvent 1 "aten::linear" 0 100 100 [child_event].

Definition tree_profile : profile :=
  mkProfile (Some (mkKinetoResults [root_event] [])).

(** A malformed tree: the child carries the identity of the root. *)
Definition twin_event : Event := mkEvent 1 "aten::twin" 10 40 30 [].
Definition twin_profile : profile :=
  mkProfile (Some (mkKinetoResults
    [mkEvent 1 "aten::linear" 0 100 100 [twin_event]] [])).

(** A launch at 10us and its kernel at 12us, both with correlation id 1. *)
Definition launch_10 : Kineto.t := Kineto.mk "cnInvokeKernel" CPU 10 1 1.
Definition kernel_12 : Kineto.t := Kineto.mk "MLUUnionKernel" MLU 12 5 1.

(** CPU events before, between and after the two device events. *)
Definition cpu_trace : list Event :=
  [mkEvent 1 "aten::relu" 9000 9500 500 [];
   mkEvent 2 "aten::add" 10000 10400 400 [];
   mkEvent 3 "aten::mul" 11999 12100 101 [];
   mkEvent 4 "aten::sub" 12000 18000 6000 []].

Definition launch_kernel_results : KinetoResults :=
  mkKinetoResults cpu_trace [launch_10; kernel_12].

Definition launch_kernel_self : BasicEvaluation :=
  {| self_profile := mkProfile (Some launch_kernel_results);
     self_metrics := map (fun e => (e, mkEventMetrics (duration_time_ns e)
                                          (duration_time_ns e) 0 0)) cpu_trace;
     self_event_keys := cpu_trace;
     self_events := cpu_trace;
     self_mlu_events := [];
     self_queue_depth_list := [] |}.

(** A launch whose correlation id has no kernel. *)
Definition stray_launch : Kineto.t := Kineto.mk "cnInvokeKernel" CPU 10 1 7.
Definition stray_results : KinetoResults :=
  mkKinetoResults [] [stray_launch; kernel_12].

(** Two launches, each followed by its kernel: the first kernel runs from
    12us to 17us and the second launch comes at 20us. *)
Definition launch_20 : Kineto.t := Kineto.mk "cnInvokeKernel" CPU 20 1 2.
Definition kernel_22 : Kineto.t := Kineto.mk "MLUUnionKernel" MLU 22 5 2.

Definition two_kernel_profile : profile :=
  mkProfile (Some (mkKinetoResults
    [mkEvent 1 "aten::linear" 9000 30000 21000 []]
    [launch_10; kernel_12; launch_20; kernel_22])).

Definition launch_kernel_profile : profile :=
  mkProfile (Some (mkKinetoResults
    [mkEvent 1 "aten::linear" 9000 18000 9000 []]
    [launch_10; kernel_12])).

(** A reference implementation of the tensor arithmetic, used to run
    [rank_events] on examples: IEEE binary32 with round to nearest even,
    sums taken from left to right, and the sample standard deviation. *)
Module Binary32.

Definition prec : Z := 24.
Definition emax : Z := 128.

Definition of_Z (z : Z) : SpecFloat.spec_float :=
  SpecFloat.binary_normalize prec emax z 0 false.

Definition add := SpecFloat.SFadd prec emax.
Definition sub := SpecFloat.SFsub prec emax.
Definition mul := SpecFloat.SFmul prec emax.
Definition div := SpecFloat.SFdiv prec emax.
Definition sqrt := SpecFloat.SFsqrt prec emax.

Definition sum (l : list SpecFloat.spec_float) : SpecFloat.spec_float :=
  fold_left add l (of_Z 0).

Definition mean (l : list SpecFloat.spec_float) : SpecFloat.spec_float :=
  div (sum l) (of_Z (Z.of_nat (length l))).

Definition std (l : list SpecFloat.spec_float) : SpecFloat.spec_float :=
  let m := mean l in
  sqrt (div (sum (map (fun x => mul (sub x m) (sub x m)) l))
            (of_Z (Z.of_nat (length l) - 1))).

(** [idle_time_ns / duration_time_ns], and [0.0] for a duration of 0. *)
Definition fraction_idle_time (r : EventMetrics) : SpecFloat.spec_float :=
  if duration_time_ns_m r =? 0 then of_Z 0
  else div (of_Z (idle_time_ns r)) (of_Z (duration_time_ns_m r)).

Definition ops : Float32 :=
  {| float32 := SpecFloat.spec_float;
     tensor_int := of_Z;
     tensor_fraction_idle_time := fraction_idle_time;
     torch_mean := mean;
     torch_std := std;
     fsub := sub;
     fdiv := div;
     fadd := add;
     fmul_0_6 := mul (div (of_Z 6) (of_Z 10));
     flt := SpecFloat.SFltb |}.

End Binary32.

(** Four launches queued before their kernels start: the depth climbs to 4
    and falls back to 0. *)
Definition burst_events : list Kineto.t :=
  [Kineto.mk "cnInvokeKernel" CPU 10 1 1;
   Kineto.mk "cnInvokeKernel" CPU 11 1 2;
   Kineto.mk "cnInvokeKernel" CPU 12 1 3;
   Kineto.mk "cnInvokeKernel" CPU 13 1 4;
   Kineto.mk "MLUUnionKernel" MLU 20 5 1;
   Kineto.mk "MLUUnionKernel" MLU 30 5 2;
   Kineto.mk "MLUUnionKernel" MLU 40 5 3;
   Kineto.mk "MLUUnionKernel" MLU 50 5 4].

(** One CPU event over the whole burst. *)
Definition lone_event : Event := mkEvent 1 "aten::linear" 9000 60000 51000 [].

Definition lone_profile : profile :=
  mkProfile (Some (mkKinetoResults [lone_event] burst_events)).

(** A root with a child inside the falling edge and a child after it. *)
Definition inner_event : Event := mkEvent 2 "aten::mm" 14000 20000 6000 [].
Definition late_event : Event := mkEvent 3 "aten::add" 56000 65000 9000 [].
Definition outer_event : Event :=
  mkEvent 1 "aten::linear" 9000 70000 61000 [inner_event; late_event].

Definition family_profile : profile :=
  mkProfile (Some (mkKinetoResults [outer_event] burst_events)).

(** The object [__init__] builds, or an empty one if it aborts. *)
Definition evaluation_of (prof : profile) : BasicEvaluation :=
  match BasicEvaluation_init (defaults := torch_defaults) prof with
  | Ok self => self
  | Raise _ => mkBasicEvaluation prof [] [] [] [] []
  end.

(** Closes [NoDup] of a list of numerals. *)
Ltac solve_NoDup :=
  repeat (apply NoDup_cons_2; [rewrite ?elem_of_cons, elem_of_nil; lia|]);
  apply NoDup_nil_2.

(** The trace results of a profile, or empty ones. *)
Definition evaluation_results (prof : profile) : KinetoResults :=
  default (mkKinetoResults [] []) (kineto_results prof).

(** [launch_kernel_self] after [compute_queue_depth]. *)
Definition launch_kernel_swept : BasicEvaluation :=
  {| self_profile := mkProfile (Some launch_kernel_results);
     self_metrics :=
       [(mkEvent 1 "aten::relu" 9000 9500 500 [], mkEventMetrics 500 500 0 0);
        (mkEvent 2 "aten::add" 10000 10400 400 [], mkEventMetrics 400 400 0 1);
        (mkEvent 3 "aten::mul" 11999 12100 101 [], mkEventMetrics 101 101 0 1);
        (mkEvent 4 "aten::sub" 12000 18000 6000 [], mkEventMetrics 6000 6000 0 0)];
     self_event_keys := cpu_trace;
     self_events := cpu_trace;
     self_mlu_events := [(0%nat, launch_10); (1%nat, kernel_12)];
     self_queue_depth_list := [] |}.

(** A report that shows the name of an event and leaves the two texts
    taken from outside empty. *)
Definition name_report : Report :=
  {| event_str := name;
     source_code_location := fun _ => EmptyString;
     idle_percentage_2f := fun _ => EmptyString |}.

(** * Properties *)

(** ** The event tree *)

Lemma Event_tree_ind (P : Event -> Prop) :
  (forall e, Forall P (children e) -> P e) -> forall e, P e.
Proof.
  intros step. fix rec 1. intros [i n s e d cs]. apply step. simpl.
  induction cs as [|c cs IH]; constructor; [apply rec | exact IH].
Qed.

Lemma subtree_unfold e : subtree e = e :: concat (map subtree (children e)).
Proof. destruct e; reflexivity. Qed.

Lemma visit_unfold e : visit e = e :: concat (rev (map visit (children e))).
Proof. destruct e; reflexivity. Qed.

Lemma event_size_unfold e :
  event_size e = S (list_sum (map event_size (children e))).
Proof. destruct e; reflexivity. Qed.

Lemma forest_size_app l1 l2 :
  forest_size (l1 ++ l2) = (forest_size l1 + forest_size l2)%nat.
Proof. unfold forest_size. rewrite map_app, list_sum_app. reflexivity. Qed.

Lemma forest_size_rev l : forest_size (rev l) = forest_size l.
Proof.
  induction l as [|x l IH]; [reflexivity|]. simpl rev.
  rewrite forest_size_app, IH. unfold forest_size. simpl. lia.
Qed.

Lemma concat_rev_perm {A} (ls : list (list A)) : concat (rev ls) ≡ₚ concat ls.
Proof.
  induction ls as [|l ls IH]; [reflexivity|]. simpl.
  rewrite concat_app. simpl. rewrite app_nil_r, IH. apply Permutation_app_comm.
Qed.

Lemma visit_perm_subtree e : visit e ≡ₚ subtree e.
Proof.
  induction e as [e IH] using Event_tree_ind.
  rewrite visit_unfold, subtree_unfold. constructor.
  rewrite concat_rev_perm.
  induction IH as [|c cs Hc _ IHcs]; [reflexivity|].
  simpl. rewrite Hc, IHcs. reflexivity.
Qed.

Lemma visit_stack_perm roots : visit_stack (rev roots) ≡ₚ forest_nodes roots.
Proof.
  unfold visit_stack, forest_nodes. rewrite map_rev, concat_rev_perm.
  induction roots as [|r roots IH]; [reflexivity|].
  simpl. rewrite visit_perm_subtree, IH. reflexivity.
Qed.

Lemma elem_of_concat_map {A B} (f : A -> list B) (l : list A) (x : B) :
  x ∈ concat (map f l) <-> exists a, a ∈ l /\ x ∈ f a.
Proof.
  induction l as [|a l IH]; simpl.
  - split; [intros Hx; inversion Hx | intros (a & Ha & _); inversion Ha].
  - rewrite elem_of_app, IH. split.
    + intros [Hx|(b & Hb & Hx)]; [exists a | exists b]; split; auto; by constructor.
    + intros (b & Hb & Hx). apply elem_of_cons in Hb as [->|Hb]; eauto.
Qed.

Lemma subtree_self e : e ∈ subtree e.
Proof. rewrite subtree_unfold. left. Qed.

Lemma subtree_trans e : forall n, n ∈ subtree e -> subtree n ⊆ subtree e.
Proof.
  induction e as [e IH] using Event_tree_ind. intros n Hn.
  rewrite subtree_unfold in Hn. apply elem_of_cons in Hn as [->|Hn]; [done|].
  intros x Hx. rewrite subtree_unfold. right.
  apply elem_of_concat_map in Hn as (c & Hc & Hn).
  apply elem_of_concat_map. exists c. split; [done|].
  rewrite Forall_forall in IH. eapply IH; eauto.
Qed.

Lemma forest_nodes_subtree roots n :
  n ∈ forest_nodes roots -> subtree n ⊆ forest_nodes roots.
Proof.
  unfold forest_nodes. intros Hn x Hx.
  apply elem_of_concat_map in Hn as (r & Hr & Hn).
  apply elem_of_concat_map. exists r. split; [done|].
  eapply subtree_trans; eauto.
Qed.

(** The self times recorded below a node telescope to its duration. *)
Lemma subtree_self_time_sum e :
  Zsum (map (fun d => duration_time_ns d - children_duration d) (subtree e))
  = duration_time_ns e.
Proof.
  induction e as [e IH] using Event_tree_ind.
  rewrite subtree_unfold. simpl. unfold children_duration at 1.
  assert (Zsum (map (fun d => duration_time_ns d - children_duration d)
                    (concat (map subtree (children e))))
          = Zsum (map duration_time_ns (children e))) as ->; [|lia].
  induction IH as [|c cs Hc _ IHcs]; [reflexivity|].
  simpl. rewrite map_app. unfold Zsum in *. rewrite foldr_app.
  rewrite <- IHcs. rewrite <- Hc.
  generalize (map (fun d => duration_time_ns d - children_duration d) (subtree c)).
  intros l. induction l as [|z l IHl]; simpl; [reflexivity|]. rewrite IHl. lia.
Qed.

(** ** The metrics dictionary *)

Lemma same_key_refl e r : same_key e (e, r) = true.
Proof. unfold same_key. simpl. apply Z.eqb_refl. Qed.

Lemma metrics_mem_app e m1 m2 :
  metrics_mem e (m1 ++ m2) = metrics_mem e m1 || metrics_mem e m2.
Proof. unfold metrics_mem. apply existsb_app. Qed.

Lemma metrics_mem_true e m :
  metrics_mem e m = true <-> id e ∈ map id (metrics_keys m).
Proof.
  unfold metrics_mem, metrics_keys, same_key. induction m as [|p m IH]; simpl.
  - split; [discriminate | intros Hx; inversion Hx].
  - rewrite orb_true_iff, IH, elem_of_cons, Z.eqb_eq. intuition congruence.
Qed.

Lemma metrics_mem_false e m :
  metrics_mem e m = false <-> id e ∉ map id (metrics_keys m).
Proof.
  rewrite <- metrics_mem_true. destruct (metrics_mem e m); intuition congruence.
Qed.

Lemma metrics_alter_absent f e m :
  metrics_mem e m = false -> metrics_alter f e m = m.
Proof.
  unfold metrics_mem. induction m as [|p m IH]; simpl; [done|].
  intros Hm. apply orb_false_iff in Hm as [-> Hm]. by rewrite IH.
Qed.

Lemma metrics_alter_app f e m1 m2 :
  metrics_mem e m1 = false ->
  metrics_alter f e (m1 ++ m2) = m1 ++ metrics_alter f e m2.
Proof.
  unfold metrics_mem. induction m1 as [|p m IH]; simpl; [done|].
  intros Hm. apply orb_false_iff in Hm as [-> Hm]. by rewrite IH.
Qed.

Lemma metrics_get_app_absent e m1 m2 :
  metrics_mem e m1 = false -> metrics_get e (m1 ++ m2) = metrics_get e m2.
Proof.
  unfold metrics_mem, metrics_get. induction m1 as [|p m IH]; simpl; [done|].
  intros Hm. apply orb_false_iff in Hm as [-> Hm]. by apply IH.
Qed.

Lemma metrics_get_app_present e m1 m2 :
  metrics_mem e m1 = true -> metrics_get e (m1 ++ m2) = metrics_get e m1.
Proof.
  unfold metrics_mem, metrics_get. induction m1 as [|p m IH]; simpl; [done|].
  destruct (same_key e p); simpl; [done|]. apply IH.
Qed.

(** ** compute_self_time as one pass over the visiting order *)

Section SelfTimeFacts.

Context {defaults : Defaults}.

Lemma scan_children_spec cs self_time stack :
  scan_children cs self_time stack
  = (self_time - Zsum (map duration_time_ns cs), rev cs ++ stack).
Proof.
  unfold scan_children. revert self_time stack.
  induction cs as [|c cs IH]; intros st stack; simpl.
  - f_equal. lia.
  - rewrite IH. simpl. rewrite <- app_assoc. f_equal. lia.
Qed.

Lemma record_round e m :
  metrics_mem e m = false ->
  metrics_alter (set_duration_time_ns (duration_time_ns e)) e
    (metrics_set e
       (EventMetrics_of_self_time (duration_time_ns e - children_duration e)) m)
  = m ++ [(e, entry_of e)].
Proof.
  intros Hm. unfold metrics_set. rewrite Hm.
  rewrite metrics_alter_app by done. simpl. by rewrite same_key_refl.
Qed.

Lemma self_time_loop_spec budget : forall stack m,
  (forest_size stack <= budget)%nat ->
  self_time_loop budget stack m = record_all (visit_stack stack) m.
Proof.
  induction budget as [|budget IH]; intros [|curr rest] m Hsize; try reflexivity.
  - unfold forest_size in Hsize. simpl in Hsize.
    rewrite event_size_unfold in Hsize. lia.
  - unfold visit_stack. simpl. rewrite visit_unfold. simpl.
    rewrite scan_children_spec.
    destruct (metrics_mem curr m) eqn:Hm; [reflexivity|].
    fold (children_duration curr). rewrite record_round by done.
    rewrite IH.
    + unfold visit_stack. rewrite map_app, concat_app, map_rev. reflexivity.
    + unfold forest_size in Hsize. simpl in Hsize.
      rewrite event_size_unfold in Hsize.
      rewrite forest_size_app, forest_size_rev. unfold forest_size. lia.
Qed.

Lemma compute_self_time_spec prof kr m :
  kineto_results prof = Some kr ->
  compute_self_time prof m
  = record_all (visit_stack (rev (experimental_event_tree kr))) m.
Proof.
  intros Hkr. unfold compute_self_time. rewrite Hkr.
  by apply self_time_loop_spec.
Qed.

(** A pass that ends normally has appended one record per visited node, the
    identities being new and pairwise distinct. *)
Lemma record_all_ok order : forall m m',
  record_all order m = Ok m' ->
  m' = m ++ map (fun e => (e, entry_of e)) order
  /\ NoDup (map id order)
  /\ (forall e, e ∈ order -> metrics_mem e m = false).
Proof.
  induction order as [|e order IH]; intros m m' Hrun; simpl in *.
  - inversion Hrun. rewrite app_nil_r. repeat split; [constructor|].
    intros e He. inversion He.
  - destruct (metrics_mem e m) eqn:Hm; [discriminate|].
    apply IH in Hrun as (-> & Hnd & Hfresh).
    rewrite <- app_assoc. split; [done|]. split.
    + constructor; [|done]. intros Hin.
      apply list_elem_of_fmap in Hin as (e' & Hid & He').
      specialize (Hfresh e' He'). rewrite metrics_mem_app in Hfresh.
      apply orb_false_iff in Hfresh as [_ Hfresh].
      unfold metrics_mem, same_key in Hfresh. simpl in Hfresh.
      rewrite orb_false_r in Hfresh. apply Z.eqb_neq in Hfresh. congruence.
    + intros e' He'. apply elem_of_cons in He' as [->|He']; [done|].
      specialize (Hfresh e' He'). rewrite metrics_mem_app in Hfresh.
      by apply orb_false_iff in Hfresh as [? _].
Qed.

Lemma record_all_fresh order : forall m,
  NoDup (map id order) ->
  (forall e, e ∈ order -> metrics_mem e m = false) ->
  record_all order m = Ok (m ++ map (fun e => (e, entry_of e)) order).
Proof.
  induction order as [|e order IH]; intros m Hnd Hfresh; simpl.
  - by rewrite app_nil_r.
  - rewrite Hfresh by left. inversion Hnd as [|? ? Hnotin Hnd']; subst.
    rewrite IH; [by rewrite <- app_assoc | done |].
    intros e' He'. rewrite metrics_mem_app, Hfresh by (by right). simpl.
    unfold metrics_mem, same_key. simpl. rewrite orb_false_r.
    apply Z.eqb_neq. intros Heq. apply Hnotin. rewrite Heq.
    by apply list_elem_of_fmap_2.
Qed.

(** The first event whose identity is already known stops the pass. *)
Lemma record_all_duplicate pre e post m :
  NoDup (map id (metrics_keys m ++ pre)) ->
  id e ∈ map id (metrics_keys m ++ pre) ->
  record_all (pre ++ e :: post) m = Raise (DuplicateId (id e) (name e)).
Proof.
  revert m. induction pre as [|p pre IH]; intros m Hnd Hin; simpl.
  - rewrite app_nil_r in Hin. apply metrics_mem_true in Hin. by rewrite Hin.
  - assert (metrics_mem p m = false) as Hp.
    { apply metrics_mem_false. rewrite map_app in Hnd.
      apply NoDup_app in Hnd as (_ & Hdisj & _). intros Hpm.
      apply (Hdisj _ Hpm). simpl. left. }
    rewrite Hp. apply IH.
    + unfold metrics_keys in *. rewrite !map_app in *. simpl in *.
      rewrite <- app_assoc. exact Hnd.
    + unfold metrics_keys in *. rewrite !map_app in *. simpl in *.
      rewrite <- app_assoc. exact Hin.
Qed.

Lemma metrics_get_recorded order : forall m e,
  NoDup (map id order) ->
  metrics_mem e m = false ->
  e ∈ order ->
  metrics_get e (m ++ map (fun e => (e, entry_of e)) order) = Some (entry_of e).
Proof.
  intros m e Hnd Hm He. rewrite metrics_get_app_absent by done. clear m Hm.
  induction order as [|x order IH]; [inversion He|].
  inversion Hnd as [|? ? Hnotin Hnd']; subst.
  apply elem_of_cons in He as [<-|He].
  - unfold metrics_get. simpl. by rewrite same_key_refl.
  - unfold metrics_get. simpl. unfold same_key at 1. simpl.
    destruct (id x =? id e) eqn:Hid.
    + apply Z.eqb_eq in Hid. exfalso. apply Hnotin. rewrite Hid.
      by apply list_elem_of_fmap_2.
    + by apply IH.
Qed.

End SelfTimeFacts.

Lemma first_duplicate {A} (f : A -> Z) (l : list A) :
  ~ NoDup (map f l) ->
  exists pre e post,
    l = pre ++ e :: post /\ NoDup (map f pre) /\ f e ∈ map f pre.
Proof.
  induction l as [|x l IH] using rev_ind; intros Hdup.
  - exfalso. apply Hdup. constructor.
  - destruct (decide (NoDup (map f l))) as [Hnd|Hnd].
    + exists l, x, []. repeat split; [done|].
      destruct (decide (f x ∈ map f l)) as [Hin|Hin]; [done|].
      exfalso. apply Hdup. rewrite map_app. apply NoDup_app. repeat split.
      * done.
      * intros y Hy Hy'. apply list_elem_of_singleton in Hy'. by subst.
      * apply NoDup_singleton.
    + destruct (IH Hnd) as (pre & e & post & -> & Hpre & He).
      exists pre, e, (post ++ [x]). by rewrite <- app_assoc.
Qed.

(** ** The claims about compute_self_time *)

(** C1: on a well-formed event tree (no identity counted twice)
    [compute_self_time] ends normally, records for every event its duration
    minus the sum of the durations of its direct children, and the recorded
    self times of a node and all of its descendants add up to the duration
    of that node. *)
Theorem compute_self_time_sums_to_duration {defaults : Defaults}
    (prof : profile) (kr : KinetoResults) :
  kineto_results prof = Some kr ->
  well_formed_forest (experimental_event_tree kr) ->
  exists m,
    compute_self_time prof [] = Ok m
    /\ forall n, n ∈ forest_nodes (experimental_event_tree kr) ->
         recorded_self_time m n = duration_time_ns n - children_duration n
         /\ Forall (fun d => is_Some (metrics_get d m)) (subtree n)
         /\ Zsum (map (recorded_self_time m) (subtree n)) = duration_time_ns n.
Proof.
  intros Hkr Hwf. set (roots := experimental_event_tree kr) in *.
  assert (NoDup (map id (visit_stack (rev roots)))) as Hnd.
  { unfold well_formed_forest in Hwf. by rewrite visit_stack_perm. }
  eexists. split.
  { rewrite (compute_self_time_spec _ _ _ Hkr). by apply record_all_fresh. }
  simpl.
  assert (forall d, d ∈ forest_nodes roots ->
            metrics_get d (map (fun e => (e, entry_of e)) (visit_stack (rev roots)))
            = Some (entry_of d)) as Hget.
  { intros d Hd. apply (metrics_get_recorded _ [] d); [done..|].
    by rewrite visit_stack_perm. }
  assert (forall d, d ∈ forest_nodes roots ->
            recorded_self_time
              (map (fun e => (e, entry_of e)) (visit_stack (rev roots))) d
            = duration_time_ns d - children_duration d) as Hself.
  { intros d Hd. unfold recorded_self_time. by rewrite Hget. }
  intros n Hn. split; [by apply Hself|]. split.
  - apply Forall_forall. intros d Hd. rewrite Hget; [by eexists|].
    eapply forest_nodes_subtree; eauto.
  - rewrite <- (subtree_self_time_sum n). f_equal.
    apply map_ext_in. intros d Hd. apply Hself.
    eapply forest_nodes_subtree; eauto. by apply list_elem_of_In.
Qed.

Lemma compute_self_time_sums_to_duration_witness :
  exists m,
    compute_self_time (defaults := torch_defaults) tree_profile [] = Ok m
    /\ forall n, n ∈ forest_nodes [root_event] ->
         recorded_self_time m n = duration_time_ns n - children_duration n
         /\ Forall (fun d => is_Some (metrics_get d m)) (subtree n)
         /\ Zsum (map (recorded_self_time m) (subtree n)) = duration_time_ns n.
Proof.
  apply (@compute_self_time_sums_to_duration torch_defaults tree_profile
           (mkKinetoResults [root_event] [])).
  - reflexivity.
  - unfold well_formed_forest. vm_compute. solve_NoDup.
Defined.

(** The scenario of the specification: the root keeps 70ns for itself. *)
Example root_self_time_is_70 :
  recorded_self_time
    (match compute_self_time (defaults := torch_defaults) tree_profile [] with
     | Ok m => m
     | Raise _ => []
     end) root_event = 70.
Proof. reflexivity. Qed.

(** C9: when the traversal meets an identity for the second time,
    [compute_self_time] stops with the assertion message built from the id
    and the name of that event; when it ends normally, the keys of the
    metrics are exactly the events of the tree, each identity once. *)
Theorem compute_self_time_duplicate_aborts {defaults : Defaults}
    (prof : profile) (kr : KinetoResults) :
  kineto_results prof = Some kr ->
  (~ well_formed_forest (experimental_event_tree kr) ->
   exists pre e post,
     visit_stack (rev (experimental_event_tree kr)) = pre ++ e :: post
     /\ NoDup (map id pre)
     /\ id e ∈ map id pre
     /\ compute_self_time prof [] = Raise (DuplicateId (id e) (name e)))
  /\ (forall m,
        compute_self_time prof [] = Ok m ->
        metrics_keys m = visit_stack (rev (experimental_event_tree kr))
        /\ metrics_keys m ≡ₚ forest_nodes (experimental_event_tree kr)
        /\ NoDup (map id (metrics_keys m))).
Proof.
  intros Hkr. split.
  - intros Hwf. unfold well_formed_forest in Hwf.
    rewrite <- visit_stack_perm in Hwf.
    destruct (first_duplicate _ _ Hwf) as (pre & e & post & Hsplit & Hnd & Hin).
    exists pre, e, post. repeat split; try done.
    rewrite (compute_self_time_spec _ _ _ Hkr), Hsplit.
    by apply record_all_duplicate.
  - intros m Hrun. rewrite (compute_self_time_spec _ _ _ Hkr) in Hrun.
    apply record_all_ok in Hrun as (-> & Hnd & _). simpl.
    assert (metrics_keys (map (fun e => (e, entry_of e))
                              (visit_stack (rev (experimental_event_tree kr))))
            = visit_stack (rev (experimental_event_tree kr))) as ->.
    { unfold metrics_keys. rewrite map_map. simpl. apply map_id. }
    repeat split; [apply visit_stack_perm | done].
Qed.

Lemma compute_self_time_duplicate_aborts_witness :
  (exists pre e post,
     visit_stack (rev [mkEvent 1 "aten::linear" 0 100 100 [twin_event]])
     = pre ++ e :: post
     /\ NoDup (map id pre)
     /\ id e ∈ map id pre
     /\ compute_self_time (defaults := torch_defaults) twin_profile []
        = Raise (DuplicateId (id e) (name e)))
  /\ (forall m,
        compute_self_time (defaults := torch_defaults) tree_profile [] = Ok m ->
        metrics_keys m = visit_stack (rev [root_event])
        /\ metrics_keys m ≡ₚ forest_nodes [root_event]
        /\ NoDup (map id (metrics_keys m))).
Proof.
  split.
  - apply (proj1 (@compute_self_time_duplicate_aborts torch_defaults
                    twin_profile _ eq_refl)).
    unfold well_formed_forest. vm_compute. intros Hnd.
    apply NoDup_cons_1_1 in Hnd. apply Hnd. left.
  - apply (proj2 (@compute_self_time_duplicate_aborts torch_defaults
                    tree_profile _ eq_refl)).
Defined.

(** The malformed tree stops at the second event, which is named. *)
Example twin_profile_aborts :
  compute_self_time (defaults := torch_defaults) twin_profile []
  = Raise (DuplicateId 1 "aten::twin").
Proof. reflexivity. Qed.

(** C10: a normal run of [compute_self_time] leaves the records that were
    already stored as they are and appends new ones, in which only
    [self_time_ns] and [duration_time_ns] are written: [idle_time_ns] and
    [queue_depth] hold the defaults of the dataclass. *)
Theorem compute_self_time_frame {defaults : Defaults}
    (prof : profile) (m m' : Metrics) :
  compute_self_time prof m = Ok m' ->
  exists new,
    m' = m ++ new
    /\ Forall (fun p =>
                idle_time_ns (snd p) = idle_time_ns EventMetrics_default
                /\ queue_depth_m (snd p) = queue_depth_m EventMetrics_default
                /\ self_time_ns (snd p)
                   = duration_time_ns (fst p) - children_duration (fst p)
                /\ duration_time_ns_m (snd p) = duration_time_ns (fst p)) new.
Proof.
  intros Hrun. destruct (kineto_results prof) as [kr|] eqn:Hkr.
  - rewrite (compute_self_time_spec _ _ _ Hkr) in Hrun.
    apply record_all_ok in Hrun as (-> & _ & _).
    eexists. split; [reflexivity|].
    apply Forall_forall. intros p Hp.
    apply list_elem_of_fmap in Hp as (e & -> & _). by simpl.
  - unfold compute_self_time in Hrun. rewrite Hkr in Hrun. discriminate.
Qed.

Lemma compute_self_time_frame_witness :
  exists new,
    [(root_event, mkEventMetrics 100 70 0 0); (child_event, mkEventMetrics 30 30 0 0)]
    = [] ++ new
    /\ Forall (fun p =>
                idle_time_ns (snd p) = 0
                /\ queue_depth_m (snd p) = 0
                /\ self_time_ns (snd p)
                   = duration_time_ns (fst p) - children_duration (fst p)
                /\ duration_time_ns_m (snd p) = duration_time_ns (fst p)) new.
Proof.
  apply (@compute_self_time_frame torch_defaults tree_profile []).
  reflexivity.
Defined.

(** ** Builtins *)

Lemma insert_by_perm {A} (key : A -> Z) x l : insert_by key x l ≡ₚ x :: l.
Proof.
  induction l as [|y l IH]; simpl; [done|].
  destruct (key x <=? key y); [done|]. rewrite IH. apply perm_swap.
Qed.

Lemma sorted_perm {A} (key : A -> Z) l : sorted key l ≡ₚ l.
Proof.
  induction l as [|x l IH]; simpl; [done|].
  rewrite insert_by_perm. by constructor.
Qed.

Lemma insert_by_sorted {A} (key : A -> Z) x l :
  StronglySorted (fun a b => key a <= key b) l ->
  StronglySorted (fun a b => key a <= key b) (insert_by key x l).
Proof.
  induction 1 as [|y l Hl IH Hy]; simpl.
  - repeat constructor.
  - destruct (key x <=? key y) eqn:Hxy.
    + apply Z.leb_le in Hxy. constructor; [by constructor|].
      constructor; [done|]. eapply Forall_impl; [exact Hy|].
      simpl. intros z Hz. lia.
    + apply Z.leb_gt in Hxy. constructor; [done|].
      rewrite insert_by_perm. constructor; [lia | done].
Qed.

Lemma sorted_sorted {A} (key : A -> Z) l :
  StronglySorted (fun a b => key a <= key b) (sorted key l).
Proof.
  induction l as [|x l IH]; simpl; [constructor | by apply insert_by_sorted].
Qed.

Lemma insert_by_fmap {A B} (f : A -> B) (key : B -> Z) x l :
  insert_by key (f x) (map f l) = map f (insert_by (fun a => key (f a)) x l).
Proof.
  induction l as [|y l IH]; simpl; [done|].
  destruct (key (f x) <=? key (f y)); simpl; [done | by rewrite IH].
Qed.

Lemma sorted_fmap {A B} (f : A -> B) (key : B -> Z) l :
  sorted key (map f l) = map f (sorted (fun a => key (f a)) l).
Proof.
  induction l as [|x l IH]; simpl; [done|]. by rewrite IH, insert_by_fmap.
Qed.

(** Where an element lands in a list that is cut at its key. *)
Lemma insert_by_between {A} (key : A -> Z) x l1 l2 :
  Forall (fun y => key y < key x) l1 ->
  Forall (fun y => key x <= key y) l2 ->
  insert_by key x (l1 ++ l2) = l1 ++ x :: l2.
Proof.
  intros H1 H2. induction H1 as [|y l1 Hy _ IH]; simpl.
  - destruct H2 as [|y l2 Hy _]; simpl; [done|].
    apply Z.leb_le in Hy. by rewrite Hy.
  - apply Z.leb_gt in Hy. by rewrite Hy, IH.
Qed.

(** A sorted list can be cut at any threshold. *)
Lemma sorted_cut {A} (key : A -> Z) (t : Z) l :
  StronglySorted (fun a b => key a <= key b) l ->
  exists l1 l2,
    l = l1 ++ l2
    /\ Forall (fun y => key y < t) l1
    /\ Forall (fun y => t <= key y) l2.
Proof.
  induction 1 as [|y l Hl IH Hy].
  - exists [], []. repeat split; constructor.
  - destruct (decide (key y < t)) as [Hlt|Hge].
    + destruct IH as (l1 & l2 & -> & H1 & H2).
      exists (y :: l1), l2. repeat split; [by constructor | done].
    + exists [], (y :: l). repeat split; [constructor|].
      constructor; [lia|]. eapply Forall_impl; [exact Hy|].
      simpl. intros z Hz. lia.
Qed.

Lemma index_from_None {A} (predicate : A -> bool) l i :
  index_from predicate l i = None <-> Forall (fun x => predicate x = false) l.
Proof.
  revert i. induction l as [|x l IH]; intros i; simpl.
  - split; [constructor | done].
  - destruct (predicate x) eqn:Hx.
    + split; [discriminate|]. intros Hall. inversion Hall; congruence.
    + rewrite IH. split; [by constructor | by inversion 1].
Qed.

Lemma index_of_first_match_None {A} (seq : list A) predicate start :
  index_of_first_match seq predicate start = None
  <-> forall i x, (start <= i)%nat -> seq !! i = Some x -> predicate x = false.
Proof.
  unfold index_of_first_match. rewrite index_from_None, Forall_lookup. split.
  - intros Hall i x Hi Hx. apply (Hall (i - start)%nat).
    rewrite lookup_drop. by replace (start + (i - start))%nat with i by lia.
  - intros Hall i x Hx. rewrite lookup_drop in Hx. eapply Hall; [|exact Hx]. lia.
Qed.

Lemma index_from_Some {A} (predicate : A -> bool) l i j :
  index_from predicate l i = Some j ->
  (i <= j)%nat
  /\ (exists x, l !! (j - i)%nat = Some x /\ predicate x = true)
  /\ forall k x, (k < j - i)%nat -> l !! k = Some x -> predicate x = false.
Proof.
  revert i. induction l as [|y l IH]; intros i; simpl; [discriminate|].
  destruct (predicate y) eqn:Hy.
  - intros [= <-]. rewrite Nat.sub_diag. split; [lia|]. split; [eauto|].
    intros k x Hk. lia.
  - intros Hj. apply IH in Hj as (Hij & (x & Hx & Hpx) & Hfirst).
    split; [lia|]. split.
    + exists x. split; [|done].
      replace (j - i)%nat with (S (j - S i)) by lia. done.
    + intros [|k] x' Hk Hx'; simpl in Hx'; [congruence|].
      apply (Hfirst k); [lia | done].
Qed.

Lemma index_of_first_match_Some {A} (seq : list A) predicate start j :
  index_of_first_match seq predicate start = Some j ->
  (start <= j)%nat
  /\ (exists x, seq !! j = Some x /\ predicate x = true)
  /\ forall k x, (start <= k < j)%nat -> seq !! k = Some x -> predicate x = false.
Proof.
  unfold index_of_first_match. intros Hj.
  apply index_from_Some in Hj as (Hle & (x & Hx & Hpx) & Hfirst).
  rewrite lookup_drop in Hx.
  replace (start + (j - start))%nat with j in Hx by lia.
  split; [done|]. split; [eauto|].
  intros k y Hk Hy. apply (Hfirst (k - start)%nat); [lia|].
  rewrite lookup_drop. by replace (start + (k - start))%nat with k by lia.
Qed.

(** ** In-place updates of the metrics *)

Lemma metrics_mem_get e m : metrics_mem e m = true <-> is_Some (metrics_get e m).
Proof.
  unfold metrics_mem, metrics_get. induction m as [|p m IH]; simpl.
  - split; [discriminate | by intros [? ?]].
  - destruct (same_key e p); simpl; [|done]. split; [by eexists | done].
Qed.

Lemma same_key_eq e e' p : id e = id e' -> same_key e p = same_key e' p.
Proof. unfold same_key. by intros ->. Qed.

Lemma metrics_get_alter f e e' m :
  metrics_get e (metrics_alter f e' m)
  = if id e' =? id e then f <$> metrics_get e m else metrics_get e m.
Proof.
  unfold metrics_get. induction m as [|p m IH]; simpl.
  - by destruct (id e' =? id e).
  - assert (same_key e p = true -> same_key e' p = true -> (id e' =? id e) = true)
      as Hboth.
    { unfold same_key. rewrite !Z.eqb_eq. congruence. }
    assert ((id e' =? id e) = true -> same_key e p = same_key e' p) as Hsame.
    { rewrite Z.eqb_eq. intros Hid. by apply same_key_eq. }
    destruct (same_key e' p) eqn:He'; simpl.
    + change (same_key e (fst p, f (snd p))) with (same_key e p).
      destruct (id e' =? id e) eqn:Hid.
      * by rewrite Hsame.
      * destruct (same_key e p) eqn:He; [|done]. by specialize (Hboth eq_refl eq_refl).
    + destruct (same_key e p) eqn:He; simpl.
      * destruct (id e' =? id e) eqn:Hid; [|done]. by specialize (Hsame eq_refl).
      * exact IH.
Qed.

Lemma metrics_mem_alter f e e' m :
  metrics_mem e (metrics_alter f e' m) = metrics_mem e m.
Proof.
  unfold metrics_mem. induction m as [|p m IH]; simpl; [done|].
  destruct (same_key e' p); simpl; [done | by rewrite IH].
Qed.

Lemma metrics_keys_alter f e m :
  metrics_keys (metrics_alter f e m) = metrics_keys m.
Proof.
  unfold metrics_keys. induction m as [|p m IH]; simpl; [done|].
  destruct (same_key e p); simpl; [done | by rewrite IH].
Qed.

(** ** The sweep of compute_queue_depth *)

Lemma sweep_step_nonneg kernels mapping s event s' :
  sweep_step kernels mapping s event = Ok s' ->
  (forall e, depth_recorded (sweep_metrics s) e -> depth_recorded (sweep_metrics s') e)
  /\ (forall e, event = Cpu e -> depth_recorded (sweep_metrics s') e)
  /\ (Forall (fun i => 0 <= queue_depth i) (sweep_queue_depth_list s) ->
      Forall (fun i => 0 <= queue_depth i) (sweep_queue_depth_list s')).
Proof.
  unfold sweep_step. destruct event as [d|c].
  - intros [= <-]. simpl. repeat split; [done | discriminate |].
    intros Hall. apply Forall_app. split; [done|].
    constructor; [simpl; lia | constructor].
  - destruct (metrics_mem c (sweep_metrics s)) eqn:Hmem; [|discriminate].
    intros [= <-]. simpl. repeat split; [| |done].
    + intros e (r & Hr & Hpos). unfold depth_recorded.
      rewrite metrics_get_alter, Hr.
      destruct (id c =? id e); simpl; eexists; (split; [reflexivity|]);
        simpl; lia.
    + intros e [= <-]. apply metrics_mem_get in Hmem as [r Hr].
      unfold depth_recorded. rewrite metrics_get_alter, Z.eqb_refl, Hr.
      simpl. eexists. split; [reflexivity|]. simpl. lia.
Qed.

Lemma sweep_nonneg kernels mapping all_events : forall s s',
  sweep kernels mapping all_events s = Ok s' ->
  (forall e, depth_recorded (sweep_metrics s) e -> depth_recorded (sweep_metrics s') e)
  /\ (forall e, Cpu e ∈ all_events -> depth_recorded (sweep_metrics s') e)
  /\ (Forall (fun i => 0 <= queue_depth i) (sweep_queue_depth_list s) ->
      Forall (fun i => 0 <= queue_depth i) (sweep_queue_depth_list s')).
Proof.
  induction all_events as [|event rest IH]; intros s s' Hrun; simpl in Hrun.
  - inversion Hrun; subst. repeat split; try done. intros e He. inversion He.
  - destruct (sweep_step kernels mapping s event) as [s1|] eqn:Hstep;
      [|discriminate].
    simpl in Hrun. apply IH in Hrun as (Hkeep & Hnew & Hlist).
    apply sweep_step_nonneg in Hstep as (Hkeep1 & Hnew1 & Hlist1).
    repeat split; [by auto | | by auto].
    intros e He. apply elem_of_cons in He as [<-|He]; auto.
Qed.

(** The sweep cannot fail when every CPU event has its record. *)
Lemma sweep_total kernels mapping all_events : forall s,
  (forall e, Cpu e ∈ all_events -> metrics_mem e (sweep_metrics s) = true) ->
  exists s', sweep kernels mapping all_events s = Ok s'.
Proof.
  induction all_events as [|event rest IH]; intros s Hmem; simpl; [by eexists|].
  destruct event as [d|c]; simpl.
  - apply IH. intros e He. simpl. apply Hmem. by right.
  - rewrite (Hmem c) by left. simpl. apply IH. intros e He. simpl.
    rewrite metrics_mem_alter. apply Hmem. by right.
Qed.

Lemma Cpu_in_all_events kr cpu_events e :
  Cpu e ∈ all_events_of kr cpu_events <-> e ∈ cpu_events.
Proof.
  unfold all_events_of. rewrite sorted_perm, !elem_of_app.
  rewrite !list_elem_of_fmap. split.
  - intros [(d & Hd & _)|[(d & Hd & _)|(c & [= ->] & Hc)]]; done.
  - intros He. right. right. eauto.
Qed.

(** C3: every queue depth that [compute_queue_depth] produces is at least
    0, both in the intervals it returns and in the record of every CPU
    event it was given. *)
Theorem compute_queue_depth_nonneg (self self' : BasicEvaluation)
    (queue_depth_list : list Interval) :
  compute_queue_depth self = Ok (self', queue_depth_list) ->
  Forall (fun i => 0 <= queue_depth i) queue_depth_list
  /\ forall e, e ∈ self_events self ->
       exists r, metrics_get e (self_metrics self') = Some r
                 /\ 0 <= queue_depth_m r.
Proof.
  unfold compute_queue_depth.
  destruct (kineto_results (self_profile self)) as [kr|]; [|discriminate].
  destruct (sweep _ _ _ _) as [s|] eqn:Hrun; [|discriminate].
  simpl. intros [= <- <-]. simpl.
  apply sweep_nonneg in Hrun as (_ & Hnew & Hlist). split.
  - apply Hlist. constructor.
  - intros e He. apply Hnew. by apply Cpu_in_all_events.
Qed.

(** ** Launch-to-kernel correlation *)

Lemma imap_fst_seq {A} (g : nat -> nat) (l : list A) :
  map fst (imap (fun i e => (g i, e)) l) = map g (seq 0 (length l)).
Proof.
  revert g. induction l as [|x l IH]; intros g; simpl; [done|].
  f_equal. rewrite <- seq_shift, map_map. apply (IH (g ∘ S)).
Qed.

Lemma NoDup_fst_filter {A B} (P : A * B -> Prop) `{!forall x, Decision (P x)}
    (l : list (A * B)) :
  NoDup (map fst l) -> NoDup (map fst (filter P l)).
Proof.
  induction l as [|x l IH]; simpl; [done|].
  intros Hnd. inversion Hnd as [|? ? Hx Hl]; subst.
  rewrite filter_cons. destruct (decide (P x)); simpl; [|by apply IH].
  constructor; [|by apply IH].
  intros Hin. apply Hx. apply list_elem_of_fmap in Hin as (y & -> & Hy).
  apply list_elem_of_fmap_2. by apply list_elem_of_filter in Hy as [_ ?].
Qed.

Lemma mlu_event_list_NoDup kr : NoDup (map fst (mlu_event_list_of kr)).
Proof.
  unfold mlu_event_list_of. rewrite (imap_fst_seq (fun i => i)), map_id.
  apply NoDup_seq.
Qed.

Lemma mlu_launch_events_NoDup kr : NoDup (map fst (mlu_launch_events_of kr)).
Proof.
  unfold mlu_launch_events_of. rewrite sorted_perm.
  apply NoDup_fst_filter, mlu_event_list_NoDup.
Qed.

Lemma correlate_later_launches kernels post : forall st (o : nat),
  o ∉ map fst post ->
  fst (fold_left (correlate_step kernels) post st) !! o = fst st !! o.
Proof.
  induction post as [|x post IH]; intros [mapping cursor] o Hnotin; [done|].
  simpl in *. rewrite IH.
  - simpl. apply lookup_insert_ne. intros Heq. apply Hnotin. rewrite Heq. left.
  - intros Hin. apply Hnotin. by right.
Qed.

(** C4: a launch whose correlation id matches no kernel at or after the
    search cursor is mapped to "no index", leaves the cursor where it was,
    and does not change [spawned_kernel_index] when the sweep meets it: the
    depth stored for it is computed from the index spawned before. *)
Theorem unmatched_launch_is_skipped (kr : KinetoResults)
    (pre post : list DevEvent) (l : DevEvent) :
  mlu_launch_events_of kr = pre ++ l :: post ->
  let kernels := mlu_kernel_events_of kr in
  let before := fold_left (correlate_step kernels) pre (∅, 0%nat) in
  (forall i k, (snd before <= i)%nat -> kernels !! i = Some k ->
               dev_correlation k <> dev_correlation l) ->
  let kernel_mapping := fst (correlate kernels (mlu_launch_events_of kr)) in
  snd (correlate_step kernels before l) = snd before
  /\ fst (correlate_step kernels before l) !! fst l = Some None
  /\ kernel_mapping !! fst l = Some None
  /\ forall s s',
       sweep_step kernels kernel_mapping s (Dev l) = Ok s' ->
       spawned_kernel_index s' = spawned_kernel_index s
       /\ exists i,
            sweep_queue_depth_list s' = sweep_queue_depth_list s ++ [i]
            /\ queue_depth i
               = Z.max (spawned_kernel_index s
                        - Z.of_nat (current_kernel_index s') + 1) 0.
Proof.
  intros Hsplit kernels before Hnomatch kernel_mapping.
  assert (index_of_first_match kernels
            (fun x => dev_correlation x =? dev_correlation l) (snd before)
          = None) as Hnone.
  { apply index_of_first_match_None. intros i k Hi Hk.
    apply Z.eqb_neq. by eapply Hnomatch. }
  assert (correlate_step kernels before l
          = (<[fst l := None]> (fst before), snd before)) as Hstep.
  { unfold correlate_step. destruct before as [mapping cursor]. simpl in *.
    by rewrite Hnone. }
  assert (kernel_mapping !! fst l = Some None) as Hmap.
  { unfold kernel_mapping, correlate. rewrite Hsplit, fold_left_app. simpl.
    fold before. rewrite correlate_later_launches.
    - rewrite Hstep. simpl. apply lookup_insert_eq.
    - pose proof (mlu_launch_events_NoDup kr) as Hnd.
      rewrite Hsplit, map_app in Hnd. simpl in Hnd.
      apply NoDup_app in Hnd as (_ & _ & Hnd).
      by apply NoDup_cons_1_1 in Hnd. }
  rewrite Hstep. simpl.
  split; [done|]. split; [apply lookup_insert_eq|]. split; [done|].
  intros s s' Hrun. unfold sweep_step in Hrun. simpl in Hrun.
  rewrite Hmap in Hrun. inversion Hrun; subst. simpl.
  split; [done|]. eexists. split; reflexivity.
Qed.

Lemma compute_queue_depth_nonneg_witness :
  Forall (fun i => 0 <= queue_depth i)
         [mkInterval 10000 11000 1; mkInterval 12000 17000 0]
  /\ forall e, e ∈ cpu_trace ->
       exists r,
         metrics_get e
           [(mkEvent 1 "aten::relu" 9000 9500 500 [], mkEventMetrics 500 500 0 0);
            (mkEvent 2 "aten::add" 10000 10400 400 [], mkEventMetrics 400 400 0 1);
            (mkEvent 3 "aten::mul" 11999 12100 101 [], mkEventMetrics 101 101 0 1);
            (mkEvent 4 "aten::sub" 12000 18000 6000 [], mkEventMetrics 6000 6000 0 0)]
         = Some r
         /\ 0 <= queue_depth_m r.
Proof.
  apply (compute_queue_depth_nonneg launch_kernel_self
           {| self_profile := mkProfile (Some launch_kernel_results);
              self_metrics := _;
              self_event_keys := cpu_trace;
              self_events := cpu_trace;
              self_mlu_events := [(0%nat, launch_10); (1%nat, kernel_12)];
              self_queue_depth_list := [] |}).
  vm_compute. reflexivity.
Defined.

Lemma unmatched_launch_is_skipped_witness :
  fst (correlate (mlu_kernel_events_of stray_results)
                 (mlu_launch_events_of stray_results)) !! 0%nat = Some None
  /\ snd (correlate (mlu_kernel_events_of stray_results)
                    (mlu_launch_events_of stray_results)) = 0%nat.
Proof.
  pose proof (unmatched_launch_is_skipped stray_results [] [] (0%nat, stray_launch))
    as Hskip.
  simpl in Hskip. destruct Hskip as (Hcursor & _ & Hmap & _).
  - reflexivity.
  - intros [|i] k _ Hk; simpl in Hk; [|done].
    inversion Hk; subst. vm_compute. discriminate.
  - split; [exact Hmap | exact Hcursor].
Defined.

(** ** The sweep over a stretch of CPU events *)

Lemma sweep_app kernels mapping l1 : forall l2 s,
  sweep kernels mapping (l1 ++ l2) s
  = s' ← sweep kernels mapping l1 s; sweep kernels mapping l2 s'.
Proof.
  induction l1 as [|x l1 IH]; intros l2 s; simpl; [done|].
  destruct (sweep_step kernels mapping s x) as [s1|]; simpl; [apply IH | done].
Qed.

Lemma metrics_mem_write_depth d seg : forall m e,
  metrics_mem e (write_depth d seg m) = metrics_mem e m.
Proof.
  induction seg as [|x seg IH]; intros m e; simpl; [done|].
  unfold write_depth in *. simpl. by rewrite IH, metrics_mem_alter.
Qed.

Lemma metrics_get_write_depth_other d seg : forall m e,
  id e ∉ map id seg ->
  metrics_get e (write_depth d seg m) = metrics_get e m.
Proof.
  induction seg as [|x seg IH]; intros m e Hnotin; [done|].
  unfold write_depth in *. simpl. rewrite IH.
  - rewrite metrics_get_alter.
    destruct (id x =? id e) eqn:Hid; [|done].
    apply Z.eqb_eq in Hid. exfalso. apply Hnotin. rewrite <- Hid. left.
  - intros Hin. apply Hnotin. by right.
Qed.

Lemma metrics_get_write_depth d seg : forall m e,
  id e ∈ map id seg ->
  metrics_get e (write_depth d seg m) = set_queue_depth d <$> metrics_get e m.
Proof.
  induction seg as [|x seg IH]; intros m e Hin; [by inversion Hin|].
  unfold write_depth in *. simpl.
  destruct (decide (id e ∈ map id seg)) as [Hlater|Hlater].
  - rewrite IH by done. rewrite metrics_get_alter.
    destruct (id x =? id e); [|done]. by destruct (metrics_get e m).
  - fold (write_depth d seg (metrics_alter (set_queue_depth d) x m)).
    rewrite metrics_get_write_depth_other by done.
    rewrite metrics_get_alter.
    simpl in Hin. apply elem_of_cons in Hin as [Hid|Hin]; [|done].
    by rewrite <- Hid, Z.eqb_refl.
Qed.

(** CPU events that do not move [current_kernel_index] all get the same
    depth. *)
Lemma sweep_cpu_segment kernels mapping seg : forall s,
  (forall e, e ∈ seg -> metrics_mem e (sweep_metrics s) = true) ->
  (forall e, e ∈ seg ->
     advance_kernels (drop (current_kernel_index s) kernels)
                     (current_kernel_index s) (start_time_ns e)
     = current_kernel_index s) ->
  sweep kernels mapping (map Cpu seg) s
  = Ok {| current_kernel_index := current_kernel_index s;
          spawned_kernel_index := spawned_kernel_index s;
          sweep_queue_depth_list := sweep_queue_depth_list s;
          sweep_metrics :=
            write_depth
              (Z.max (spawned_kernel_index s
                      - Z.of_nat (current_kernel_index s) + 1) 0)
              seg (sweep_metrics s) |}.
Proof.
  induction seg as [|x seg IH]; intros s Hmem Hstay; simpl.
  - by destruct s.
  - unfold sweep_step. simpl. rewrite (Hmem x) by left.
    rewrite (Hstay x) by left. simpl. rewrite IH; simpl.
    + done.
    + intros e He. rewrite metrics_mem_alter. apply Hmem. by right.
    + intros e He. apply Hstay. by right.
Qed.

Lemma NoDup_fmap_app_l {A} (f : A -> Z) (l1 l2 : list A) x :
  NoDup (map f (l1 ++ l2)) -> x ∈ l1 -> f x ∉ map f l2.
Proof.
  rewrite map_app, NoDup_app. intros (_ & Hdisj & _) Hx.
  apply Hdisj. by apply list_elem_of_fmap_2.
Qed.

Lemma NoDup_fmap_app_r {A} (f : A -> Z) (l1 l2 : list A) x :
  NoDup (map f (l1 ++ l2)) -> x ∈ l2 -> f x ∉ map f l1.
Proof.
  rewrite map_app, NoDup_app. intros (_ & Hdisj & _) Hx Hin.
  apply (Hdisj _ Hin). by apply list_elem_of_fmap_2.
Qed.

(** ** One launch and its kernel *)

Lemma Forall_Cpu_key (P : Z -> Prop) (seg : list Event) :
  Forall (fun e => P (start_time_ns e)) seg ->
  Forall (fun a => P (new_old_event_comparator a)) (map Cpu seg).
Proof.
  intros Hall. apply Forall_forall. intros a Ha.
  apply list_elem_of_fmap in Ha as (e & -> & He). simpl.
  rewrite Forall_forall in Hall. by apply Hall.
Qed.

Lemma launch_kernel_order (dl dk : DevEvent) (evs : list Event) :
  dev_start_us dl = 10 -> dev_start_us dk = 12 ->
  exists before between after,
    sorted start_time_ns evs = before ++ between ++ after
    /\ Forall (fun e => start_time_ns e < 10000) before
    /\ Forall (fun e => 10000 <= start_time_ns e < 12000) between
    /\ Forall (fun e => 12000 <= start_time_ns e) after
    /\ sorted new_old_event_comparator (Dev dl :: Dev dk :: map Cpu evs)
       = map Cpu before ++ Dev dl :: map Cpu between ++ Dev dk :: map Cpu after.
Proof.
  intros Hl Hk.
  pose proof (sorted_sorted start_time_ns evs) as Hsorted.
  destruct (sorted_cut start_time_ns 10000 _ Hsorted)
    as (before & rest & Hevs & Hbefore & Hrest).
  rewrite Hevs in Hsorted. apply StronglySorted_app_1_r in Hsorted.
  destruct (sorted_cut start_time_ns 12000 _ Hsorted)
    as (between & after & -> & Hbetween & Hafter).
  exists before, between, after.
  assert (Forall (fun e => 10000 <= start_time_ns e < 12000) between) as Hmid.
  { apply Forall_app in Hrest as [Hrest _].
    apply Forall_forall. intros e He. rewrite Forall_forall in Hrest, Hbetween.
    split; [by apply Hrest | by apply Hbetween]. }
  repeat split; try done.
  simpl. rewrite (sorted_fmap Cpu new_old_event_comparator evs).
  change (fun a => new_old_event_comparator (Cpu a)) with start_time_ns.
  rewrite Hevs, app_assoc, (map_app Cpu (before ++ between)).
  rewrite insert_by_between.
  - rewrite map_app, <- app_assoc.
    rewrite insert_by_between; [done | |].
    + apply (Forall_Cpu_key (fun z => z < dev_start_us dl * 1000)).
      eapply Forall_impl; [exact Hbefore|]. simpl. intros e He. lia.
    + apply Forall_app. split.
      * apply (Forall_Cpu_key (fun z => dev_start_us dl * 1000 <= z)).
        eapply Forall_impl; [exact Hmid|]. simpl. intros e He. lia.
      * constructor; [simpl; lia|].
        apply (Forall_Cpu_key (fun z => dev_start_us dl * 1000 <= z)).
        eapply Forall_impl; [exact Hafter|]. simpl. intros e He. lia.
  - apply (Forall_Cpu_key (fun z => z < dev_start_us dk * 1000)).
    apply Forall_app. split.
    + eapply Forall_impl; [exact Hbefore|]. simpl. intros e He. lia.
    + eapply Forall_impl; [exact Hmid|]. simpl. intros e He. lia.
  - apply (Forall_Cpu_key (fun z => dev_start_us dk * 1000 <= z)).
    eapply Forall_impl; [exact Hafter|]. simpl. intros e He. lia.
Qed.

Lemma advance_before (dk : DevEvent) (t : Z) :
  t < dev_start_us dk * 1000 -> advance_kernels (drop 0 [dk]) 0 t = 0%nat.
Proof. intros Ht. simpl. apply Z.leb_gt in Ht. by rewrite Ht. Qed.

Lemma advance_from (dk : DevEvent) (t : Z) :
  dev_start_us dk * 1000 <= t -> advance_kernels (drop 0 [dk]) 0 t = 1%nat.
Proof. intros Ht. simpl. apply Z.leb_le in Ht. by rewrite Ht. Qed.

Lemma sweep_launch_kernel (dl dk : DevEvent) (mapping : gmap nat (option nat))
    (evs : list Event) (m0 : Metrics) :
  mapping !! fst dl = Some (Some 0%nat) ->
  mapping !! fst dk = None ->
  dev_start_us dl = 10 -> dev_start_us dk = 12 ->
  NoDup (map id evs) ->
  (forall e, e ∈ evs -> metrics_mem e m0 = true) ->
  exists s',
    sweep [dk] mapping
      (sorted new_old_event_comparator (Dev dl :: Dev dk :: map Cpu evs))
      (mkSweep 0 (-1) [] m0) = Ok s'
    /\ sweep_queue_depth_list s'
       = [mkInterval 10000 ((10 + dev_duration_us dl) * 1000) 1;
          mkInterval 12000 ((12 + dev_duration_us dk) * 1000) 0]
    /\ forall e, e ∈ evs ->
         metrics_get e (sweep_metrics s')
         = set_queue_depth
             (if (10000 <=? start_time_ns e) && (start_time_ns e <? 12000)
              then 1 else 0)
           <$> metrics_get e m0.
Proof.
  intros Hml Hmk Hl Hk Hnd Hmem.
  destruct (launch_kernel_order dl dk evs Hl Hk)
    as (before & between & after & Hevs & Hbefore & Hbetween & Hafter & ->).
  assert (evs ≡ₚ before ++ between ++ after) as Hperm.
  { by rewrite <- Hevs, sorted_perm. }
  assert (forall e, e ∈ before ++ between ++ after -> metrics_mem e m0 = true)
    as Hmem'.
  { intros e He. apply Hmem. by rewrite Hperm. }
  rewrite Forall_forall in Hbefore, Hbetween, Hafter.
  (* the CPU events before the launch *)
  rewrite sweep_app, sweep_cpu_segment; simpl.
  2:{ intros e He. apply Hmem'. apply elem_of_app. by left. }
  2:{ intros e He. apply (advance_before dk). specialize (Hbefore e He). lia. }
  (* the launch *)
  rewrite Hml, Hl, Hk. simpl.
  (* the CPU events between the launch and the kernel *)
  rewrite sweep_app, sweep_cpu_segment; simpl.
  2:{ intros e He. rewrite metrics_mem_write_depth. apply Hmem'.
      rewrite !elem_of_app. auto. }
  2:{ intros e He. apply (advance_before dk). specialize (Hbetween e He). lia. }
  (* the kernel *)
  rewrite Hmk, Hk. simpl.
  (* the CPU events after the kernel *)
  rewrite sweep_cpu_segment; simpl.
  2:{ intros e He. rewrite !metrics_mem_write_depth. apply Hmem'.
      rewrite !elem_of_app. auto. }
  2:{ done. }
  eexists. split; [reflexivity|]. simpl. split; [reflexivity|].
  intros e He. rewrite Hperm in He. rewrite Hperm in Hnd.
  assert (NoDup (map id (between ++ after))) as Hnd'.
  { rewrite map_app in Hnd. by apply NoDup_app in Hnd as (_ & _ & Hnd). }
  rewrite !elem_of_app in He. destruct He as [He|[He|He]].
  - specialize (Hbefore e He).
    pose proof (NoDup_fmap_app_l id before (between ++ after) e Hnd He) as Hout.
    rewrite map_app, elem_of_app in Hout.
    rewrite !metrics_get_write_depth_other by tauto.
    rewrite metrics_get_write_depth by (by apply list_elem_of_fmap_2).
    replace (10000 <=? start_time_ns e) with false; [done|].
    symmetry. apply Z.leb_gt. lia.
  - specialize (Hbetween e He).
    assert (e ∈ between ++ after) as He' by (apply elem_of_app; by left).
    pose proof (NoDup_fmap_app_r id before (between ++ after) e Hnd He').
    pose proof (NoDup_fmap_app_l id between after e Hnd' He).
    rewrite metrics_get_write_depth_other by done.
    rewrite metrics_get_write_depth by (by apply list_elem_of_fmap_2).
    rewrite metrics_get_write_depth_other by done.
    replace (10000 <=? start_time_ns e) with true
      by (symmetry; apply Z.leb_le; lia).
    replace (start_time_ns e <? 12000) with true
      by (symmetry; apply Z.ltb_lt; lia).
    done.
  - specialize (Hafter e He).
    assert (e ∈ between ++ after) as He' by (apply elem_of_app; by right).
    pose proof (NoDup_fmap_app_r id before (between ++ after) e Hnd He').
    pose proof (NoDup_fmap_app_r id between after e Hnd' He).
    rewrite metrics_get_write_depth by (by apply list_elem_of_fmap_2).
    rewrite !metrics_get_write_depth_other by done.
    replace (start_time_ns e <? 12000) with false
      by (symmetry; apply Z.ltb_ge; lia).
    by rewrite andb_false_r.
Qed.

Lemma launch_kernel_partition (kr : KinetoResults) (L K : Kineto.t) :
  events kr = [L; K] \/ events kr = [K; L] ->
  launch_record L -> kernel_record K ->
  exists oL oK : nat,
    oL <> oK
    /\ mlu_launch_events_of kr = [(oL, L)]
    /\ mlu_kernel_events_of kr = [(oK, K)].
Proof.
  intros Hev [HLl HLk] [HKk HKl].
  assert (forall o e, is_mlu_launch_kernel (o, e) = is_mlu_launch_kernel (0%nat, e))
    as Hlaunch by reflexivity.
  assert (forall o e, is_mlu_kernel (o, e) = is_mlu_kernel (0%nat, e))
    as Hkernel by reflexivity.
  unfold mlu_launch_events_of, mlu_kernel_events_of, mlu_event_list_of.
  destruct Hev as [-> | ->]; simpl;
    [exists 0%nat, 1%nat | exists 1%nat, 0%nat];
    (split; [lia|]);
    rewrite !filter_cons, !filter_nil;
    repeat case_decide;
    rewrite ?(Hlaunch 1%nat), ?(Hkernel 1%nat) in *; try congruence;
    done.
Qed.

Lemma correlate_single (dl dk : DevEvent) :
  dev_correlation dk = dev_correlation dl ->
  fst (correlate [dk] [dl]) = <[fst dl := Some 0%nat]> ∅.
Proof.
  intros Hc. unfold correlate. simpl.
  unfold index_of_first_match. simpl. by rewrite Hc, Z.eqb_refl.
Qed.

(** C2: with one launch at 10us and one kernel at 12us, both of correlation
    id 1, as the only device events, the interval of the launch carries
    depth 1 and the interval of the kernel depth 0; after the pass the
    record of a CPU event holds queue depth 1 when the event starts at or
    after the launch and before 12us, and queue depth 0 when it starts at or
    after 12us (and also before the launch). *)
Theorem launch_then_kernel_queue_depth (self : BasicEvaluation)
    (kr : KinetoResults) (L K : Kineto.t) :
  kineto_results (self_profile self) = Some kr ->
  events kr = [L; K] \/ events kr = [K; L] ->
  launch_record L -> kernel_record K ->
  Kineto.start_us L = 10 -> Kineto.start_us K = 12 ->
  Kineto.linked_correlation_id L = 1 -> Kineto.linked_correlation_id K = 1 ->
  NoDup (map id (self_events self)) ->
  (forall e, e ∈ self_events self -> metrics_mem e (self_metrics self) = true) ->
  exists self',
    compute_queue_depth self
    = Ok (self',
          [mkInterval 10000 ((10 + Kineto.duration_us L) * 1000) 1;
           mkInterval 12000 ((12 + Kineto.duration_us K) * 1000) 0])
    /\ forall e, e ∈ self_events self ->
         exists r,
           metrics_get e (self_metrics self') = Some r
           /\ queue_depth_m r
              = (if (10000 <=? start_time_ns e) && (start_time_ns e <? 12000)
                 then 1 else 0).
Proof.
  intros Hkr Hev HL HK HsL HsK HcL HcK Hnd Hmem.
  destruct (launch_kernel_partition kr L K Hev HL HK)
    as (oL & oK & Hne & Hlaunches & Hkernels).
  unfold compute_queue_depth. rewrite Hkr.
  unfold all_events_of. rewrite Hlaunches, Hkernels.
  rewrite (correlate_single (oL, L) (oK, K)) by (unfold dev_correlation; simpl; lia).
  simpl.
  destruct (sweep_launch_kernel (oL, L) (oK, K) (<[oL := Some 0%nat]> ∅)
              (self_events self) (self_metrics self))
    as (s' & Hrun & Hlist & Hget); try done.
  - apply lookup_insert_eq.
  - simpl. rewrite lookup_insert_ne by done. apply lookup_empty.
  - simpl in Hrun. simpl. rewrite Hrun. simpl. eexists. split.
    + rewrite Hlist. reflexivity.
    + intros e He.
      destruct (proj1 (metrics_mem_get e (self_metrics self)) (Hmem e He))
        as [r0 Hr0].
      pose proof (Hget e He) as Hrec. rewrite Hr0 in Hrec. simpl in Hrec.
      eexists. split; [exact Hrec|reflexivity].
Qed.

Lemma launch_then_kernel_queue_depth_witness :
  exists self',
    compute_queue_depth launch_kernel_self
    = Ok (self', [mkInterval 10000 11000 1; mkInterval 12000 17000 0])
    /\ forall e, e ∈ cpu_trace ->
         exists r,
           metrics_get e (self_metrics self') = Some r
           /\ queue_depth_m r
              = (if (10000 <=? start_time_ns e) && (start_time_ns e <? 12000)
                 then 1 else 0).
Proof.
  apply (launch_then_kernel_queue_depth launch_kernel_self launch_kernel_results
           launch_10 kernel_12).
  - reflexivity.
  - left. reflexivity.
  - split; reflexivity.
  - split; reflexivity.
  - reflexivity.
  - reflexivity.
  - reflexivity.
  - reflexivity.
  - vm_compute. solve_NoDup.
  - intros e He. vm_compute in He.
    repeat (apply elem_of_cons in He as [->|He]; [reflexivity|]).
    inversion He.
Defined.

(** The depths the four CPU events of the example receive. *)
Example launch_kernel_cpu_depths :
  match compute_queue_depth launch_kernel_self with
  | Ok (self', _) => map (fun p => queue_depth_m (snd p)) (self_metrics self')
  | Raise _ => []
  end = [0; 1; 1; 0].
Proof. reflexivity. Qed.

(** ** The scan of compute_idle_time *)

Section IdleFacts.

Context {defaults : Defaults}.

Lemma idle_scan_app l1 l2 s :
  idle_scan (l1 ++ l2) s = idle_scan l2 (idle_scan l1 s).
Proof. unfold idle_scan. apply fold_left_app. Qed.

(** The intervals found so far are only appended to. *)
Lemma idle_step_acc i st acc dp :
  idle_step {| idle := i; idle_start := st; idle_intervals := acc |} dp
  = let r := idle_step {| idle := i; idle_start := st; idle_intervals := [] |} dp in
    {| idle := idle r; idle_start := idle_start r;
       idle_intervals := acc ++ idle_intervals r |}.
Proof.
  unfold idle_step. simpl.
  destruct (queue_depth dp =? 0), i, (0 <? queue_depth dp); simpl;
    by rewrite ?app_nil_r.
Qed.

Lemma idle_scan_acc l : forall i st acc,
  idle_scan l {| idle := i; idle_start := st; idle_intervals := acc |}
  = let r := idle_scan l {| idle := i; idle_start := st; idle_intervals := [] |} in
    {| idle := idle r; idle_start := idle_start r;
       idle_intervals := acc ++ idle_intervals r |}.
Proof.
  induction l as [|dp l IH]; intros i st acc.
  - simpl. by rewrite app_nil_r.
  - change (idle_scan (dp :: l) ?s) with (idle_scan l (idle_step s dp)).
    rewrite (idle_step_acc i st acc dp).
    destruct (idle_step {| idle := i; idle_start := st; idle_intervals := [] |} dp)
      as [i1 st1 e1].
    cbv zeta. simpl idle. simpl idle_start. simpl idle_intervals.
    rewrite (IH i1 st1 (acc ++ e1)), (IH i1 st1 e1).
    cbv zeta. simpl. by rewrite app_assoc.
Qed.

(** While not idle, the value of [idle_start] is never read. *)
Lemma idle_scan_start_irrelevant l : forall a b acc,
  idle_intervals (idle_scan l {| idle := false; idle_start := a;
                                 idle_intervals := acc |})
  = idle_intervals (idle_scan l {| idle := false; idle_start := b;
                                   idle_intervals := acc |}).
Proof.
  induction l as [|dp l IH]; intros a b acc; simpl; [done|].
  unfold idle_step. simpl.
  destruct (queue_depth dp =? 0) eqn:Hz; simpl.
  - apply Z.eqb_eq in Hz. rewrite Hz. simpl. done.
  - rewrite andb_false_r. apply IH.
Qed.

Lemma idle_step_positive s dp :
  0 < queue_depth dp -> idle (idle_step s dp) = false.
Proof.
  intros Hpos. unfold idle_step.
  replace (queue_depth dp =? 0) with false by (symmetry; apply Z.eqb_neq; lia).
  replace (0 <? queue_depth dp) with true by (symmetry; apply Z.ltb_lt; lia).
  simpl. by destruct (idle s) eqn:Hs.
Qed.

Lemma idle_scan_zeros run : forall s,
  idle s = true ->
  Forall (fun i => queue_depth i = 0) run ->
  idle_scan run s = s.
Proof.
  induction run as [|dp run IH]; intros s Hidle Hall; [done|].
  inversion Hall as [|? ? Hdp Hrun]; subst. simpl.
  assert (idle_step s dp = s) as ->; [|by apply IH].
  unfold idle_step. rewrite Hdp, Hidle. simpl. by rewrite ?Hidle.
Qed.

Lemma idle_after_prefix (pre : list Interval) s :
  pre = [] \/ (exists pre' q, pre = pre' ++ [q] /\ 0 < queue_depth q) ->
  idle s = false ->
  idle (idle_scan pre s) = false.
Proof.
  intros [->|(pre' & q & -> & Hq)] Hs; [done|].
  rewrite idle_scan_app. simpl. by apply idle_step_positive.
Qed.

End IdleFacts.

(** ** The claims about compute_idle_time *)

(** C5 (as the code has it): a maximal run of depth-0 intervals that is
    followed by an interval of positive depth adds exactly one idle
    interval, from the end of the first interval of the run to the start of
    that next interval; a run that nothing of positive depth follows adds
    none. *)
Theorem zero_run_gives_one_interval {defaults : Defaults}
    (pre run post : list Interval) (z p : Interval) :
  pre = [] \/ (exists pre' q, pre = pre' ++ [q] /\ 0 < queue_depth q) ->
  queue_depth z = 0 ->
  Forall (fun i => queue_depth i = 0) run ->
  0 < queue_depth p ->
  scan_intervals (pre ++ z :: run ++ p :: post)
  = scan_intervals pre ++ Interval2 (end_ z) (start p) :: scan_intervals post
  /\ scan_intervals (pre ++ z :: run) = scan_intervals pre.
Proof.
  intros Hpre Hz Hrun Hp. unfold scan_intervals.
  pose proof (idle_after_prefix pre
                {| idle := false; idle_start := 0; idle_intervals := [] |}
                Hpre eq_refl) as Hidle.
  rewrite !idle_scan_app.
  destruct (idle_scan pre _) as [i1 st1 acc1]. simpl in Hidle. subst i1.
  assert (idle_step {| idle := false; idle_start := st1; idle_intervals := acc1 |} z
          = {| idle := true; idle_start := end_ z; idle_intervals := acc1 |})
    as Hfirst.
  { unfold idle_step. rewrite Hz. reflexivity. }
  change (idle_scan (z :: ?l) ?s) with (idle_scan l (idle_step s z)).
  rewrite Hfirst. split.
  - rewrite idle_scan_app, (idle_scan_zeros run) by done.
    change (idle_scan (p :: ?l) ?s) with (idle_scan l (idle_step s p)).
    assert (idle_step {| idle := true; idle_start := end_ z;
                         idle_intervals := acc1 |} p
            = {| idle := false; idle_start := end_ z;
                 idle_intervals := acc1 ++ [Interval2 (end_ z) (start p)] |})
      as ->.
    { unfold idle_step.
      replace (queue_depth p =? 0) with false
        by (symmetry; apply Z.eqb_neq; lia).
      replace (0 <? queue_depth p) with true
        by (symmetry; apply Z.ltb_lt; lia).
      reflexivity. }
    rewrite idle_scan_acc. cbv zeta. simpl idle_intervals.
    rewrite (idle_scan_start_irrelevant post (end_ z) 0 []).
    by rewrite <- app_assoc.
  - by rewrite (idle_scan_zeros run).
Qed.

Lemma zero_run_gives_one_interval_witness :
  scan_intervals (defaults := torch_defaults)
    ([mkInterval 10000 11000 1]
       ++ mkInterval 12000 17000 0
       :: [mkInterval 13000 18000 0] ++ mkInterval 20000 21000 1
       :: [mkInterval 22000 27000 0])
  = scan_intervals (defaults := torch_defaults) [mkInterval 10000 11000 1]
      ++ Interval2 (defaults := torch_defaults) 17000 20000
      :: scan_intervals (defaults := torch_defaults) [mkInterval 22000 27000 0]
  /\ scan_intervals (defaults := torch_defaults)
       ([mkInterval 10000 11000 1]
          ++ mkInterval 12000 17000 0 :: [mkInterval 13000 18000 0])
     = scan_intervals (defaults := torch_defaults) [mkInterval 10000 11000 1].
Proof.
  apply (@zero_run_gives_one_interval torch_defaults
           [mkInterval 10000 11000 1] [mkInterval 13000 18000 0]
           [mkInterval 22000 27000 0]
           (mkInterval 12000 17000 0) (mkInterval 20000 21000 1)).
  - right. exists [], (mkInterval 10000 11000 1). split; [reflexivity|].
    simpl. lia.
  - reflexivity.
  - repeat constructor.
  - simpl. lia.
Defined.

(** C5 as the specification words it fails: on two launches with their
    kernels, the first kernel is a run of depth 0 that starts at 12000ns,
    and the idle interval that the code derives from it starts at 17000ns,
    the end of that kernel. *)
Lemma idle_interval_opens_at_end_of_run :
  exists self,
    BasicEvaluation_init (defaults := torch_defaults) two_kernel_profile = Ok self
    /\ self_queue_depth_list self
       = [mkInterval 10000 11000 1; mkInterval 12000 17000 0;
          mkInterval 20000 21000 1; mkInterval 22000 27000 0]
    /\ idle_runs_from_start (defaults := torch_defaults)
         (self_queue_depth_list self) None
       = [mkInterval 12000 20000 0]
    /\ scan_intervals (defaults := torch_defaults) (self_queue_depth_list self)
       = [mkInterval 17000 20000 0]
    /\ idle_intervals_of (defaults := torch_defaults) self
       = [mkInterval 9000 10000 0; mkInterval 27000 30000 0;
          mkInterval 17000 20000 0]
    /\ scan_intervals (defaults := torch_defaults) (self_queue_depth_list self)
       <> idle_runs_from_start (defaults := torch_defaults)
            (self_queue_depth_list self) None.
Proof.
  eexists. split; [vm_compute; reflexivity|]. simpl self_queue_depth_list.
  repeat split; try reflexivity. vm_compute. discriminate.
Qed.

(** ** Disjointness of the idle intervals *)

Lemma ForallOrdPairs_impl {A} (R1 R2 : A -> A -> Prop) l :
  (forall a b, R1 a b -> R2 a b) ->
  ForallOrdPairs R1 l -> ForallOrdPairs R2 l.
Proof.
  intros Himpl. induction 1 as [|a l Ha _ IH]; constructor; [|done].
  eapply Forall_impl; [exact Ha|]. apply Himpl.
Qed.

Lemma ForallOrdPairs_snoc {A} (R : A -> A -> Prop) l x :
  ForallOrdPairs R l -> Forall (fun a => R a x) l -> ForallOrdPairs R (l ++ [x]).
Proof.
  induction 1 as [|a l Ha _ IH]; intros Hx; simpl.
  - repeat constructor.
  - inversion Hx; subst. constructor; [|by apply IH].
    apply Forall_app. split; [done | by repeat constructor].
Qed.

Lemma separated_disjoint l : ForallOrdPairs separated l -> pairwise_disjoint l.
Proof.
  induction 1 as [|x l Hx _ IH]; intros i j a b t Hij Ha Hb [Hta Htb].
  - by rewrite lookup_nil in Ha.
  - rewrite Forall_forall in Hx. unfold in_interval, separated in *.
    destruct i as [|i], j as [|j]; simpl in Ha, Hb.
    + lia.
    + inversion Ha; subst. apply list_elem_of_lookup_2 in Hb.
      specialize (Hx b Hb). lia.
    + inversion Hb; subst. apply list_elem_of_lookup_2 in Ha.
      specialize (Hx a Ha). lia.
    + apply (IH i j a b t); auto.
Qed.

Section IdleDisjoint.

Context {defaults : Defaults}.

Lemma scan_invariant_mono base lo hi s :
  lo <= hi -> scan_invariant base lo s -> scan_invariant base hi s.
Proof.
  intros Hle (Hord & Hall & Hidle). repeat split; try done.
  - eapply Forall_impl; [exact Hall|]. simpl. intros i [? ?]. lia.
  - by apply Hidle.
  - by apply Hidle.
Qed.

Lemma idle_step_invariant base lo s dp :
  base <= lo -> lo <= start dp -> start dp <= end_ dp ->
  scan_invariant base lo s ->
  scan_invariant base (start dp) (idle_step s dp).
Proof.
  intros Hbase Hlo Hdp (Hord & Hall & Hidle). unfold idle_step.
  destruct (queue_depth dp =? 0) eqn:Hz; destruct (idle s) eqn:Hi; simpl.
  - (* depth 0 inside a run *)
    apply Z.eqb_eq in Hz. rewrite Hz, Hi. simpl.
    apply (scan_invariant_mono base lo); [done|].
    repeat split; try done; by apply Hidle.
  - (* depth 0 opens a run *)
    apply Z.eqb_eq in Hz. rewrite Hz. simpl.
    repeat split; simpl; try done.
    + eapply Forall_impl; [exact Hall|]. simpl. intros i [? ?]. lia.
    + lia.
    + eapply Forall_impl; [exact Hall|]. simpl. intros i [? ?]. lia.
  - (* an open run is closed, or the depth is negative *)
    rewrite Hi. destruct (0 <? queue_depth dp) eqn:Hpos; simpl.
    + destruct (Hidle eq_refl) as [Hstart Hends]. repeat split; simpl; try done.
      * apply ForallOrdPairs_snoc; [done|]. exact Hends.
      * apply Forall_app. split.
        -- eapply Forall_impl; [exact Hall|]. simpl. intros i [? ?]. lia.
        -- repeat constructor; simpl; lia.
    + apply (scan_invariant_mono base lo); [done|].
      repeat split; try done; by apply Hidle.
  - rewrite Hi, andb_false_r.
    apply (scan_invariant_mono base lo); [done|].
    repeat split; try done; intros; congruence.
Qed.

Lemma idle_scan_invariant base queue_depth_list : forall lo s hi,
  StronglySorted (fun a b => start a <= start b) queue_depth_list ->
  Forall (fun i => start i <= end_ i) queue_depth_list ->
  Forall (fun i => lo <= start i <= hi) queue_depth_list ->
  base <= lo -> lo <= hi ->
  scan_invariant base lo s ->
  scan_invariant base hi (idle_scan queue_depth_list s).
Proof.
  induction queue_depth_list as [|dp l IH];
    intros lo s hi Hsorted Hwf Hbounds Hbase Hle Hinv; simpl.
  - by apply (scan_invariant_mono base lo).
  - inversion Hsorted as [|? ? Hl Hdp]; subst.
    inversion Hwf; subst. inversion Hbounds as [|? ? Hb Hbl]; subst.
    apply (IH (start dp)); try done; try lia.
    + rewrite Forall_forall in Hdp, Hbl. apply Forall_forall.
      intros i Hi. specialize (Hdp i Hi). specialize (Hbl i Hi). lia.
    + apply (idle_step_invariant base lo); try done; lia.
Qed.

Lemma idle_intervals_of_split self :
  idle_intervals_of self
  = boundary_intervals (self_queue_depth_list self) (self_events self)
    ++ scan_intervals (self_queue_depth_list self).
Proof. unfold idle_intervals_of, scan_intervals. by rewrite idle_scan_acc. Qed.

Lemma sorted_head_le (q0 : Interval) l i :
  StronglySorted (fun a b => start a <= start b) (q0 :: l) ->
  i ∈ q0 :: l -> start q0 <= start i.
Proof.
  intros Hsorted Hi. inversion Hsorted as [|? ? _ Hq0]; subst.
  apply elem_of_cons in Hi as [->|Hi]; [lia|].
  rewrite Forall_forall in Hq0. by apply Hq0.
Qed.

Lemma sorted_le_last (q0 : Interval) l i :
  StronglySorted (fun a b => start a <= start b) (q0 :: l) ->
  i ∈ q0 :: l -> start i <= start (default q0 (last (q0 :: l))).
Proof.
  revert q0 i. induction l as [|q1 l IH]; intros q0 i Hsorted Hi.
  - apply list_elem_of_singleton in Hi as ->. simpl. lia.
  - inversion Hsorted as [|? ? Hl Hq0]; subst.
    change (last (q0 :: q1 :: l)) with (last (q1 :: l)).
    assert (default q0 (last (q1 :: l)) = default q1 (last (q1 :: l))) as ->.
    { destruct (last (q1 :: l)) eqn:Hlast; [done|].
      by apply last_None in Hlast. }
    apply elem_of_cons in Hi as [->|Hi]; [|by apply IH].
    transitivity (start q1).
    + inversion Hq0; subst. done.
    + apply IH; [done | left].
Qed.

Lemma idle_intervals_separated (self : BasicEvaluation) :
  StronglySorted (fun a b => start a <= start b) (self_queue_depth_list self) ->
  Forall (fun i => start i <= end_ i) (self_queue_depth_list self) ->
  ForallOrdPairs separated (idle_intervals_of self).
Proof.
  intros Hsorted Hwf.
  rewrite idle_intervals_of_split.
  destruct (self_queue_depth_list self) as [|q0 l] eqn:Hqdl.
  { simpl. constructor. }
  set (qdl := q0 :: l) in *.
  set (qlast := default q0 (last qdl)).
  assert (scan_invariant (start q0) (start qlast)
            (idle_scan qdl {| idle := false; idle_start := 0;
                              idle_intervals := [] |}))
    as (Hord & Hall & _).
  { apply (idle_scan_invariant (start q0) qdl (start q0)); try done.
    - apply Forall_forall. intros i Hi. split.
      + by apply (sorted_head_le q0 l).
      + by apply (sorted_le_last q0 l).
    - apply (sorted_le_last q0 l); [done | left].
    - repeat split; simpl; try constructor; discriminate. }
  fold (scan_intervals qdl) in Hord, Hall.
  assert (ForallOrdPairs separated (scan_intervals qdl)) as Hscan.
  { eapply ForallOrdPairs_impl; [|exact Hord]. intros a b Hab. by left. }
  unfold boundary_intervals. subst qdl.
  destruct (self_events self) as [|e0 evs]; [done|].
  fold qlast.
  assert (start qlast <= end_ qlast) as Hlast.
  { rewrite Forall_forall in Hwf. apply Hwf. unfold qlast.
    destruct (last (q0 :: l)) as [q|] eqn:Hq; simpl; [|left].
    by apply last_Some_elem_of in Hq. }
  assert (start q0 <= start qlast) as Hfirst.
  { apply (sorted_le_last q0 l); [done | left]. }
  simpl. constructor; [|constructor; [|done]].
  - constructor.
    + left. simpl. lia.
    + eapply Forall_impl; [exact Hall|]. simpl. intros i [? ?]. left. simpl. lia.
  - eapply Forall_impl; [exact Hall|]. simpl. intros i [? ?]. right. simpl. lia.
Qed.

(** ** The timeline that compute_queue_depth returns *)

Lemma StronglySorted_snoc_le (l : list Interval) x :
  StronglySorted (fun a b => start a <= start b) l ->
  Forall (fun i => start i <= start x) l ->
  StronglySorted (fun a b => start a <= start b) (l ++ [x]).
Proof.
  induction 1 as [|a l Hl IH Ha]; intros Hx; simpl.
  - repeat constructor.
  - inversion Hx; subst. constructor; [by apply IH|].
    apply Forall_app. split; [done | by repeat constructor].
Qed.

Lemma sweep_timeline kernels mapping all_events : forall lo s s',
  sweep kernels mapping all_events s = Ok s' ->
  StronglySorted (fun a b => new_old_event_comparator a <= new_old_event_comparator b)
                 all_events ->
  Forall (fun a => lo <= new_old_event_comparator a) all_events ->
  (forall d, Dev d ∈ all_events -> 0 <= dev_duration_us d) ->
  StronglySorted (fun a b => start a <= start b) (sweep_queue_depth_list s) ->
  Forall (fun i => start i <= end_ i /\ start i <= lo) (sweep_queue_depth_list s) ->
  StronglySorted (fun a b => start a <= start b) (sweep_queue_depth_list s')
  /\ Forall (fun i => start i <= end_ i) (sweep_queue_depth_list s').
Proof.
  induction all_events as [|a rest IH];
    intros lo s s' Hrun Hsorted Hlo Hdur Hs Hwf; simpl in Hrun.
  - inversion Hrun; subst. split; [done|].
    eapply Forall_impl; [exact Hwf|]. by intros i [? ?].
  - destruct (sweep_step kernels mapping s a) as [s1|] eqn:Hstep; [|discriminate].
    simpl in Hrun.
    inversion Hsorted as [|? ? Hrest Ha]; subst.
    inversion Hlo as [|? ? Hlo_a Hlo_rest]; subst.
    apply (IH (new_old_event_comparator a) s1 s' Hrun Hrest Ha).
    + intros d Hd. apply Hdur. by right.
    + unfold sweep_step in Hstep. destruct a as [d|c].
      * inversion Hstep; subst. simpl.
        apply StronglySorted_snoc_le; [done|].
        eapply Forall_impl; [exact Hwf|]. simpl. intros i [? ?]. simpl in *. lia.
      * destruct (metrics_mem c (sweep_metrics s)); [|discriminate].
        by inversion Hstep; subst.
    + unfold sweep_step in Hstep. destruct a as [d|c].
      * inversion Hstep; subst. simpl. apply Forall_app. split.
        -- eapply Forall_impl; [exact Hwf|]. simpl in *. intros i [? ?]. simpl in *. lia.
        -- assert (0 <= dev_duration_us d) by (apply Hdur; left).
           repeat constructor; simpl in *; lia.
      * destruct (metrics_mem c (sweep_metrics s)); [|discriminate].
        inversion Hstep; subst. simpl.
        eapply Forall_impl; [exact Hwf|]. simpl in *. intros i [? ?]. simpl in *. lia.
Qed.

Lemma mlu_event_list_elem kr (d : DevEvent) :
  d ∈ mlu_event_list_of kr -> snd d ∈ events kr.
Proof.
  unfold mlu_event_list_of. intros Hd.
  apply elem_of_lookup_imap_1 in Hd as (i & e & -> & He).
  simpl. by apply list_elem_of_lookup_2 in He.
Qed.

Lemma Dev_in_all_events kr cpu_events d :
  Dev d ∈ all_events_of kr cpu_events -> snd d ∈ events kr.
Proof.
  unfold all_events_of, mlu_launch_events_of, mlu_kernel_events_of.
  rewrite sorted_perm, !elem_of_app, !list_elem_of_fmap.
  intros [(x & [= <-] & Hx)|[(x & [= <-] & Hx)|(c & [=] & _)]];
    rewrite sorted_perm in Hx; apply list_elem_of_filter in Hx as [_ Hx];
    by apply mlu_event_list_elem.
Qed.

(** With device durations that are not negative, the returned intervals
    come in order of start and none ends before it starts. *)
Lemma compute_queue_depth_timeline self self' queue_depth_list kr :
  kineto_results (self_profile self) = Some kr ->
  Forall (fun e => 0 <= Kineto.duration_us e) (events kr) ->
  compute_queue_depth self = Ok (self', queue_depth_list) ->
  StronglySorted (fun a b => start a <= start b) queue_depth_list
  /\ Forall (fun i => start i <= end_ i) queue_depth_list.
Proof.
  intros Hkr Hdur. unfold compute_queue_depth. rewrite Hkr.
  destruct (sweep _ _ _ _) as [s|] eqn:Hrun; [|discriminate].
  simpl. intros [= <- <-].
  pose proof (sorted_sorted new_old_event_comparator
                (map Dev (mlu_launch_events_of kr)
                   ++ map Dev (mlu_kernel_events_of kr)
                   ++ map Cpu (self_events self))) as Hsorted.
  fold (all_events_of kr (self_events self)) in Hsorted.
  destruct (all_events_of kr (self_events self)) as [|a0 rest] eqn:Hall.
  { simpl in Hrun. inversion Hrun; subst. simpl. split; constructor. }
  rewrite <- Hall in *.
  apply (sweep_timeline _ _ _ (new_old_event_comparator a0) _ _ Hrun Hsorted).
  - rewrite Hall in *. inversion Hsorted as [|? ? _ Ha0]; subst.
    constructor; [lia|]. exact Ha0.
  - intros d Hd. apply Dev_in_all_events in Hd.
    rewrite Forall_forall in Hdur. by apply Hdur.
  - constructor.
  - constructor.
Qed.

(** C6 (the part the code keeps): when the queue-depth intervals come in
    order of start and none ends before it starts, as they do for device
    durations that are not negative, the idle intervals, the two boundary
    intervals included, are pairwise disjoint. *)
Theorem idle_intervals_pairwise_disjoint (self : BasicEvaluation) :
  StronglySorted (fun a b => start a <= start b) (self_queue_depth_list self) ->
  Forall (fun i => start i <= end_ i) (self_queue_depth_list self) ->
  pairwise_disjoint (idle_intervals_of self).
Proof.
  intros Hsorted Hwf. by apply separated_disjoint, idle_intervals_separated.
Qed.

(** The same for every object that [__init__] builds from a trace whose
    device durations are not negative. *)
Lemma init_idle_intervals_disjoint prof kr self :
  kineto_results prof = Some kr ->
  Forall (fun e => 0 <= Kineto.duration_us e) (events kr) ->
  BasicEvaluation_init prof = Ok self ->
  pairwise_disjoint (idle_intervals_of self).
Proof.
  intros Hkr Hdur. unfold BasicEvaluation_init.
  destruct (compute_self_time prof []) as [metrics|]; [|discriminate]. simpl.
  destruct (compute_queue_depth _) as [[self1 qdl]|] eqn:Hqd; [|discriminate].
  simpl. intros [= <-].
  eapply compute_queue_depth_timeline in Hqd as [Hsorted Hwf];
    [|simpl; exact Hkr|exact Hdur].
  by apply separated_disjoint, idle_intervals_separated.
Qed.

End IdleDisjoint.

Lemma idle_intervals_pairwise_disjoint_witness :
  pairwise_disjoint
    (idle_intervals_of (defaults := torch_defaults)
       {| self_profile := two_kernel_profile;
          self_metrics := [];
          self_event_keys := [mkEvent 1 "aten::linear" 9000 30000 21000 []];
          self_events := [mkEvent 1 "aten::linear" 9000 30000 21000 []];
          self_mlu_events := [];
          self_queue_depth_list :=
            [mkInterval 10000 11000 1; mkInterval 12000 17000 0;
             mkInterval 20000 21000 1; mkInterval 22000 27000 0] |}).
Proof.
  apply (@idle_intervals_pairwise_disjoint torch_defaults).
  - simpl. repeat constructor; simpl; lia.
  - simpl. repeat constructor; simpl; lia.
Defined.

(** C6 as the specification words it fails: with the launch at 10us and the
    kernel running from 12us to 17us, the instant 13000ns lies in the device
    range, in no idle interval, and in no span of positive queue depth. *)
Lemma idle_and_busy_spans_leave_a_gap :
  exists self,
    BasicEvaluation_init (defaults := torch_defaults) launch_kernel_profile = Ok self
    /\ self_queue_depth_list self
       = [mkInterval 10000 11000 1; mkInterval 12000 17000 0]
    /\ idle_intervals_of (defaults := torch_defaults) self
       = [mkInterval 9000 10000 0; mkInterval 17000 18000 0]
    /\ in_device_range (self_queue_depth_list self) 13000
    /\ ~ in_idle (idle_intervals_of (defaults := torch_defaults) self) 13000
    /\ ~ in_busy_span (self_queue_depth_list self) 13000.
Proof.
  eexists. split; [vm_compute; reflexivity|]. simpl self_queue_depth_list.
  split; [reflexivity|]. split; [reflexivity|]. split; [|split].
  - simpl. lia.
  - intros (i & Hi & Hin). vm_compute in Hi. unfold in_interval in Hin.
    repeat (apply elem_of_cons in Hi as [->|Hi]; [simpl in Hin; lia|]).
    inversion Hi.
  - intros (k & a & Hk & Hpos & Hstart & Hcase).
    destruct k as [|[|k]]; simpl in Hk; inversion Hk; subst; simpl in *.
    + destruct Hcase as [?|(b & Hb & ?)]; [lia|]. inversion Hb; subst.
      simpl in *. lia.
    + lia.
Qed.

(** ** rank_events *)

Lemma slice_to_zero {A} (l : list A) : slice_to l 0 = [].
Proof. reflexivity. Qed.

Lemma slice_to_all {A} (l : list A) (n : Z) :
  Z.of_nat (length l) <= n -> slice_to l n = l.
Proof.
  intros Hn. unfold slice_to.
  replace (0 <=? n) with true by (symmetry; apply Z.leb_le; lia).
  apply firstn_all2. lia.
Qed.

Lemma slice_to_length {A} (l : list A) (n : Z) :
  0 <= n -> length (slice_to l n) = Nat.min (Z.to_nat n) (length l).
Proof.
  intros Hn. unfold slice_to.
  replace (0 <=? n) with true by (symmetry; apply Z.leb_le; lia).
  apply length_take.
Qed.

Lemma slice_to_subseteq {A} (l : list A) (n : Z) : slice_to l n ⊆ l.
Proof.
  unfold slice_to. destruct (0 <=? n); intros x Hx;
    by apply elem_of_take in Hx as (i & Hi & _);
       apply list_elem_of_lookup_2 in Hi.
Qed.

Section RankFacts.

Context {defaults : Defaults} {torch : Float32}.

Lemma insert_desc_perm {A} (x : float32 * A) l : insert_desc x l ≡ₚ x :: l.
Proof.
  induction l as [|y l IH]; simpl; [done|].
  destruct (flt (fst x) (fst y)); [|done]. rewrite IH. apply perm_swap.
Qed.

Lemma sorted_reverse_perm {A} (l : list (float32 * A)) : sorted_reverse l ≡ₚ l.
Proof.
  induction l as [|x l IH]; simpl; [done|].
  rewrite insert_desc_perm. by constructor.
Qed.

(** The order is descending as soon as [<] on the scores at hand is
    asymmetric and its negation is transitive. *)
Lemma insert_desc_sorted {A} (scores : list float32) (x : float32 * A) l :
  (forall a b, a ∈ scores -> b ∈ scores -> flt a b = true -> flt b a = false) ->
  (forall a b c, a ∈ scores -> b ∈ scores -> c ∈ scores ->
                 flt a b = false -> flt b c = false -> flt a c = false) ->
  fst x ∈ scores ->
  Forall (fun y => fst y ∈ scores) l ->
  StronglySorted (fun a b => flt (fst a) (fst b) = false) l ->
  StronglySorted (fun a b => flt (fst a) (fst b) = false) (insert_desc x l).
Proof.
  intros Hasym Htrans Hx Hl Hsorted.
  induction Hsorted as [|y l Hs IH Hy]; simpl.
  - repeat constructor.
  - inversion Hl as [|? ? Hyin Hlin]; subst.
    destruct (flt (fst x) (fst y)) eqn:Hxy.
    + constructor; [by apply IH|].
      rewrite insert_desc_perm. constructor; [by apply Hasym | done].
    + constructor; [by constructor|]. constructor; [done|].
      rewrite Forall_forall in Hy, Hlin. apply Forall_forall. intros z Hz.
      apply (Htrans _ (fst y)); auto.
Qed.

Lemma sorted_reverse_sorted {A} (l : list (float32 * A)) :
  (forall a b, a ∈ map fst l -> b ∈ map fst l ->
               flt a b = true -> flt b a = false) ->
  (forall a b c, a ∈ map fst l -> b ∈ map fst l -> c ∈ map fst l ->
                 flt a b = false -> flt b c = false -> flt a c = false) ->
  StronglySorted (fun a b => flt (fst a) (fst b) = false) (sorted_reverse l).
Proof.
  intros Hasym Htrans.
  assert (forall k, k ⊆ l ->
            StronglySorted (fun a b => flt (fst a) (fst b) = false)
                           (sorted_reverse k)) as Hall.
  { induction k as [|x k IH]; intros Hk; simpl; [constructor|].
    apply (insert_desc_sorted (map fst l)); [done | done | | |].
    - apply list_elem_of_fmap_2. apply Hk. left.
    - apply Forall_forall. intros y Hy. rewrite sorted_reverse_perm in Hy.
      apply list_elem_of_fmap_2. apply Hk. by right.
    - apply IH. intros y Hy. apply Hk. by right. }
  by apply Hall.
Qed.

Lemma heuristic_score_list_length event_list :
  length (heuristic_score_list event_list) = length event_list.
Proof.
  unfold heuristic_score_list, standardize.
  rewrite length_zip_with, !length_map. lia.
Qed.

Lemma scored_survivors_keys self :
  map snd (scored_survivors self) = map fst (survivors self).
Proof.
  unfold scored_survivors. apply snd_zip.
  rewrite heuristic_score_list_length, length_map. lia.
Qed.

Lemma scored_survivors_scores self :
  map fst (scored_survivors self) = heuristic_score_list (survivors self).
Proof.
  unfold scored_survivors. apply fst_zip.
  rewrite heuristic_score_list_length, length_map. lia.
Qed.

(** What [rank_events] returns, in one equation. *)
Lemma rank_events_spec self length_ :
  rank_events self length_
  = slice_to (map snd (sorted_reverse (scored_survivors self))) length_.
Proof.
  unfold rank_events, scored_survivors.
  destruct (survivors self) as [|p l]; [|done].
  simpl. unfold slice_to. by destruct (0 <=? length_); rewrite take_nil.
Qed.

Lemma ranked_keys self :
  map snd (sorted_reverse (scored_survivors self)) ≡ₚ map fst (survivors self).
Proof.
  rewrite <- scored_survivors_keys. apply Permutation_map, sorted_reverse_perm.
Qed.

End RankFacts.

Lemma find_peak_next_minimum qd_values (i : nat) js peak_idx next_minimum_idx :
  Forall (fun j => (i <= j)%nat) js ->
  find_peak qd_values js = Some (peak_idx, next_minimum_idx) ->
  (i <= default i next_minimum_idx)%nat.
Proof.
  induction 1 as [|j js Hj _ IH]; simpl; [discriminate|].
  destruct (argmax qd_values j _) as [p|]; [|exact IH].
  destruct (top_threashold <=? qd_values !!! p); [|exact IH].
  intros [= _ <-].
  destruct (index_of_first_match qd_values _ j) as [k|] eqn:Hk; simpl; [|lia].
  apply index_of_first_match_Some in Hk as (Hjk & _). lia.
Qed.

Section RankClaims.

Context {defaults : Defaults} {torch : Float32}.

(** The loop leaves through its own test: a larger budget changes
    nothing. *)
Lemma decrease_loop_budget queue_depth_list qd_values budget :
  forall extra i decrease_interval,
    (length qd_values - i <= budget)%nat ->
    decrease_loop (budget + extra) queue_depth_list qd_values i decrease_interval
    = decrease_loop budget queue_depth_list qd_values i decrease_interval.
Proof.
  induction budget as [|budget IH]; intros extra i acc Hbudget.
  - simpl. destruct extra as [|extra]; [done|]. simpl.
    replace (i <? length qd_values)%nat with false; [done|].
    symmetry. apply Nat.ltb_ge. lia.
  - simpl. destruct (i <? length qd_values)%nat eqn:Hi; [|done].
    destruct (bottom_threashold <? qd_values !!! i).
    + apply IH. lia.
    + destruct (find_peak qd_values _) as [[p nm]|] eqn:Hpeak.
      * apply IH.
        apply (find_peak_next_minimum _ (S i)) in Hpeak.
        -- destruct nm as [k|]; simpl in *; lia.
        -- apply Forall_forall. intros j Hj. apply elem_of_seq in Hj. lia.
      * apply IH. lia.
Qed.

Lemma rank_events_single self p length_ :
  survivors self = [p] -> 1 <= length_ -> rank_events self length_ = [fst p].
Proof.
  intros Hp Hn. unfold rank_events. rewrite Hp.
  unfold heuristic_score_list, standardize. simpl.
  apply slice_to_all. simpl. lia.
Qed.

Lemma heuristic_score_lookup event_list (i : nat) p :
  event_list !! i = Some p ->
  heuristic_score_list event_list !! i
  = Some (fadd
            (fdiv (fsub (tensor_fraction_idle_time (snd p))
                        (torch_mean (map (fun q => tensor_fraction_idle_time (snd q))
                                         event_list)))
                  (torch_std (map (fun q => tensor_fraction_idle_time (snd q))
                                  event_list)))
            (fmul_0_6
               (fdiv (fsub (tensor_int (self_time_ns (snd p)))
                           (torch_mean (map (fun q => tensor_int (self_time_ns (snd q)))
                                            event_list)))
                     (torch_std (map (fun q => tensor_int (self_time_ns (snd q)))
                                     event_list))))).
Proof.
  intros Hp. unfold heuristic_score_list, standardize.
  rewrite lookup_zip_with, !list_lookup_fmap, Hp. reflexivity.
Qed.

(** C8: [rank_events(0)] is empty; for [N] at least the number of
    survivors, [rank_events(N)] is the whole list of survivors, ordered by
    the stable descending sort on the heuristic score
    [z(fraction_idle_time) + 0.6 * z(self_time_ns)], both standardized over
    the survivors.  The order is descending whenever [<] on the scores at
    hand is asymmetric and its negation transitive (no NaN among them). *)
Theorem rank_events_all_sorted (self : BasicEvaluation) :
  rank_events self 0 = []
  /\ (forall (i : nat) p,
        survivors self !! i = Some p ->
        heuristic_score_list (survivors self) !! i
        = Some (fadd
                  (fdiv (fsub (tensor_fraction_idle_time (snd p))
                              (torch_mean (map (fun q => tensor_fraction_idle_time (snd q))
                                               (survivors self))))
                        (torch_std (map (fun q => tensor_fraction_idle_time (snd q))
                                        (survivors self))))
                  (fmul_0_6
                     (fdiv (fsub (tensor_int (self_time_ns (snd p)))
                                 (torch_mean (map (fun q => tensor_int (self_time_ns (snd q)))
                                                  (survivors self))))
                           (torch_std (map (fun q => tensor_int (self_time_ns (snd q)))
                                           (survivors self)))))))
  /\ forall N : Z,
       Z.of_nat (length (survivors self)) <= N ->
       rank_events self N = map snd (sorted_reverse (scored_survivors self))
       /\ sorted_reverse (scored_survivors self) ≡ₚ scored_survivors self
       /\ rank_events self N ≡ₚ map fst (survivors self)
       /\ ((forall a b,
              a ∈ heuristic_score_list (survivors self) ->
              b ∈ heuristic_score_list (survivors self) ->
              flt a b = true -> flt b a = false) ->
           (forall a b c,
              a ∈ heuristic_score_list (survivors self) ->
              b ∈ heuristic_score_list (survivors self) ->
              c ∈ heuristic_score_list (survivors self) ->
              flt a b = false -> flt b c = false -> flt a c = false) ->
           StronglySorted (fun a b => flt (fst a) (fst b) = false)
                          (sorted_reverse (scored_survivors self))).
Proof.
  split; [by rewrite rank_events_spec, slice_to_zero|].
  split; [intros i p; apply heuristic_score_lookup|].
  intros N HN.
  assert (rank_events self N = map snd (sorted_reverse (scored_survivors self)))
    as Hall.
  { rewrite rank_events_spec. apply slice_to_all.
    rewrite length_map, sorted_reverse_perm.
    unfold scored_survivors.
    rewrite length_zip, heuristic_score_list_length, length_map. lia. }
  split; [done|]. split; [apply sorted_reverse_perm|]. split.
  - rewrite Hall. apply ranked_keys.
  - intros Hasym Htrans. apply sorted_reverse_sorted;
      rewrite scored_survivors_scores; done.
Qed.

(** C7 (as the code has it): only the empty set of survivors is guarded.
    Then no standardization is attempted and the result is empty.  In every
    other case, a single survivor included, the scores are computed and
    [rank_events(N)] returns [min(N, number of survivors)] survivors; a
    single survivor is returned as soon as [N >= 1]. *)
Theorem rank_events_guards_empty_only (self : BasicEvaluation) (N : Z) :
  (survivors self = [] -> rank_events self N = [])
  /\ (0 <= N ->
      length (rank_events self N)
      = Nat.min (Z.to_nat N) (length (survivors self)))
  /\ rank_events self N ⊆ map fst (survivors self)
  /\ (forall p, survivors self = [p] -> 1 <= N -> rank_events self N = [fst p]).
Proof.
  split; [|split; [|split]].
  - intros Hnil. unfold rank_events. by rewrite Hnil.
  - intros HN. rewrite rank_events_spec, slice_to_length by done.
    rewrite length_map, sorted_reverse_perm.
    unfold scored_survivors.
    rewrite length_zip, heuristic_score_list_length, length_map. lia.
  - rewrite rank_events_spec. intros e He.
    apply slice_to_subseteq in He. by rewrite ranked_keys in He.
  - intros p Hp HN. by apply rank_events_single.
Qed.

End RankClaims.

Lemma rank_events_guards_empty_only_witness :
  rank_events (defaults := torch_defaults) (torch := Binary32.ops)
    (evaluation_of launch_kernel_profile) 3 = []
  /\ length (rank_events (defaults := torch_defaults) (torch := Binary32.ops)
               (evaluation_of family_profile) 1) = 1%nat
  /\ rank_events (defaults := torch_defaults) (torch := Binary32.ops)
       (evaluation_of lone_profile) 1 = [lone_event].
Proof.
  split; [|split].
  - apply (proj1 (@rank_events_guards_empty_only torch_defaults Binary32.ops
                    (evaluation_of launch_kernel_profile) 3)).
    reflexivity.
  - apply (proj1 (proj2 (@rank_events_guards_empty_only torch_defaults
                           Binary32.ops (evaluation_of family_profile) 1))).
    lia.
  - apply (proj2 (proj2 (proj2 (@rank_events_guards_empty_only torch_defaults
                                  Binary32.ops (evaluation_of lone_profile) 1)))
             (lone_event, mkEventMetrics 51000 51000 6000 0)).
    + reflexivity.
    + lia.
Defined.

(** C7 as the specification words it fails: with a single surviving event
    the sample is degenerate (its standard deviation is not a number), and
    [rank_events(1)] still returns that event, whatever the tensor
    arithmetic. *)
Lemma single_survivor_is_ranked :
  map fst (survivors (defaults := torch_defaults) (evaluation_of lone_profile))
  = [lone_event]
  /\ heuristic_score_list (torch := Binary32.ops)
       (survivors (defaults := torch_defaults) (evaluation_of lone_profile))
     = [SpecFloat.S754_nan]
  /\ (forall torch : Float32,
        rank_events (defaults := torch_defaults) (torch := torch)
          (evaluation_of lone_profile) 1 = [lone_event])
  /\ rank_events (defaults := torch_defaults) (torch := Binary32.ops)
       (evaluation_of lone_profile) 1 <> [].
Proof.
  split; [reflexivity|]. split; [reflexivity|]. split.
  - intros torch.
    apply (rank_events_single (evaluation_of lone_profile)
             (lone_event, mkEventMetrics 51000 51000 6000 0));
      [reflexivity | lia].
  - rewrite (rank_events_single (evaluation_of lone_profile)
               (lone_event, mkEventMetrics 51000 51000 6000 0));
      [discriminate | reflexivity | lia].
Qed.

Lemma rank_events_all_sorted_witness :
  rank_events (defaults := torch_defaults) (torch := Binary32.ops)
    (evaluation_of family_profile) 0 = []
  /\ rank_events (defaults := torch_defaults) (torch := Binary32.ops)
       (evaluation_of family_profile) 5
     ≡ₚ [outer_event; inner_event]
  /\ StronglySorted (fun a b => flt (Float32 := Binary32.ops) (fst a) (fst b) = false)
       (sorted_reverse (torch := Binary32.ops)
          (scored_survivors (defaults := torch_defaults) (torch := Binary32.ops)
             (evaluation_of family_profile))).
Proof.
  destruct (@rank_events_all_sorted torch_defaults Binary32.ops
              (evaluation_of family_profile)) as (Hzero & _ & Hall).
  destruct (Hall 5) as (_ & _ & Hperm & Hsorted).
  { vm_compute. discriminate. }
  split; [exact Hzero|]. split; [exact Hperm|].
  apply Hsorted.
  - intros a b Ha Hb. vm_compute in Ha, Hb.
    repeat (apply elem_of_cons in Ha as [->|Ha]);
      repeat (apply elem_of_cons in Hb as [->|Hb]);
      try (by inversion Ha); try (by inversion Hb); vm_compute; congruence.
  - intros a b c Ha Hb Hc. vm_compute in Ha, Hb, Hc.
    repeat (apply elem_of_cons in Ha as [->|Ha]);
      repeat (apply elem_of_cons in Hb as [->|Hb]);
      repeat (apply elem_of_cons in Hc as [->|Hc]);
      try (by inversion Ha); try (by inversion Hb); try (by inversion Hc);
      vm_compute; congruence.
Defined.

(** The order of the example: the root comes before its child. *)
Example family_ranking :
  map name (rank_events (defaults := torch_defaults) (torch := Binary32.ops)
              (evaluation_of family_profile) 5)
  = ["aten::linear"; "aten::mm"]%string.
Proof. reflexivity. Qed.

(** ** The whole of [__init__] *)

Lemma sweep_keys kernels mapping all_events : forall s s',
  sweep kernels mapping all_events s = Ok s' ->
  metrics_keys (sweep_metrics s') = metrics_keys (sweep_metrics s).
Proof.
  induction all_events as [|a rest IH]; intros s s' Hrun; simpl in Hrun.
  - by inversion Hrun.
  - destruct (sweep_step kernels mapping s a) as [s1|] eqn:Hstep; [|discriminate].
    simpl in Hrun. rewrite (IH _ _ Hrun).
    unfold sweep_step in Hstep. destruct a as [d|c].
    + by inversion Hstep.
    + destruct (metrics_mem c (sweep_metrics s)); [|discriminate].
      inversion Hstep; subst. simpl. apply metrics_keys_alter.
Qed.

Lemma metrics_get_entry (m : Metrics) k r :
  NoDup (map id (metrics_keys m)) -> (k, r) ∈ m -> metrics_get k m = Some r.
Proof.
  unfold metrics_get, metrics_keys. induction m as [|p m IH]; intros Hnd Hin.
  - inversion Hin.
  - simpl in Hnd. inversion Hnd as [|? ? Hp Hm]; subst.
    apply elem_of_cons in Hin as [<-|Hin]; simpl.
    + by rewrite same_key_refl.
    + destruct (same_key k p) eqn:Hk; [|by apply IH].
      exfalso. apply Hp. unfold same_key in Hk. apply Z.eqb_eq in Hk.
      rewrite Hk. apply list_elem_of_fmap_2.
      by apply (list_elem_of_fmap_2 fst) in Hin.
Qed.

Lemma Forall_metrics_alter (P : EventMetrics -> Prop) f e (m : Metrics) :
  (forall r, P r -> P (f r)) ->
  Forall (fun p => P (snd p)) m ->
  Forall (fun p => P (snd p)) (metrics_alter f e m).
Proof.
  intros Hf. induction 1 as [|p m Hp Hm IH]; simpl; [constructor|].
  destruct (same_key e p); constructor; simpl; auto.
Qed.

Lemma write_idle_keeps_depths (g : Event -> Z) (keys : list Event) :
  forall m : Metrics,
    Forall (fun p => 0 <= queue_depth_m (snd p)) m ->
    Forall (fun p => 0 <= queue_depth_m (snd p))
           (fold_left (fun m e => metrics_alter (set_idle_time_ns (g e)) e m)
                      keys m).
Proof.
  induction keys as [|k keys IH]; intros m Hall; simpl; [done|].
  apply IH. by apply (Forall_metrics_alter (fun r => 0 <= queue_depth_m r)).
Qed.

Section InitFacts.

Context {defaults : Defaults}.

(** On a well-formed tree [__init__] builds the object: no pass aborts. *)
Lemma BasicEvaluation_init_returns prof kr :
  kineto_results prof = Some kr ->
  well_formed_forest (experimental_event_tree kr) ->
  exists self, BasicEvaluation_init prof = Ok self.
Proof.
  intros Hkr Hwf. unfold BasicEvaluation_init.
  rewrite (compute_self_time_spec _ _ _ Hkr).
  rewrite record_all_fresh; [| |done].
  2:{ unfold well_formed_forest in Hwf. by rewrite visit_stack_perm. }
  simpl. unfold compute_queue_depth. simpl. rewrite Hkr.
  edestruct sweep_total as [s ->]; [|simpl; by eexists].
  intros e He. simpl. apply Cpu_in_all_events in He.
  rewrite sorted_perm in He. apply metrics_mem_true.
  by apply list_elem_of_fmap_2.
Qed.

(** Every record of an object built by [__init__] holds a depth that is not
    negative, and so does every interval of its timeline. *)
Lemma init_depths_nonneg prof self :
  BasicEvaluation_init prof = Ok self ->
  Forall (fun i => 0 <= queue_depth i) (self_queue_depth_list self)
  /\ Forall (fun p => 0 <= queue_depth_m (snd p)) (self_metrics self).
Proof.
  unfold BasicEvaluation_init.
  destruct (compute_self_time prof []) as [metrics|] eqn:Hself; [|discriminate].
  simpl. unfold compute_queue_depth. simpl.
  destruct (kineto_results prof) as [kr|] eqn:Hkr; [|discriminate].
  destruct (sweep _ _ _ _) as [s|] eqn:Hrun; [|discriminate].
  simpl. intros [= <-]. simpl.
  rewrite (compute_self_time_spec _ _ _ Hkr) in Hself.
  apply record_all_ok in Hself as (Hm & Hnd & _). simpl in Hm.
  assert (NoDup (map id (metrics_keys metrics))) as Hkeys.
  { rewrite Hm. unfold metrics_keys. rewrite !map_map. simpl. exact Hnd. }
  pose proof (sweep_keys _ _ _ _ _ Hrun) as Hsame. simpl in Hsame.
  apply sweep_nonneg in Hrun as (_ & Hnew & Hlist). simpl in *.
  split; [apply Hlist; constructor|].
  assert (Forall (fun p => 0 <= queue_depth_m (snd p)) (sweep_metrics s)) as Hall.
  { apply Forall_forall. intros [k r] Hkr'.
    destruct (Hnew k) as (r' & Hr' & Hpos).
    - apply Cpu_in_all_events. rewrite sorted_perm, <- Hsame.
      by apply (list_elem_of_fmap_2 fst) in Hkr'.
    - rewrite (metrics_get_entry _ k r) in Hr'; [|by rewrite Hsame|done].
      by inversion Hr'; subst. }
  by apply write_idle_keeps_depths.
Qed.

End InitFacts.

(** ** The event-tree walker *)

Lemma forest_size_cons e l :
  forest_size (e :: l) = S (forest_size (children e) + forest_size l).
Proof. unfold forest_size. simpl. rewrite event_size_unfold. lia. Qed.

Lemma forest_nodes_app l1 l2 :
  forest_nodes (l1 ++ l2) = forest_nodes l1 ++ forest_nodes l2.
Proof. unfold forest_nodes. by rewrite map_app, concat_app. Qed.

Lemma forest_nodes_cons e l :
  forest_nodes (e :: l) = e :: forest_nodes (children e) ++ forest_nodes l.
Proof. unfold forest_nodes. simpl. by rewrite subtree_unfold. Qed.

Lemma traverse_dfs_loop budget : forall stack,
  (forest_size stack <= budget)%nat ->
  traverse_loop budget pop children true (rev stack) = forest_nodes stack.
Proof.
  induction budget as [|budget IH]; intros [|curr rest] Hsize; simpl.
  - done.
  - rewrite forest_size_cons in Hsize. lia.
  - done.
  - rewrite forest_size_cons in Hsize.
    rewrite rev_app_distr, rev_involutive. simpl.
    rewrite <- rev_app_distr, IH.
    + by rewrite forest_nodes_cons, forest_nodes_app.
    + rewrite forest_size_app. lia.
Qed.

(** X1: the depth-first walk yields every node of the forest once, a parent
    before its children and the children from left to right. *)
Theorem traverse_dfs_preorder (tree : list Event) :
  traverse_dfs tree = forest_nodes tree.
Proof.
  unfold traverse_dfs, _traverse. simpl. by apply traverse_dfs_loop.
Qed.

Lemma traverse_bfs_budget budget : forall extra queue,
  (forest_size queue <= budget)%nat ->
  traverse_loop (budget + extra) popleft children false queue
  = traverse_loop budget popleft children false queue.
Proof.
  induction budget as [|budget IH]; intros extra [|e queue] Hsize; simpl.
  - by destruct extra.
  - rewrite forest_size_cons in Hsize. lia.
  - done.
  - f_equal. apply IH. rewrite forest_size_cons in Hsize.
    rewrite forest_size_app. lia.
Qed.

Lemma traverse_bfs_level level : forall budget rest,
  (forest_size (level ++ rest) <= budget)%nat ->
  traverse_loop budget popleft children false (level ++ rest)
  = level
    ++ traverse_loop (budget - length level) popleft children false
         (rest ++ concat (map children level)).
Proof.
  induction level as [|e level IH]; intros budget rest Hsize; simpl.
  - by rewrite Nat.sub_0_r, app_nil_r.
  - change ((e :: level) ++ rest) with (e :: (level ++ rest)) in Hsize.
    rewrite forest_size_cons in Hsize.
    destruct budget as [|budget]; [lia|]. simpl. f_equal.
    rewrite <- app_assoc, IH.
    + by rewrite <- app_assoc.
    + rewrite !forest_size_app in *. lia.
Qed.

Lemma forest_size_children level :
  forest_size level
  = (length level + forest_size (concat (map children level)))%nat.
Proof.
  induction level as [|e level IH]; [done|].
  rewrite forest_size_cons. simpl. rewrite forest_size_app. lia.
Qed.

Lemma traverse_bfs_perm budget : forall queue,
  (forest_size queue <= budget)%nat ->
  traverse_loop budget popleft children false queue ≡ₚ forest_nodes queue.
Proof.
  induction budget as [|budget IH]; intros [|e queue] Hsize; simpl.
  - done.
  - rewrite forest_size_cons in Hsize. lia.
  - done.
  - rewrite forest_size_cons in Hsize.
    rewrite IH by (rewrite forest_size_app; lia).
    rewrite forest_nodes_cons, forest_nodes_app.
    constructor. apply Permutation_app_comm.
Qed.

(** X2: the breadth-first walk yields the forest level by level: first the
    roots in order, then the walk of all their children; every node of the
    forest is yielded once. *)
Theorem traverse_bfs_level_order (tree : list Event) :
  traverse_bfs tree = tree ++ traverse_bfs (concat (map children tree))
  /\ traverse_bfs tree ≡ₚ forest_nodes tree.
Proof.
  unfold traverse_bfs, _traverse. simpl. split.
  - rewrite <- (app_nil_r tree) at 2.
    rewrite traverse_bfs_level by (by rewrite app_nil_r).
    simpl. rewrite (forest_size_children tree) at 1.
    by rewrite Nat.add_comm, Nat.add_sub.
  - by apply traverse_bfs_perm.
Qed.

(** ** When compute_queue_depth returns *)

Lemma sweep_ok_mem kernels mapping all_events : forall s s',
  sweep kernels mapping all_events s = Ok s' ->
  forall e, Cpu e ∈ all_events -> metrics_mem e (sweep_metrics s) = true.
Proof.
  induction all_events as [|a rest IH]; intros s s' Hrun e He.
  - inversion He.
  - simpl in Hrun.
    destruct (sweep_step kernels mapping s a) as [s1|] eqn:Hstep; [|discriminate].
    simpl in Hrun. unfold sweep_step in Hstep.
    apply elem_of_cons in He as [<-|He].
    + by destruct (metrics_mem e (sweep_metrics s)).
    + specialize (IH _ _ Hrun e He). destruct a as [d|c].
      * by inversion Hstep; subst.
      * destruct (metrics_mem c (sweep_metrics s)); [|discriminate].
        inversion Hstep; subst. simpl in IH. by rewrite metrics_mem_alter in IH.
Qed.

Lemma sweep_raise kernels mapping all_events : forall s err,
  sweep kernels mapping all_events s = Raise err ->
  exists e,
    Cpu e ∈ all_events
    /\ metrics_mem e (sweep_metrics s) = false
    /\ err = KeyError (id e).
Proof.
  induction all_events as [|a rest IH]; intros s err Hrun; simpl in Hrun.
  - discriminate.
  - destruct (sweep_step kernels mapping s a) as [s1|err1] eqn:Hstep;
      simpl in Hrun; unfold sweep_step in Hstep.
    + apply IH in Hrun as (e & He & Hmem & ->).
      exists e. split; [by right|]. split; [|done].
      destruct a as [d|c].
      * by inversion Hstep; subst.
      * destruct (metrics_mem c (sweep_metrics s)); [|discriminate].
        inversion Hstep; subst. simpl in Hmem.
        by rewrite metrics_mem_alter in Hmem.
    + destruct a as [d|c]; [discriminate|].
      destruct (metrics_mem c (sweep_metrics s)) eqn:Hmem; [discriminate|].
      inversion Hstep; subst. inversion Hrun; subst.
      exists c. split; [left | done].
Qed.

(** X3: with the trace results at hand, [compute_queue_depth] returns
    exactly when every event of [self.events] has a record in
    [self.metrics]; otherwise it stops with the [KeyError] of an event that
    has none. *)
Theorem compute_queue_depth_returns_iff (self : BasicEvaluation)
    (kr : KinetoResults) :
  kineto_results (self_profile self) = Some kr ->
  ((exists r, compute_queue_depth self = Ok r)
   <-> forall e, e ∈ self_events self -> metrics_mem e (self_metrics self) = true)
  /\ forall err,
       compute_queue_depth self = Raise err ->
       exists e,
         e ∈ self_events self
         /\ metrics_mem e (self_metrics self) = false
         /\ err = KeyError (id e).
Proof.
  intros Hkr. unfold compute_queue_depth. rewrite Hkr. split; [split|].
  - intros [r Hr] e He.
    destruct (sweep _ _ _ _) as [s|] eqn:Hrun; [|discriminate].
    apply (sweep_ok_mem _ _ _ _ _ Hrun e). by apply Cpu_in_all_events.
  - intros Hmem.
    edestruct (sweep_total (mlu_kernel_events_of kr)
                 (fst (correlate (mlu_kernel_events_of kr)
                                 (mlu_launch_events_of kr)))
                 (all_events_of kr (self_events self))) as [s Hs].
    2:{ rewrite Hs. simpl. by eexists. }
    intros e He. simpl. apply Hmem. by apply Cpu_in_all_events in He.
  - intros err Hrun.
    destruct (sweep _ _ _ _) as [s|err'] eqn:Hsweep; [discriminate|].
    simpl in Hrun. inversion Hrun; subst.
    apply sweep_raise in Hsweep as (e & He & Hmem & ->).
    exists e. split; [by apply Cpu_in_all_events in He | done].
Qed.

Lemma compute_queue_depth_returns_iff_witness :
  ((exists r, compute_queue_depth launch_kernel_self = Ok r)
   <-> forall e, e ∈ cpu_trace ->
         metrics_mem e (self_metrics launch_kernel_self) = true)
  /\ forall err,
       compute_queue_depth launch_kernel_self = Raise err ->
       exists e,
         e ∈ cpu_trace
         /\ metrics_mem e (self_metrics launch_kernel_self) = false
         /\ err = KeyError (id e).
Proof.
  apply (compute_queue_depth_returns_iff launch_kernel_self launch_kernel_results).
  reflexivity.
Defined.

(** ** The kernel mapping *)

Lemma correlate_step_cursor kernels st l :
  (snd st <= snd (correlate_step kernels st l))%nat.
Proof.
  destruct st as [mapping cursor]. unfold correlate_step. simpl.
  destruct (index_of_first_match kernels _ cursor) as [i|] eqn:Hi; simpl; [|done].
  by apply index_of_first_match_Some in Hi as (? & _).
Qed.

Lemma correlate_cursor_mono kernels ls : forall st,
  (snd st <= snd (fold_left (correlate_step kernels) ls st))%nat.
Proof.
  induction ls as [|l ls IH]; intros st; simpl; [done|].
  etransitivity; [apply (correlate_step_cursor kernels st l) | apply IH].
Qed.

(** What the mapping holds for a launch is what its own round stored. *)
Lemma correlate_lookup (kr : KinetoResults) pre l post :
  mlu_launch_events_of kr = pre ++ l :: post ->
  fst (correlate (mlu_kernel_events_of kr) (mlu_launch_events_of kr)) !! fst l
  = Some (index_of_first_match (mlu_kernel_events_of kr)
            (fun x => dev_correlation x =? dev_correlation l)
            (snd (fold_left (correlate_step (mlu_kernel_events_of kr)) pre
                            (∅, 0%nat)))).
Proof.
  intros Hsplit. unfold correlate. rewrite Hsplit, fold_left_app. simpl.
  rewrite correlate_later_launches.
  - destruct (fold_left _ pre _) as [mapping cursor]. simpl.
    apply lookup_insert_eq.
  - pose proof (mlu_launch_events_NoDup kr) as Hnd.
    rewrite Hsplit, map_app in Hnd. simpl in Hnd.
    apply NoDup_app in Hnd as (_ & _ & Hnd). by apply NoDup_cons_1_1 in Hnd.
Qed.

(** X4: every launch has an entry in the kernel mapping, and an entry that
    holds an index points at a kernel event with the correlation id of the
    launch. *)
Theorem kernel_mapping_sound (kr : KinetoResults) (l : DevEvent) :
  l ∈ mlu_launch_events_of kr ->
  exists index,
    fst (correlate (mlu_kernel_events_of kr) (mlu_launch_events_of kr)) !! fst l
    = Some index
    /\ forall i, index = Some i ->
         exists k, mlu_kernel_events_of kr !! i = Some k
                   /\ dev_correlation k = dev_correlation l.
Proof.
  intros Hl. apply list_elem_of_split in Hl as (pre & post & Hsplit).
  rewrite (correlate_lookup kr pre l post Hsplit).
  eexists. split; [reflexivity|].
  intros i Hi. apply index_of_first_match_Some in Hi as (_ & (k & Hk & Hc) & _).
  exists k. split; [done|]. by apply Z.eqb_eq.
Qed.

Lemma kernel_mapping_sound_witness :
  exists index,
    fst (correlate (mlu_kernel_events_of launch_kernel_results)
                   (mlu_launch_events_of launch_kernel_results)) !! 0%nat
    = Some index
    /\ forall i, index = Some i ->
         exists k, mlu_kernel_events_of launch_kernel_results !! i = Some k
                   /\ dev_correlation k = dev_correlation (0%nat, launch_10).
Proof.
  apply (kernel_mapping_sound launch_kernel_results (0%nat, launch_10)).
  vm_compute. left.
Defined.

(** X5: the search cursor only moves forward: of two launches, the later one
    (in order of start) is never mapped to a kernel that stands before the
    kernel of the earlier one. *)
Theorem kernel_mapping_monotone (kr : KinetoResults)
    (pre mid post : list DevEvent) (l1 l2 : DevEvent) (i j : nat) :
  mlu_launch_events_of kr = pre ++ l1 :: mid ++ l2 :: post ->
  fst (correlate (mlu_kernel_events_of kr) (mlu_launch_events_of kr)) !! fst l1
  = Some (Some i) ->
  fst (correlate (mlu_kernel_events_of kr) (mlu_launch_events_of kr)) !! fst l2
  = Some (Some j) ->
  (i <= j)%nat.
Proof.
  intros Hsplit H1 H2.
  rewrite (correlate_lookup kr pre l1 (mid ++ l2 :: post) Hsplit) in H1.
  assert (mlu_launch_events_of kr = (pre ++ l1 :: mid) ++ l2 :: post) as Hsplit2.
  { by rewrite Hsplit, <- app_assoc. }
  rewrite (correlate_lookup kr (pre ++ l1 :: mid) l2 post Hsplit2) in H2.
  inversion H1 as [H1']. inversion H2 as [H2']. clear H1 H2.
  apply index_of_first_match_Some in H2' as (Hj & _).
  etransitivity; [|exact Hj].
  rewrite fold_left_app. simpl.
  etransitivity; [|apply correlate_cursor_mono].
  destruct (fold_left _ pre _) as [mapping cursor]. unfold correlate_step.
  simpl in *. by rewrite H1'.
Qed.

Lemma kernel_mapping_monotone_witness :
  fst (correlate (mlu_kernel_events_of (evaluation_results two_kernel_profile))
         (mlu_launch_events_of (evaluation_results two_kernel_profile))) !! 0%nat
  = Some (Some 0%nat)
  /\ fst (correlate (mlu_kernel_events_of (evaluation_results two_kernel_profile))
            (mlu_launch_events_of (evaluation_results two_kernel_profile))) !! 2%nat
     = Some (Some 1%nat)
  /\ (0 <= 1)%nat.
Proof.
  split; [reflexivity|]. split; [reflexivity|].
  apply (kernel_mapping_monotone (evaluation_results two_kernel_profile)
           [] [] [] (0%nat, launch_10) (2%nat, launch_20) 0 1);
    reflexivity.
Defined.

(** ** Bounds on the queue depth *)

Lemma correlate_indices_bound kernels ls : forall st,
  (forall o i, fst st !! o = Some (Some i) -> (i < length kernels)%nat) ->
  forall o i,
    fst (fold_left (correlate_step kernels) ls st) !! o = Some (Some i) ->
    (i < length kernels)%nat.
Proof.
  induction ls as [|l ls IH]; intros st Hst; [exact Hst|].
  simpl. apply IH. intros o i. destruct st as [mapping cursor].
  unfold correlate_step. simpl.
  destruct (decide (fst l = o)) as [<-|Hne].
  - rewrite lookup_insert_eq. intros [= Hi].
    apply index_of_first_match_Some in Hi as (_ & (k & Hk & _) & _).
    by apply lookup_lt_Some in Hk.
  - rewrite lookup_insert_ne by done. apply Hst.
Qed.

Lemma sweep_depth_le kernels mapping (bound : Z) all_events : forall s s',
  (forall o i, mapping !! o = Some (Some i) -> Z.of_nat i < bound) ->
  0 <= bound ->
  sweep kernels mapping all_events s = Ok s' ->
  spawned_kernel_index s < bound ->
  Forall (fun i => queue_depth i <= bound) (sweep_queue_depth_list s) ->
  Forall (fun i => queue_depth i <= bound) (sweep_queue_depth_list s')
  /\ forall e, Cpu e ∈ all_events ->
       exists r, metrics_get e (sweep_metrics s') = Some r
                 /\ queue_depth_m r <= bound.
Proof.
  intros s s' Hmap Hbound. revert s s'.
  assert (forall s event s',
            sweep_step kernels mapping s event = Ok s' ->
            spawned_kernel_index s < bound ->
            spawned_kernel_index s' < bound
            /\ (Forall (fun i => queue_depth i <= bound) (sweep_queue_depth_list s) ->
                Forall (fun i => queue_depth i <= bound) (sweep_queue_depth_list s'))
            /\ (forall e r, metrics_get e (sweep_metrics s) = Some r ->
                   queue_depth_m r <= bound ->
                   exists r', metrics_get e (sweep_metrics s') = Some r'
                              /\ queue_depth_m r' <= bound)
            /\ (forall e, event = Cpu e ->
                   exists r', metrics_get e (sweep_metrics s') = Some r'
                              /\ queue_depth_m r' <= bound)) as Hstep.
  { intros s event s' Hrun Hsp.
    assert (spawn mapping event (spawned_kernel_index s) < bound) as Hsp'.
    { destruct event as [d|c]; simpl; [|done].
      destruct (mapping !! fst d) as [[i|]|] eqn:Hd; [|done..].
      by apply (Hmap (fst d)). }
    unfold sweep_step in Hrun. destruct event as [d|c].
    - inversion Hrun; subst. simpl. split; [done|]. split; [|split].
      + intros Hall. apply Forall_app. split; [done|].
        repeat constructor. simpl in *. lia.
      + eauto.
      + discriminate.
    - destruct (metrics_mem c (sweep_metrics s)) eqn:Hmem; [|discriminate].
      inversion Hrun; subst. simpl. split; [done|]. split; [done|]. split.
      + intros e r Hr Hle. rewrite metrics_get_alter, Hr.
        destruct (id c =? id e); simpl; eexists; (split; [reflexivity|]);
          simpl in *; lia.
      + intros e [= <-]. apply metrics_mem_get in Hmem as [r Hr].
        rewrite metrics_get_alter, Z.eqb_refl, Hr. simpl.
        eexists. split; [reflexivity|]. simpl in *. lia. }
  induction all_events as [|a rest IH]; intros s s' Hrun Hsp Hall; simpl in Hrun.
  - inversion Hrun; subst. split; [done|]. intros e He. inversion He.
  - destruct (sweep_step kernels mapping s a) as [s1|] eqn:Hs1; [|discriminate].
    simpl in Hrun.
    destruct (Hstep _ _ _ Hs1 Hsp) as (Hsp1 & Hall1 & Hkeep1 & Hnew1).
    destruct (IH _ _ Hrun Hsp1 (Hall1 Hall)) as (Hall' & Hnew').
    split; [done|]. intros e He.
    apply elem_of_cons in He as [<-|He]; [|by apply Hnew'].
    destruct (Hnew1 e eq_refl) as (r1 & Hr1 & Hle1).
    clear -Hstep Hrun Hr1 Hle1 Hsp1.
    revert s1 r1 Hrun Hr1 Hle1 Hsp1.
    induction rest as [|b rest IHrest]; intros s1 r1 Hrun Hr1 Hle1 Hsp1;
      simpl in Hrun.
    + inversion Hrun; subst. eauto.
    + destruct (sweep_step kernels mapping s1 b) as [s2|] eqn:Hs2; [|discriminate].
      simpl in Hrun.
      destruct (Hstep _ _ _ Hs2 Hsp1) as (Hsp2 & _ & Hkeep2 & _).
      destruct (Hkeep2 e r1 Hr1 Hle1) as (r2 & Hr2 & Hle2).
      by apply (IHrest s2 r2).
Qed.

(** X6: no queue depth exceeds the number of kernel events: every interval
    of the returned timeline and the record of every event of [self.events]
    hold a depth of at most [len(mlu_kernel_events)]. *)
Theorem compute_queue_depth_at_most_kernels (self self' : BasicEvaluation)
    (queue_depth_list : list Interval) (kr : KinetoResults) :
  kineto_results (self_profile self) = Some kr ->
  compute_queue_depth self = Ok (self', queue_depth_list) ->
  Forall (fun i => queue_depth i <= Z.of_nat (length (mlu_kernel_events_of kr)))
         queue_depth_list
  /\ forall e, e ∈ self_events self ->
       exists r, metrics_get e (self_metrics self') = Some r
                 /\ queue_depth_m r <= Z.of_nat (length (mlu_kernel_events_of kr)).
Proof.
  intros Hkr. unfold compute_queue_depth. rewrite Hkr.
  destruct (sweep _ _ _ _) as [s|] eqn:Hrun; [|discriminate].
  simpl. intros [= <- <-]. simpl.
  apply (sweep_depth_le _ _ (Z.of_nat (length (mlu_kernel_events_of kr))))
    in Hrun as [Hall Hnew]; simpl; try lia.
  - split; [done|]. intros e He. apply Hnew. by apply Cpu_in_all_events.
  - intros o i Hoi. apply Nat2Z.inj_lt.
    unfold correlate in Hoi.
    eapply correlate_indices_bound; [|exact Hoi].
    intros o' i' Hempty. simpl in Hempty. by rewrite lookup_empty in Hempty.
  - constructor.
Qed.

Lemma compute_queue_depth_at_most_kernels_witness :
  Forall (fun i => queue_depth i <= 1)
         [mkInterval 10000 11000 1; mkInterval 12000 17000 0]
  /\ forall e, e ∈ cpu_trace ->
       exists r,
         metrics_get e
           [(mkEvent 1 "aten::relu" 9000 9500 500 [], mkEventMetrics 500 500 0 0);
            (mkEvent 2 "aten::add" 10000 10400 400 [], mkEventMetrics 400 400 0 1);
            (mkEvent 3 "aten::mul" 11999 12100 101 [], mkEventMetrics 101 101 0 1);
            (mkEvent 4 "aten::sub" 12000 18000 6000 [], mkEventMetrics 6000 6000 0 0)]
         = Some r
         /\ queue_depth_m r <= 1.
Proof.
  apply (compute_queue_depth_at_most_kernels launch_kernel_self
           {| self_profile := mkProfile (Some launch_kernel_results);
              self_metrics := _;
              self_event_keys := cpu_trace;
              self_events := cpu_trace;
              self_mlu_events := [(0%nat, launch_10); (1%nat, kernel_12)];
              self_queue_depth_list := [] |}
           _ launch_kernel_results).
  - reflexivity.
  - vm_compute. reflexivity.
Defined.

(** ** The timeline and [self.mlu_events] *)

Lemma sorted_ext {A} (key1 key2 : A -> Z) (l : list A) :
  (forall x y, (key1 x <=? key1 y) = (key2 x <=? key2 y)) ->
  sorted key1 l = sorted key2 l.
Proof.
  intros Hext. induction l as [|x l IH]; simpl; [done|]. rewrite IH.
  generalize (sorted key2 l). intros k.
  induction k as [|y k IHk]; simpl; [done|]. by rewrite Hext, IHk.
Qed.

Lemma omap_insert_by {A B} (f : A -> option B) (keyA : A -> Z) (keyB : B -> Z)
    (x : A) (l : list A) :
  (forall a b, f a = Some b -> keyB b = keyA a) ->
  StronglySorted (fun a b => keyA a <= keyA b) l ->
  omap f (insert_by keyA x l)
  = match f x with
    | Some b => insert_by keyB b (omap f l)
    | None => omap f l
    end.
Proof.
  intros Hkey Hsorted.
  destruct (sorted_cut keyA (keyA x) l Hsorted) as (l1 & l2 & -> & H1 & H2).
  rewrite insert_by_between by done.
  rewrite !omap_app. simpl. destruct (f x) as [b|] eqn:Hb; [|done].
  rewrite insert_by_between; [done | |].
  - apply Forall_forall. intros y Hy.
    apply list_elem_of_omap in Hy as (a & Ha & Hfa).
    rewrite Forall_forall in H1. specialize (H1 a Ha).
    rewrite (Hkey _ _ Hfa), (Hkey _ _ Hb). done.
  - apply Forall_forall. intros y Hy.
    apply list_elem_of_omap in Hy as (a & Ha & Hfa).
    rewrite Forall_forall in H2. specialize (H2 a Ha).
    rewrite (Hkey _ _ Hfa), (Hkey _ _ Hb). done.
Qed.

(** Sorting and then keeping some of the elements is keeping them and then
    sorting: the sort is stable. *)
Lemma omap_sorted {A B} (f : A -> option B) (keyA : A -> Z) (keyB : B -> Z)
    (l : list A) :
  (forall a b, f a = Some b -> keyB b = keyA a) ->
  omap f (sorted keyA l) = sorted keyB (omap f l).
Proof.
  intros Hkey. induction l as [|x l IH]; simpl; [done|].
  rewrite (omap_insert_by f keyA keyB) by (done || apply sorted_sorted).
  rewrite IH. by destruct (f x).
Qed.

Lemma device_part_all_events kr cpu_events :
  device_part (all_events_of kr cpu_events)
  = sorted dev_start_us (mlu_launch_events_of kr ++ mlu_kernel_events_of kr).
Proof.
  unfold device_part, all_events_of.
  rewrite (omap_sorted _ _ (fun d => dev_start_us d * 1000)).
  2:{ intros [d|c] b; simpl; [|discriminate]. by intros [= ->]. }
  rewrite !omap_app.
  assert (forall ds, omap (fun a => match a with Dev d => Some d | Cpu _ => None end)
                          (map Dev ds) = ds) as Hdev.
  { induction ds as [|d ds IH]; simpl; [done|]. f_equal. exact IH. }
  assert (forall cs, omap (fun a => match a with Dev d => Some d | Cpu _ => None end)
                          (map Cpu cs) = []) as Hcpu.
  { induction cs as [|c cs IH]; simpl; [done | exact IH]. }
  rewrite !Hdev, Hcpu, app_nil_r.
  apply sorted_ext. intros x y.
  destruct (Z.leb_spec (dev_start_us x * 1000) (dev_start_us y * 1000)),
           (Z.leb_spec (dev_start_us x) (dev_start_us y)); lia.
Qed.

Lemma sweep_spans kernels mapping all_events : forall s s',
  sweep kernels mapping all_events s = Ok s' ->
  map span_of (sweep_queue_depth_list s')
  = map span_of (sweep_queue_depth_list s) ++ map dev_span (device_part all_events).
Proof.
  induction all_events as [|a rest IH]; intros s s' Hrun; simpl in Hrun.
  - inversion Hrun; subst. simpl. by rewrite app_nil_r.
  - destruct (sweep_step kernels mapping s a) as [s1|] eqn:Hstep; [|discriminate].
    simpl in Hrun. rewrite (IH _ _ Hrun). unfold sweep_step in Hstep.
    destruct a as [d|c].
    + inversion Hstep; subst. simpl. rewrite map_app, <- app_assoc. done.
    + destruct (metrics_mem c (sweep_metrics s)); [|discriminate].
      by inversion Hstep; subst.
Qed.

(** X7: the returned timeline goes with [self.mlu_events] place by place:
    its k-th interval spans the k-th device event, from its start to its
    start plus its duration, in nanoseconds.  So there is one interval per
    launch or kernel event, none for a CPU event, and the timeline is in
    order of start. *)
Theorem timeline_follows_mlu_events (self self' : BasicEvaluation)
    (queue_depth_list : list Interval) :
  compute_queue_depth self = Ok (self', queue_depth_list) ->
  map span_of queue_depth_list = map dev_span (self_mlu_events self')
  /\ length queue_depth_list = length (self_mlu_events self')
  /\ StronglySorted (fun a b => start a <= start b) queue_depth_list.
Proof.
  unfold compute_queue_depth.
  destruct (kineto_results (self_profile self)) as [kr|]; [|discriminate].
  destruct (sweep _ _ _ _) as [s|] eqn:Hrun; [|discriminate].
  simpl. intros [= <- <-]. simpl.
  apply sweep_spans in Hrun. simpl in Hrun.
  rewrite device_part_all_events in Hrun.
  split; [done|]. split.
  - by rewrite <- (length_map span_of), Hrun, length_map.
  - pose proof (sorted_sorted dev_start_us
                  (mlu_launch_events_of kr ++ mlu_kernel_events_of kr)) as Hsorted.
    revert Hrun Hsorted. generalize (sweep_queue_depth_list s).
    generalize (sorted dev_start_us
                  (mlu_launch_events_of kr ++ mlu_kernel_events_of kr)).
    intros ds. induction ds as [|d ds IH]; intros [|i l] Hmap Hsorted;
      try discriminate; [constructor|].
    simpl in Hmap. inversion Hmap as [[Hstart Hend Hrest]].
    inversion Hsorted as [|? ? Hds Hd]; subst.
    constructor; [by apply IH|].
    apply Forall_forall. intros i' Hi'.
    assert (In (span_of i') (map dev_span ds)) as Hin.
    { rewrite <- Hrest. apply in_map. by apply list_elem_of_In. }
    apply in_map_iff in Hin as (d' & Hspan & Hd').
    apply list_elem_of_In in Hd'.
    rewrite Forall_forall in Hd. specialize (Hd d' Hd').
    unfold span_of, dev_span in Hspan. inversion Hspan. lia.
Qed.

Lemma timeline_follows_mlu_events_witness :
  map span_of [mkInterval 10000 11000 1; mkInterval 12000 17000 0]
  = map dev_span [(0%nat, launch_10); (1%nat, kernel_12)]
  /\ length [mkInterval 10000 11000 1; mkInterval 12000 17000 0]
     = length [(0%nat, launch_10); (1%nat, kernel_12)]
  /\ StronglySorted (fun a b => start a <= start b)
       [mkInterval 10000 11000 1; mkInterval 12000 17000 0].
Proof.
  apply (timeline_follows_mlu_events launch_kernel_self launch_kernel_swept).
  vm_compute. reflexivity.
Defined.

(** ** What the passes leave alone *)

Lemma map_metrics_alter (g f : EventMetrics -> EventMetrics) e (m : Metrics) :
  (forall r, g (f r) = g r) ->
  map (fun p => (fst p, g (snd p))) (metrics_alter f e m)
  = map (fun p => (fst p, g (snd p))) m.
Proof.
  intros Hgf. induction m as [|p m IH]; simpl; [done|].
  destruct (same_key e p); simpl; [by rewrite Hgf | by rewrite IH].
Qed.

Lemma sweep_frame kernels mapping all_events : forall s s',
  sweep kernels mapping all_events s = Ok s' ->
  map without_queue_depth (sweep_metrics s')
  = map without_queue_depth (sweep_metrics s).
Proof.
  induction all_events as [|a rest IH]; intros s s' Hrun; simpl in Hrun.
  - by inversion Hrun.
  - destruct (sweep_step kernels mapping s a) as [s1|] eqn:Hstep; [|discriminate].
    simpl in Hrun. rewrite (IH _ _ Hrun). unfold sweep_step in Hstep.
    destruct a as [d|c].
    + by inversion Hstep.
    + destruct (metrics_mem c (sweep_metrics s)); [|discriminate].
      inversion Hstep; subst. simpl.
      by apply (map_metrics_alter (set_queue_depth 0)).
Qed.

(** X8: [compute_queue_depth] writes nothing but [queue_depth] into the
    metrics and [self.mlu_events] into the object: the keys, their order and
    the other three fields of every record stay, and so do the profile, the
    event lists and [self.queue_depth_list]. *)
Theorem compute_queue_depth_frame (self self' : BasicEvaluation)
    (queue_depth_list : list Interval) :
  compute_queue_depth self = Ok (self', queue_depth_list) ->
  map without_queue_depth (self_metrics self')
  = map without_queue_depth (self_metrics self)
  /\ self_profile self' = self_profile self
  /\ self_event_keys self' = self_event_keys self
  /\ self_events self' = self_events self
  /\ self_queue_depth_list self' = self_queue_depth_list self.
Proof.
  unfold compute_queue_depth.
  destruct (kineto_results (self_profile self)) as [kr|]; [|discriminate].
  destruct (sweep _ _ _ _) as [s|] eqn:Hrun; [|discriminate].
  simpl. intros [= <- <-]. simpl. repeat split.
  by apply sweep_frame in Hrun.
Qed.

Lemma compute_queue_depth_frame_witness :
  map without_queue_depth (self_metrics launch_kernel_swept)
  = map without_queue_depth (self_metrics launch_kernel_self)
  /\ self_profile launch_kernel_swept = self_profile launch_kernel_self
  /\ self_event_keys launch_kernel_swept = self_event_keys launch_kernel_self
  /\ self_events launch_kernel_swept = self_events launch_kernel_self
  /\ self_queue_depth_list launch_kernel_swept
     = self_queue_depth_list launch_kernel_self.
Proof.
  apply (compute_queue_depth_frame launch_kernel_self launch_kernel_swept
           [mkInterval 10000 11000 1; mkInterval 12000 17000 0]).
  vm_compute. reflexivity.
Defined.

(** A loop that updates the record of every key in turn is a map over the
    records, when no identity occurs twice. *)
Lemma fold_alter_keys (h : Event -> EventMetrics -> EventMetrics)
    (todo : Metrics) : forall done_ : Metrics,
  (forall p, p ∈ todo -> metrics_mem (fst p) done_ = false) ->
  NoDup (map id (metrics_keys todo)) ->
  fold_left (fun m e => metrics_alter (h e) e m) (metrics_keys todo)
            (done_ ++ todo)
  = done_ ++ map (fun p => (fst p, h (fst p) (snd p))) todo.
Proof.
  induction todo as [|[k r] todo IH]; intros done_ Hfresh Hnd; [done|].
  simpl in *. inversion Hnd as [|? ? Hk Hnd']; subst.
  rewrite metrics_alter_app by (by apply (Hfresh (k, r)); left).
  simpl. rewrite same_key_refl. simpl.
  change (done_ ++ (k, h k r) :: todo) with (done_ ++ [(k, h k r)] ++ todo).
  rewrite app_assoc, IH; [by rewrite <- app_assoc | | done].
  intros p Hp. rewrite metrics_mem_app, (Hfresh p) by (by right). simpl.
  unfold metrics_mem, same_key. simpl. rewrite orb_false_r.
  apply Z.eqb_neq. intros Heq. apply Hk. rewrite Heq.
  apply list_elem_of_fmap_2. by apply (list_elem_of_fmap_2 fst) in Hp.
Qed.

Section IdleWrites.

Context {defaults : Defaults}.


End IdleWrites.


(** ** [__init__]: when it returns, and a trace without device events *)

Lemma metrics_keys_write_depth d seg : forall m,
  metrics_keys (write_depth d seg m) = metrics_keys m.
Proof.
  induction seg as [|x seg IH]; intros m; [done|].
  unfold write_depth in *. simpl. by rewrite IH, metrics_keys_alter.
Qed.

Lemma filter_none {A} (P : A -> Prop) `{!forall x, Decision (P x)} (l : list A) :
  Forall (fun x => ~ P x) l -> filter P l = [].
Proof.
  induction 1 as [|x l Hx _ IH]; [done|].
  rewrite filter_cons. by destruct (decide (P x)).
Qed.

Lemma write_depth_all d seg (m : Metrics) :
  NoDup (map id (metrics_keys m)) ->
  (forall k, k ∈ metrics_keys m -> id k ∈ map id seg) ->
  Forall (fun p => queue_depth_m (snd p) = d) (write_depth d seg m).
Proof.
  intros Hnd Hseg. apply Forall_forall. intros [k r'] Hin.
  assert (k ∈ metrics_keys m) as Hk.
  { rewrite <- (metrics_keys_write_depth d seg).
    by apply (list_elem_of_fmap_2 fst) in Hin. }
  pose proof (metrics_get_entry (write_depth d seg m) k r') as Hget.
  rewrite metrics_keys_write_depth in Hget. specialize (Hget Hnd Hin).
  rewrite metrics_get_write_depth in Hget by (by apply Hseg).
  destruct (metrics_get k m); simpl in Hget; [|discriminate].
  by inversion Hget.
Qed.

Section InitEdges.

Context {defaults : Defaults}.

(** X10: [__init__] builds the object exactly when the profile has trace
    results and no identity occurs twice in the event tree.  When it stops,
    it is with the assertion on the missing results or with the duplicate-id
    assertion of [compute_self_time]: the later passes never fail, every
    event they look up has its record. *)
Theorem BasicEvaluation_init_returns_iff (prof : profile) :
  ((exists self, BasicEvaluation_init prof = Ok self)
   <-> exists kr, kineto_results prof = Some kr
                  /\ well_formed_forest (experimental_event_tree kr))
  /\ forall err,
       BasicEvaluation_init prof = Raise err ->
       (kineto_results prof = None /\ err = AssertKinetoResults)
       \/ exists kr e,
            kineto_results prof = Some kr
            /\ e ∈ forest_nodes (experimental_event_tree kr)
            /\ err = DuplicateId (id e) (name e).
Proof.
  split; [split|].
  - intros [self Hself]. unfold BasicEvaluation_init in Hself.
    destruct (compute_self_time prof []) as [m|] eqn:Hm; [|discriminate].
    destruct (kineto_results prof) as [kr|] eqn:Hkr.
    + exists kr. split; [done|].
      rewrite (compute_self_time_spec _ _ _ Hkr) in Hm.
      apply record_all_ok in Hm as (_ & Hnd & _).
      unfold well_formed_forest. by rewrite <- visit_stack_perm.
    + unfold compute_self_time in Hm. by rewrite Hkr in Hm.
  - intros (kr & Hkr & Hwf). by apply (BasicEvaluation_init_returns prof kr).
  - intros err Herr.
    destruct (kineto_results prof) as [kr|] eqn:Hkr.
    + right. exists kr.
      destruct (decide (well_formed_forest (experimental_event_tree kr)))
        as [Hwf|Hwf].
      * destruct (BasicEvaluation_init_returns prof kr Hkr Hwf) as [self Hself].
        congruence.
      * unfold well_formed_forest in Hwf. rewrite <- visit_stack_perm in Hwf.
        destruct (first_duplicate _ _ Hwf) as (pre & e & post & Hsplit & Hnd & Hin).
        exists e. split; [done|]. split.
        -- rewrite <- visit_stack_perm, Hsplit. apply elem_of_app. right. left.
        -- unfold BasicEvaluation_init in Herr.
           rewrite (compute_self_time_spec _ _ _ Hkr), Hsplit in Herr.
           rewrite record_all_duplicate in Herr by done.
           simpl in Herr. congruence.
    + left. split; [done|]. unfold BasicEvaluation_init, compute_self_time in Herr.
      rewrite Hkr in Herr. simpl in Herr. congruence.
Qed.

(** X11: for a trace in which no device record is a launch or a kernel (an
    empty device list included), [__init__] builds an object with an empty
    timeline and no device events, and every CPU event gets queue depth 0
    and idle time 0. *)
Theorem init_without_device_events (prof : profile) (kr : KinetoResults) :
  kineto_results prof = Some kr ->
  well_formed_forest (experimental_event_tree kr) ->
  Forall (fun d => is_mlu_launch_kernel d = false /\ is_mlu_kernel d = false)
         (mlu_event_list_of kr) ->
  exists self,
    BasicEvaluation_init prof = Ok self
    /\ self_queue_depth_list self = []
    /\ self_mlu_events self = []
    /\ metrics_keys (self_metrics self)
       = visit_stack (rev (experimental_event_tree kr))
    /\ Forall (fun p => queue_depth_m (snd p) = 0 /\ idle_time_ns (snd p) = 0)
              (self_metrics self).
Proof.
  intros Hkr Hwf Hnone.
  assert (mlu_launch_events_of kr = []) as Hlaunch.
  { unfold mlu_launch_events_of. rewrite filter_none; [done|].
    eapply Forall_impl; [exact Hnone|]. simpl. intros d [-> _]. discriminate. }
  assert (mlu_kernel_events_of kr = []) as Hkernel.
  { unfold mlu_kernel_events_of. rewrite filter_none; [done|].
    eapply Forall_impl; [exact Hnone|]. simpl. intros d [_ ->]. discriminate. }
  assert (NoDup (map id (visit_stack (rev (experimental_event_tree kr)))))
    as Hnd.
  { unfold well_formed_forest in Hwf. by rewrite visit_stack_perm. }
  set (order_ := visit_stack (rev (experimental_event_tree kr))) in *.
  set (m := map (fun e => (e, entry_of e)) order_).
  assert (metrics_keys m = order_) as Hkeys.
  { unfold m, metrics_keys. rewrite map_map. simpl. apply map_id. }
  unfold BasicEvaluation_init.
  rewrite (compute_self_time_spec _ _ _ Hkr).
  fold order_. rewrite record_all_fresh by done.
  simpl. fold m. unfold compute_queue_depth. simpl. rewrite Hkr.
  unfold all_events_of. rewrite Hlaunch, Hkernel. simpl.
  rewrite (sorted_fmap Cpu new_old_event_comparator).
  rewrite sweep_cpu_segment; simpl.
  2:{ intros e He. rewrite !sorted_perm in He. apply metrics_mem_true.
      by apply list_elem_of_fmap_2. }
  2:{ done. }
  eexists. split; [reflexivity|]. simpl.
  split; [done|]. split; [done|].
  match goal with
  | |- context [write_depth ?d ?sg m] => change d with 0; set (seg := sg)
  end.
  assert (seg ≡ₚ metrics_keys m) as Hseg by (unfold seg; by rewrite !sorted_perm).
  assert (NoDup (map id (metrics_keys (write_depth 0 seg m)))) as Hnd'.
  { by rewrite metrics_keys_write_depth, Hkeys. }
  match goal with
  | |- context [fold_left ?f ?keys ?m0] =>
      assert (fold_left f keys m0
              = map (fun p => (fst p, set_idle_time_ns 0 (snd p)))
                    (write_depth 0 seg m)) as ->
  end.
  { apply (fold_alter_keys (fun e => set_idle_time_ns 0) (write_depth 0 seg m) []);
      done. }
  split.
  - unfold metrics_keys. rewrite map_map. simpl.
    fold (metrics_keys (write_depth 0 seg m)).
    by rewrite metrics_keys_write_depth.
  - apply Forall_forall. intros p Hp.
    apply list_elem_of_fmap in Hp as (q & -> & Hq). simpl. split; [|done].
    assert (Forall (fun p => queue_depth_m (snd p) = 0) (write_depth 0 seg m))
      as Hall.
    { apply write_depth_all; [by rewrite Hkeys|].
      intros k Hk. apply list_elem_of_fmap_2. by rewrite Hseg. }
    rewrite Forall_forall in Hall. by apply Hall.
Qed.

End InitEdges.

Lemma init_without_device_events_witness :
  exists self,
    BasicEvaluation_init (defaults := torch_defaults) tree_profile = Ok self
    /\ self_queue_depth_list self = []
    /\ self_mlu_events self = []
    /\ metrics_keys (self_metrics self) = visit_stack (rev [root_event])
    /\ Forall (fun p => queue_depth_m (snd p) = 0 /\ idle_time_ns (snd p) = 0)
              (self_metrics self).
Proof.
  apply (@init_without_device_events torch_defaults tree_profile
           (mkKinetoResults [root_event] [])).
  - reflexivity.
  - unfold well_formed_forest. vm_compute. solve_NoDup.
  - constructor.
Defined.

(** ** The falling intervals of rank_events *)

Lemma argmax_from_bound l : forall (i : nat) best best_i,
  argmax_from l i best best_i = best_i
  \/ (i <= argmax_from l i best best_i < i + length l)%nat.
Proof.
  induction l as [|x l IH]; intros i best best_i; simpl; [by left|].
  destruct (best <? x).
  - right. destruct (IH (S i) x i) as [->|?]; lia.
  - destruct (IH (S i) best best_i) as [->|?]; [by left | right; lia].
Qed.

Lemma argmax_bound (seq : list Z) (start_idx : nat) end_idx (p : nat) :
  argmax seq start_idx end_idx = Some p ->
  (start_idx <= p < length seq)%nat.
Proof.
  unfold argmax.
  destruct (take _ (drop start_idx seq)) as [|x l] eqn:Hslice; [discriminate|].
  intros [= <-].
  assert (length (x :: l) <= length seq - start_idx)%nat as Hlen.
  { rewrite <- Hslice, length_take, length_drop. lia. }
  simpl in Hlen.
  destruct (argmax_from_bound l (S start_idx) x start_idx) as [->|?]; lia.
Qed.

Lemma find_peak_bound qd_values (i : nat) js p nm :
  Forall (fun j => (i < j)%nat) js ->
  find_peak qd_values js = Some (p, nm) ->
  (i < p < length qd_values)%nat /\ top_threashold <= qd_values !!! p.
Proof.
  induction 1 as [|j js Hj _ IH]; simpl; [discriminate|].
  destruct (argmax qd_values j _) as [q|] eqn:Hq; [|exact IH].
  destruct (top_threashold <=? qd_values !!! q) eqn:Htop; [|exact IH].
  intros [= <- <-]. apply argmax_bound in Hq. apply Z.leb_le in Htop.
  split; [lia | done].
Qed.


Section FallingIntervals.

Context {defaults : Defaults}.

Lemma decrease_loop_falling queue_depth_list qd_values budget :
  forall i decrease_interval,
    Forall (falling queue_depth_list qd_values) decrease_interval ->
    Forall (falling queue_depth_list qd_values)
           (decrease_loop budget queue_depth_list qd_values i decrease_interval).
Proof.
  induction budget as [|budget IH]; intros i acc Hacc; simpl; [done|].
  destruct (i <? length qd_values)%nat eqn:Hi; [|done].
  apply Nat.ltb_lt in Hi.
  destruct (bottom_threashold <? qd_values !!! i) eqn:Hbottom; [by apply IH|].
  apply Z.ltb_ge in Hbottom.
  destruct (find_peak qd_values _) as [[p nm]|] eqn:Hpeak; [|by apply IH].
  apply IH. apply Forall_app. split; [done|]. repeat constructor.
  apply (find_peak_bound _ i) in Hpeak as [Hp Htop].
  - exists i, p. repeat split; try done; lia.
  - apply Forall_forall. intros j Hj. apply elem_of_seq in Hj. lia.
Qed.

Lemma decrease_interval_peak (self : BasicEvaluation) (d : Interval) :
  d ∈ decrease_interval_of self ->
  exists (a b : nat) (peak zero : Interval),
    self_queue_depth_list self !! a = Some peak
    /\ self_queue_depth_list self !! b = Some zero
    /\ (a < b)%nat
    /\ top_threashold <= queue_depth peak
    /\ queue_depth zero <= bottom_threashold
    /\ start d = start peak
    /\ end_ d = start zero.
Proof.
  intros Hd. unfold decrease_interval_of in Hd.
  pose proof (decrease_loop_falling (rev (self_queue_depth_list self))
                (map queue_depth (rev (self_queue_depth_list self)))
                (length (map queue_depth (rev (self_queue_depth_list self))))
                0 [] (Forall_nil_2 _)) as Hall.
  rewrite Forall_forall in Hall.
  destruct (Hall d Hd) as (i & p & Hip & Hzero & Htop & Hstart & Hend).
  clear Hall Hd. set (l := self_queue_depth_list self) in *.
  rewrite length_map, length_rev in Hip.
  assert (forall k, (k < length l)%nat ->
            exists x, l !! (length l - S k)%nat = Some x
                      /\ rev l !!! k = x
                      /\ map queue_depth (rev l) !!! k = queue_depth x) as Hrev.
  { intros k Hk.
    destruct (l !! (length l - S k)%nat) as [x|] eqn:Hx.
    - exists x. split; [done|].
      assert (rev l !! k = Some x) as Hrk.
      { replace (rev l) with (reverse l) by (symmetry; apply rev_alt).
        by rewrite reverse_lookup. }
      split.
      + by apply list_lookup_total_correct.
      + apply list_lookup_total_correct.
        change (map queue_depth (rev l)) with (queue_depth <$> rev l).
        by rewrite list_lookup_fmap, Hrk.
    - apply lookup_ge_None in Hx. lia. }
  destruct (Hrev p) as (peak & Hpeak & Hp1 & Hp2); [lia|].
  destruct (Hrev i) as (zero & Hzero' & Hi1 & Hi2); [lia|].
  exists (length l - S p)%nat, (length l - S i)%nat, peak, zero.
  rewrite Hp2 in Htop. rewrite Hi2 in Hzero. rewrite Hp1 in Hstart.
  rewrite Hi1 in Hend. repeat split; try done. lia.
Qed.

(** X12: every interval in which [rank_events] looks for events runs from
    the start of a timeline interval of depth at least 4 to the start of a
    later timeline interval of depth at most 0. *)
Theorem decrease_interval_shape (self : BasicEvaluation) (d : Interval) :
  d ∈ decrease_interval_of self ->
  exists (a b : nat) (peak zero : Interval),
    self_queue_depth_list self !! a = Some peak
    /\ self_queue_depth_list self !! b = Some zero
    /\ (a < b)%nat
    /\ top_threashold <= queue_depth peak
    /\ queue_depth zero <= bottom_threashold
    /\ start d = start peak
    /\ end_ d = start zero.
Proof. apply decrease_interval_peak. Qed.

Lemma no_peak_no_decrease_interval (self : BasicEvaluation) :
  Forall (fun i => queue_depth i < top_threashold) (self_queue_depth_list self) ->
  decrease_interval_of self = [].
Proof.
  intros Hlow. destruct (decrease_interval_of self) as [|d ds] eqn:Hd; [done|].
  destruct (decrease_interval_peak self d)
    as (a & b & peak & zero & Ha & _ & _ & Htop & _).
  { rewrite Hd. left. }
  rewrite Forall_forall in Hlow. apply list_elem_of_lookup_2 in Ha.
  specialize (Hlow peak Ha). lia.
Qed.

End FallingIntervals.

(** ** The result of rank_events and its report *)

Section RankResult.

Context {defaults : Defaults} {torch : Float32}.

Lemma survivors_no_interval (self : BasicEvaluation) :
  decrease_interval_of self = [] -> survivors self = [].
Proof.
  intros Hnil. unfold survivors. rewrite Hnil. apply filter_none.
  apply Forall_forall. intros p _ Hne. by apply Hne.
Qed.

Lemma survivors_keys (self : BasicEvaluation) e :
  e ∈ map fst (survivors self) -> metrics_mem e (self_metrics self) = true.
Proof.
  intros He. apply list_elem_of_fmap in He as (p & -> & Hp).
  unfold survivors in Hp. apply list_elem_of_filter in Hp as [_ Hp].
  apply metrics_mem_true. apply list_elem_of_fmap_2.
  by apply (list_elem_of_fmap_2 fst) in Hp.
Qed.

Lemma rank_events_keys (self : BasicEvaluation) length_ e :
  e ∈ rank_events self length_ -> metrics_mem e (self_metrics self) = true.
Proof.
  intros He. apply survivors_keys. rewrite rank_events_spec in He.
  apply slice_to_subseteq in He. by rewrite ranked_keys in He.
Qed.

(** X13: the ranking is cut from one list: for [0 <= N <= M],
    [rank_events(N)] is the first [N] events of [rank_events(M)]; a negative
    [N] drops the last [-N] events of the whole ranking. *)
Theorem rank_events_prefix (self : BasicEvaluation) (N M : Z) :
  (0 <= N <= M ->
   rank_events self N = take (Z.to_nat N) (rank_events self M))
  /\ (N < 0 ->
      rank_events self N
      = take (length (survivors self) - Z.to_nat (- N))
             (rank_events self (Z.of_nat (length (survivors self))))).
Proof.
  assert (length (map snd (sorted_reverse (scored_survivors self)))
          = length (survivors self)) as Hlen.
  { rewrite length_map, sorted_reverse_perm. unfold scored_survivors.
    rewrite length_zip, heuristic_score_list_length, length_map. lia. }
  rewrite !rank_events_spec. split.
  - intros HNM. unfold slice_to.
    replace (0 <=? N) with true by (symmetry; apply Z.leb_le; lia).
    replace (0 <=? M) with true by (symmetry; apply Z.leb_le; lia).
    rewrite take_take. f_equal. lia.
  - intros HN. rewrite (slice_to_all _ (Z.of_nat (length (survivors self))))
      by (rewrite Hlen; lia).
    unfold slice_to.
    replace (0 <=? N) with false by (symmetry; apply Z.leb_gt; lia).
    by rewrite Hlen.
Qed.

Context {report : Report}.

Lemma event_blocks_total (metrics : Metrics) (event_list : list Event) :
  (forall e, e ∈ event_list -> metrics_mem e metrics = true) ->
  exists blocks,
    event_blocks metrics event_list = Ok blocks
    /\ length blocks = length event_list.
Proof.
  induction event_list as [|e l IH]; intros Hmem; simpl; [by eexists|].
  destruct (proj1 (metrics_mem_get e metrics) (Hmem e ltac:(left))) as [r ->].
  destruct IH as (blocks & -> & Hlen); [intros e' He'; apply Hmem; by right|].
  simpl. eexists. split; [reflexivity|]. simpl. by rewrite Hlen.
Qed.

(** X14: [get_optimizable_events] always returns the list of
    [rank_events(length)], and never fails on a lookup in [self.metrics].
    With [print_enable] false it prints nothing; with [print_enable] true it
    prints one text: the header for an empty or a non-empty list, followed
    by one block per returned event, the blocks joined by newlines. *)
Theorem get_optimizable_events_returns (self : BasicEvaluation) (length_ : Z)
    (print_enable : bool) :
  exists printed,
    get_optimizable_events self length_ print_enable
    = Ok (rank_events self length_, printed)
    /\ (print_enable = false -> printed = None)
    /\ (print_enable = true ->
        exists blocks,
          length blocks = length (rank_events self length_)
          /\ printed
             = Some ((if decide (rank_events self length_ = [])
                      then "No events to optimize" +:+ newline
                      else "Optimizable events:" +:+ newline)
                     +:+ join newline blocks)).
Proof.
  unfold get_optimizable_events. destruct print_enable; simpl.
  - destruct (event_blocks_total (self_metrics self) (rank_events self length_))
      as (blocks & Hblocks & Hlen).
    { intros e He. by apply (rank_events_keys self length_). }
    rewrite Hblocks. simpl. eexists. split; [reflexivity|].
    split; [discriminate|]. intros _. exists blocks. split; [done|].
    by destruct (rank_events self length_); destruct (decide _).
  - eexists. split; [reflexivity|]. split; [done | discriminate].
Qed.

(** X15: when no interval of the timeline has depth 4 or more,
    [rank_events] returns no event for any length, and
    [get_optimizable_events] returns an empty list; the text it prints, if
    it prints, is the line [No events to optimize]. *)
Theorem nothing_to_optimize (self : BasicEvaluation) (length_ : Z) :
  Forall (fun i => queue_depth i < top_threashold) (self_queue_depth_list self) ->
  rank_events self length_ = []
  /\ get_optimizable_events self length_ true
     = Ok ([], Some ("No events to optimize" +:+ newline))
  /\ get_optimizable_events self length_ false = Ok ([], None).
Proof.
  intros Hlow.
  assert (rank_events self length_ = []) as Hnil.
  { unfold rank_events.
    by rewrite survivors_no_interval by (by apply no_peak_no_decrease_interval). }
  unfold get_optimizable_events. rewrite Hnil. done.
Qed.

End RankResult.

Lemma rank_events_prefix_witness :
  rank_events (defaults := torch_defaults) (torch := Binary32.ops)
    (evaluation_of family_profile) 1
  = take 1 (rank_events (defaults := torch_defaults) (torch := Binary32.ops)
              (evaluation_of family_profile) 2)
  /\ rank_events (defaults := torch_defaults) (torch := Binary32.ops)
       (evaluation_of family_profile) (-1)
     = take 1 (rank_events (defaults := torch_defaults) (torch := Binary32.ops)
                 (evaluation_of family_profile) 2).
Proof.
  split.
  - apply (proj1 (@rank_events_prefix torch_defaults Binary32.ops
                    (evaluation_of family_profile) 1 2)). lia.
  - apply (proj2 (@rank_events_prefix torch_defaults Binary32.ops
                    (evaluation_of family_profile) (-1) 0)). lia.
Defined.

Lemma nothing_to_optimize_witness :
  rank_events (defaults := torch_defaults) (torch := Binary32.ops)
    (evaluation_of launch_kernel_profile) 1 = []
  /\ get_optimizable_events (defaults := torch_defaults) (torch := Binary32.ops)
       (report := name_report) (evaluation_of launch_kernel_profile) 1 true
     = Ok ([], Some ("No events to optimize" +:+ newline))
  /\ get_optimizable_events (defaults := torch_defaults) (torch := Binary32.ops)
       (report := name_report) (evaluation_of launch_kernel_profile) 1 false
     = Ok ([], None).
Proof.
  apply (@nothing_to_optimize torch_defaults Binary32.ops name_report
           (evaluation_of launch_kernel_profile) 1).
  vm_compute. repeat constructor.
Defined.

(** The report for the example with a root and its child. *)
Example family_report :
  exists text,
    get_optimizable_events (defaults := torch_defaults) (torch := Binary32.ops)
      (report := name_report) (evaluation_of family_profile) 1 true
    = Ok ([outer_event], Some text)
    /\ String.prefix ("Optimizable events:" +:+ newline) text = true.
Proof. eexists. split; [vm_compute; reflexivity | reflexivity]. Qed.

(** ** More on what the passes store *)

Section StoredValues.

Context {defaults : Defaults}.

(** X16: when no child has a negative duration, no record holds a self time
    greater than its duration. *)
Theorem self_time_at_most_duration (prof : profile) (kr : KinetoResults)
    (m : Metrics) :
  kineto_results prof = Some kr ->
  Forall (fun e => Forall (fun c => 0 <= duration_time_ns c) (children e))
         (forest_nodes (experimental_event_tree kr)) ->
  compute_self_time prof [] = Ok m ->
  Forall (fun p => self_time_ns (snd p) <= duration_time_ns_m (snd p)) m.
Proof.
  intros Hkr Hchildren Hrun.
  rewrite (compute_self_time_spec _ _ _ Hkr) in Hrun.
  apply record_all_ok in Hrun as (-> & _ & _). simpl.
  apply Forall_forall. intros p Hp.
  apply list_elem_of_fmap in Hp as (e & -> & He). simpl.
  rewrite visit_stack_perm in He.
  rewrite Forall_forall in Hchildren. specialize (Hchildren e He).
  assert (0 <= children_duration e); [|lia].
  unfold children_duration.
  induction Hchildren as [|c cs Hc _ IH]; simpl; lia.
Qed.

(** X17: in the object that [__init__] builds, [self.events] is
    [self.event_keys], it holds every event of the tree once, and it is in
    order of start time; the keys of the metrics are these events in the
    order [compute_self_time] met them. *)
Theorem init_event_lists (prof : profile) (kr : KinetoResults)
    (self : BasicEvaluation) :
  kineto_results prof = Some kr ->
  BasicEvaluation_init prof = Ok self ->
  self_events self = self_event_keys self
  /\ self_events self ≡ₚ forest_nodes (experimental_event_tree kr)
  /\ StronglySorted (fun a b => start_time_ns a <= start_time_ns b)
                    (self_events self)
  /\ self_events self = sorted start_time_ns (metrics_keys (self_metrics self))
  /\ metrics_keys (self_metrics self)
     = visit_stack (rev (experimental_event_tree kr)).
Proof.
  intros Hkr. unfold BasicEvaluation_init.
  destruct (compute_self_time prof []) as [m|] eqn:Hm; [|discriminate].
  simpl. unfold compute_queue_depth. simpl. rewrite Hkr.
  destruct (sweep _ _ _ _) as [s|] eqn:Hrun; [|discriminate].
  simpl. intros [= <-]. simpl.
  rewrite (compute_self_time_spec _ _ _ Hkr) in Hm.
  apply record_all_ok in Hm as (Hm & Hnd & _). simpl in Hm.
  assert (metrics_keys m = visit_stack (rev (experimental_event_tree kr)))
    as Hkeys.
  { rewrite Hm. unfold metrics_keys. rewrite map_map. simpl. apply map_id. }
  apply sweep_keys in Hrun. simpl in Hrun.
  assert (forall g keys m0,
            metrics_keys
              (fold_left (fun m e => metrics_alter (set_idle_time_ns (g e)) e m)
                         keys m0)
            = metrics_keys m0) as Hfold.
  { intros g keys. induction keys as [|k keys IH]; intros m0; simpl; [done|].
    by rewrite IH, metrics_keys_alter. }
  rewrite Hfold, Hrun.
  split; [done|]. split; [by rewrite sorted_perm, Hkeys, visit_stack_perm|].
  split; [apply sorted_sorted|]. done.
Qed.

End StoredValues.

Lemma self_time_at_most_duration_witness :
  Forall (fun p => self_time_ns (snd p) <= duration_time_ns_m (snd p))
         [(root_event, mkEventMetrics 100 70 0 0);
          (child_event, mkEventMetrics 30 30 0 0)].
Proof.
  apply (@self_time_at_most_duration torch_defaults tree_profile
           (mkKinetoResults [root_event] [])).
  - reflexivity.
  - unfold forest_nodes. simpl.
    constructor; [constructor; [simpl; lia | constructor]|].
    constructor; [constructor | constructor].
  - reflexivity.
Defined.

Lemma init_event_lists_witness :
  self_events (evaluation_of family_profile)
  = self_event_keys (evaluation_of family_profile)
  /\ self_events (evaluation_of family_profile) ≡ₚ forest_nodes [outer_event]
  /\ StronglySorted (fun a b => start_time_ns a <= start_time_ns b)
                    (self_events (evaluation_of family_profile))
  /\ self_events (evaluation_of family_profile)
     = sorted start_time_ns
         (metrics_keys (self_metrics (evaluation_of family_profile)))
  /\ metrics_keys (self_metrics (evaluation_of family_profile))
     = visit_stack (rev [outer_event]).
Proof.
  apply (@init_event_lists torch_defaults family_profile
           (mkKinetoResults [outer_event] burst_events)).
  - reflexivity.
  - vm_compute. reflexivity.
Defined.

(** X18: [self.mlu_events] holds the launch events and the kernel events of
    the trace and no other device record, in order of start time. *)
Theorem mlu_events_content (self self' : BasicEvaluation)
    (queue_depth_list : list Interval) (kr : KinetoResults) :
  kineto_results (self_profile self) = Some kr ->
  compute_queue_depth self = Ok (self', queue_depth_list) ->
  StronglySorted (fun a b => dev_start_us a <= dev_start_us b)
                 (self_mlu_events self')
  /\ forall d,
       d ∈ self_mlu_events self'
       <-> d ∈ mlu_event_list_of kr
           /\ (is_mlu_launch_kernel d = true \/ is_mlu_kernel d = true).
Proof.
  intros Hkr. unfold compute_queue_depth. rewrite Hkr.
  destruct (sweep _ _ _ _) as [s|]; [|discriminate].
  simpl. intros [= <- <-]. simpl. split; [apply sorted_sorted|].
  intros d. rewrite sorted_perm, elem_of_app.
  unfold mlu_launch_events_of, mlu_kernel_events_of.
  rewrite !sorted_perm, !list_elem_of_filter. tauto.
Qed.

Lemma mlu_events_content_witness :
  StronglySorted (fun a b => dev_start_us a <= dev_start_us b)
                 (self_mlu_events launch_kernel_swept)
  /\ forall d,
       d ∈ self_mlu_events launch_kernel_swept
       <-> d ∈ mlu_event_list_of launch_kernel_results
           /\ (is_mlu_launch_kernel d = true \/ is_mlu_kernel d = true).
Proof.
  apply (mlu_events_content launch_kernel_self launch_kernel_swept
           [mkInterval 10000 11000 1; mkInterval 12000 17000 0]
           launch_kernel_results).
  - reflexivity.
  - vm_compute. reflexivity.
Defined.

Lemma decrease_interval_shape_witness :
  exists (a b : nat) (peak zero : Interval),
    self_queue_depth_list (evaluation_of lone_profile) !! a = Some peak
    /\ self_queue_depth_list (evaluation_of lone_profile) !! b = Some zero
    /\ (a < b)%nat
    /\ top_threashold <= queue_depth peak
    /\ queue_depth zero <= bottom_threashold
    /\ start (mkInterval 13000 50000 0) = start peak
    /\ end_ (mkInterval 13000 50000 0) = start zero.
Proof.
  apply (@decrease_interval_shape torch_defaults (evaluation_of lone_profile)
           (mkInterval 13000 50000 0)).
  vm_compute. left.
Defined.
